(** * Photo gallery: a shallow embedding of the server handlers, the upload
    queue manager, the gallery view-model and the memories timeline.

    JavaScript values are modelled as follows.  Strings are [string] (the
    data URLs, identifiers and category names the program handles are
    ASCII); an optional field that may be [undefined] is an [option];
    numbers that only count are [Z]; a [Map] keyed by strings is a
    [gmap string _]; a [Set] of identifiers is a [gset string]; arrays are
    lists. *)

From Stdlib Require Import ZArith String Ascii List Lia Sorted.
From stdpp Require Import base option list gmap strings sets pretty.

Local Open Scope string_scope.

(** ** JavaScript helpers shared by all components *)

Module Js.

(** [!!x] for a string that may be [undefined]: the empty string and
    [undefined] are falsy. *)
Definition truthy (o : option string) : bool :=
  match o with
  | Some s => negb (String.eqb s "")
  | None => false
  end.

(** [x || d] on a possibly undefined string. *)
Definition or_else (o : option string) (d : string) : string :=
  match o with
  | Some s => if String.eqb s "" then d else s
  | None => d
  end.

(** [x || 0] on a possibly undefined number. *)
Definition num_or_zero (o : option Z) : Z := default 0%Z o.

Fixpoint strip_prefix (p s : string) : option string :=
  match p with
  | EmptyString => Some s
  | String a p' =>
      match s with
      | String b s' => if Ascii.eqb a b then strip_prefix p' s' else None
      | EmptyString => None
      end
  end.

(** Longest prefix of [s] made of characters satisfying [f], and the rest. *)
Fixpoint span (f : ascii → bool) (s : string) : string * string :=
  match s with
  | String c s' =>
      if f c then let '(a, b) := span f s' in (String c a, b)
      else (EmptyString, s)
  | EmptyString => (EmptyString, EmptyString)
  end.

Fixpoint string_forall (f : ascii → bool) (s : string) : bool :=
  match s with
  | String c s' => f c && string_forall f s'
  | EmptyString => true
  end.

Definition in_range (lo hi : nat) (c : ascii) : bool :=
  (lo <=? nat_of_ascii c)%nat && (nat_of_ascii c <=? hi)%nat.

(** [String.prototype.toLowerCase] on ASCII text. *)
Definition lower_char (c : ascii) : ascii :=
  if in_range 65 90 c then ascii_of_nat (nat_of_ascii c + 32) else c.

Fixpoint toLowerCase (s : string) : string :=
  match s with
  | String c s' => String (lower_char c) (toLowerCase s')
  | EmptyString => EmptyString
  end.

(** [s.includes(q)]. *)
Fixpoint includes (s q : string) : bool :=
  String.prefix q s ||
  match s with
  | String _ s' => includes s' q
  | EmptyString => false
  end.

(** [Array.prototype.sort(cmp)]: the sort is stable, so with a comparator
    that orders consistently the result is the stable insertion sort
    below.  An element is placed before the first element it does not
    compare greater than. *)
Section Sort.
Context {A : Type} (cmp : A → A → Z).

Fixpoint sort_insert (x : A) (l : list A) : list A :=
  match l with
  | [] => [x]
  | y :: l' => if (cmp x y <=? 0)%Z then x :: y :: l' else y :: sort_insert x l'
  end.

Definition sort (l : list A) : list A := foldr sort_insert [] l.
End Sort.

End Js.

(** ** The Express server (authentication, photo records, blob cache) *)

Module Server.

(** The message of a thrown [Error]. *)
Definition exn := string.

(** An [async] handler body: it threads the server state and either
    returns or throws. *)
Definition io (S A : Type) : Type := S → S * (exn + A).

#[global] Instance io_ret {S} : MRet (io S) := λ A a s, (s, inr a).

#[global] Instance io_bind {S} : MBind (io S) := λ A B f m s,
  match m s with
  | (s', inr a) => f a s'
  | (s', inl e) => (s', inl e)
  end.

Definition throw {S A} (e : exn) : io S A := λ s, (s, inl e).

(** [try { body } catch (e) { handler }] *)
Definition try_catch {S A} (body : io S A) (handler : exn → io S A) : io S A :=
  λ s, match body s with
       | (s', inl e) => handler e s'
       | (s', inr a) => (s', inr a)
       end.

Definition gets {S A} (f : S → A) : io S A := λ s, (s, inr (f s)).
Definition modify {S} (f : S → S) : io S unit := λ s, (f s, inr tt).

(** *** The document store client *)

Inductive prop :=
  | PTitle (text : string)
  | PRichText (text : string)
  | PEmail (address : string)
  | PSelect (name : string)
  | PNumber (n : Z)
  | PDate (start : string)
  | PCheckbox (b : bool)
  | PMultiSelect (names : list string).

#[global] Instance prop_eq_dec : EqDecision prop.
Proof. solve_decision. Defined.

Record page := {
  page_id : string;
  page_archived : bool;
  page_properties : gmap string prop
}.

Record block := { block_id : string; block_type : string }.

(** What the handlers read of a retrieved database: the plain text of its
    title, if any, and the names of its properties. *)
Record dbInfo := { db_title : option string; db_properties : list string }.

#[local] Set Warnings "-register-all".
Inductive queryFilter :=
  | FTitleEquals (property value : string)
  | FEmailEquals (property value : string)
  | FRichTextEquals (property value : string)
  | FOr (alternatives : list queryFilter).
#[local] Set Warnings "register-all".

(** The calls of [@notionhq/client] the server makes.  Each may change the
    store and may throw. *)
Class NotionClient (N : Type) := {
  blocks_children_list : string → N → N * (exn + list block);
  databases_retrieve : string → N → N * (exn + dbInfo);
  databases_create : string → string → list string → N → N * (exn + string);
  databases_update_title : string → string → N → N * (exn + unit);
  databases_query : string → queryFilter → N → N * (exn + list page);
  pages_create : string → gmap string prop → N → N * (exn + page);
  pages_retrieve : string → N → N * (exn + page);
  pages_update_archived : string → N → N * (exn + unit)
}.

(** *** Server state *)

(** [req.session] of the client whose requests are followed. *)
Record sessionData := { userId : option string; username : option string }.

Record server (N : Type) := {
  notion : N;
  usersDatabaseId : option string;
  photosDatabaseId : option string;
  imageStore : gmap string string;
  session : sessionData
}.
Arguments notion {N}.
Arguments usersDatabaseId {N}.
Arguments photosDatabaseId {N}.
Arguments imageStore {N}.
Arguments session {N}.

(** What the process reads from its environment while handling one
    request. *)
Record env := {
  NOTION_PAGE_ID : string;
  (** [Date.now()] printed in decimal *)
  date_now : string;
  (** [Math.random().toString(36).substr(2, 9)] *)
  math_random : string;
  (** [new Date().toISOString()] *)
  iso_now : string;
  (** [new Date(x).toISOString()]; [None] when [x] is not a date *)
  to_iso : string → option string;
  (** [bcrypt.hash(password, 10)] *)
  bcrypt_hash : string → string
}.

(** A [Buffer], kept as the base64 text it is decoded from. *)
Inductive buffer := Buffer_from_base64 (text : string).

(** What a handler sends.  [ImageBytes] is [res.send(buffer)] after
    [res.set] was given [contentType] as [Content-Type] and
    [cacheControl] as [Cache-Control].  Express sends an image type as
    the header of the response unchanged; to a text type it adds a
    [charset] parameter, so for such a type [contentType] is what the
    handler set, not the header as it is sent. *)
Inductive body :=
  | ErrorJson (error : string)
  | UserJson (id uname email fullName : string)
  | IdJson (id : string)
  | SuccessJson
  | ImageBytes (contentType : string) (data : buffer) (cacheControl : string).

Record response := { status : nat; payload : body }.

Definition json (code : nat) (b : body) : response :=
  {| status := code; payload := b |}.

(** Request bodies; a field the client left out is [None]. *)
Record registerBody := {
  r_username : option string;
  r_email : option string;
  r_password : option string;
  r_fullName : option string
}.

Record photoData := {
  pd_fileName : option string;
  pd_originalName : option string;
  pd_category : option string;
  pd_size : option Z;
  pd_type : option string;
  pd_width : option Z;
  pd_height : option Z;
  pd_uploadDate : option string;
  pd_imageData : option string;
  pd_tags : option (list string)
}.

(** [generateThumbnail]: a truncated copy of the payload. *)
Definition generateThumbnail (base64Data : string) : string :=
  if (2000 <? String.length base64Data)%nat
  then String.substring 0 1500 base64Data ++ "..."
  else base64Data.

(** The character class [[A-Za-z-+\/]]. *)
Definition mime_char (c : ascii) : bool :=
  Js.in_range 65 90 c || Js.in_range 97 122 c
  || Ascii.eqb c "-" || Ascii.eqb c "+" || Ascii.eqb c "/".

(** Line feed and carriage return, which [.] does not match. *)
Definition line_terminator (c : ascii) : bool :=
  (nat_of_ascii c =? 10)%nat || (nat_of_ascii c =? 13)%nat.

(** [imageData.match(/^data:([A-Za-z-+\/]+);base64,(.+)$/)]: the two
    captured groups.  No character of the class is [;], so the first group
    is the longest run of class characters after [data:]. *)
Definition match_data_url (imageData : string) : option (string * string) :=
  rest ← Js.strip_prefix "data:" imageData;
  let '(mimeType, rest') := Js.span mime_char rest in
  if String.eqb mimeType "" then None
  else
    base64Data ← Js.strip_prefix ";base64," rest';
    if String.eqb base64Data "" then None
    else if Js.string_forall (λ c, negb (line_terminator c)) base64Data
         then Some (mimeType, base64Data)
         else None.

(** The character class [[a-f0-9]] under the flag [i]. *)
Definition hex_char (c : ascii) : bool :=
  Js.in_range 97 102 c || Js.in_range 48 57 c || Js.in_range 65 70 c.

(** [(?:[?#]|$)] at the start of [s]. *)
Definition id_ends (s : string) : bool :=
  match s with
  | EmptyString => true
  | String c _ => Ascii.eqb c "?" || Ascii.eqb c "#"
  end.

(** [/([a-f0-9]{32})(?:[?#]|$)/i] tried at the start of [s]: the group
    it captures. *)
Definition page_id_at_start (s : string) : option string :=
  let group := String.substring 0 32 s in
  if (String.length group =? 32)%nat && Js.string_forall hex_char group
     && id_ends (String.substring 32 (String.length s - 32) s)
  then Some group
  else None.

(** [extractPageIdFromUrl]: the leftmost match of the pattern, or the
    error thrown when there is none. *)
Fixpoint extractPageIdFromUrl (pageUrl : string) : exn + string :=
  match page_id_at_start pageUrl with
  | Some id => inr id
  | None =>
      match pageUrl with
      | String _ rest => extractPageIdFromUrl rest
      | EmptyString => inl "Failed to extract page ID from URL"
      end
  end.

Section Handlers.
Context {N : Type} `{NotionClient N} (e : env).

#[local] Abbreviation handler := (io (server N)).

(** An awaited call of the client. *)
Definition call {A} (f : N → N * (exn + A)) : handler A := λ s,
  let '(n', r) := f (notion s) in
  ({| notion := n'; usersDatabaseId := usersDatabaseId s;
      photosDatabaseId := photosDatabaseId s;
      imageStore := imageStore s; session := session s |}, r).

Definition set_usersDatabaseId (v : option string) : handler unit :=
  modify (λ s, {| notion := notion s; usersDatabaseId := v;
                  photosDatabaseId := photosDatabaseId s;
                  imageStore := imageStore s; session := session s |}).

Definition set_photosDatabaseId (v : option string) : handler unit :=
  modify (λ s, {| notion := notion s; usersDatabaseId := usersDatabaseId s;
                  photosDatabaseId := v;
                  imageStore := imageStore s; session := session s |}).

Definition set_imageStore (f : gmap string string → gmap string string) : handler unit :=
  modify (λ s, {| notion := notion s; usersDatabaseId := usersDatabaseId s;
                  photosDatabaseId := photosDatabaseId s;
                  imageStore := f (imageStore s); session := session s |}).

Definition set_session (v : sessionData) : handler unit :=
  modify (λ s, {| notion := notion s; usersDatabaseId := usersDatabaseId s;
                  photosDatabaseId := photosDatabaseId s;
                  imageStore := imageStore s; session := v |}).

(** [requireAuth]: [req.session && req.session.userId]. *)
Definition requireAuth (next : handler response) : handler response :=
  sess ← gets session;
  if Js.truthy (userId sess) then next
  else mret (json 401 (ErrorJson "Authentication required")).

(** [dbInfo.title?.[0]?.plain_text?.toLowerCase()] *)
Definition lowered_title (d : dbInfo) : option string :=
  Js.toLowerCase <$> db_title d.

(** The [for] loop of [initializeUsersDatabase]: [Some id] when it
    returns from inside the loop. *)
Fixpoint find_users_database (blocks : list block) : handler (option string) :=
  match blocks with
  | [] => mret None
  | b :: rest =>
      if String.eqb (block_type b) "child_database" then
        dbInfo ← call (databases_retrieve (block_id b));
        if bool_decide (lowered_title dbInfo = Some "users") then
          set_usersDatabaseId (Some (block_id b));;
          mret (Some (block_id b))
        else find_users_database rest
      else find_users_database rest
  end.

Definition users_schema : list string :=
  ["Username"; "Email"; "Password"; "FullName"; "CreatedAt"; "LastLogin"; "IsActive"].

Definition initializeUsersDatabase : handler string :=
  try_catch
    (cached ← gets usersDatabaseId;
     if Js.truthy cached then mret (default "" cached)
     else
       childBlocks ← call (blocks_children_list (NOTION_PAGE_ID e));
       found ← find_users_database childBlocks;
       match found with
       | Some id => mret id
       | None =>
           id ← call (databases_create (NOTION_PAGE_ID e) "Users" users_schema);
           set_usersDatabaseId (Some id);;
           mret id
       end)
    (λ error, throw error).

(** The date part of an ISO timestamp: [iso.split('T')[0]]. *)
Definition iso_day (iso : string) : string :=
  fst (Js.span (λ c, negb (Ascii.eqb c "T")) iso).

(** The [for] loop of [initializePhotosDatabase].  [inl id] when it
    returns from inside the loop, [inr tt] when the loop ends or is
    left by [break] after renaming a database with an old schema. *)
Fixpoint find_photos_database (blocks : list block) : handler (string + unit) :=
  match blocks with
  | [] => mret (inr tt)
  | b :: rest =>
      if String.eqb (block_type b) "child_database" then
        dbInfo ← call (databases_retrieve (block_id b));
        if bool_decide (lowered_title dbInfo = Some "photos") then
          if bool_decide ("ImageKey" ∈ db_properties dbInfo)
             && bool_decide ("UserId" ∈ db_properties dbInfo) then
            set_photosDatabaseId (Some (block_id b));;
            mret (inl (block_id b))
          else
            call (databases_update_title (block_id b)
                    ("Photos_old_" ++ iso_day (iso_now e)));;
            mret (inr tt)
        else find_photos_database rest
      else find_photos_database rest
  end.

Definition photos_schema : list string :=
  ["Name"; "OriginalName"; "UserId"; "Category"; "FileSize"; "FileType";
   "Width"; "Height"; "UploadDate"; "ImageKey"; "Thumbnail"; "Tags"].

Definition initializePhotosDatabase : handler string :=
  try_catch
    (cached ← gets photosDatabaseId;
     if Js.truthy cached then mret (default "" cached)
     else
       childBlocks ← call (blocks_children_list (NOTION_PAGE_ID e));
       found ← find_photos_database childBlocks;
       match found with
       | inl id => mret id
       | inr _ =>
           id ← call (databases_create (NOTION_PAGE_ID e) "Photos" photos_schema);
           set_photosDatabaseId (Some id);;
           mret id
       end)
    (λ error, throw error).

(** [POST /api/register] *)
Definition register (req : registerBody) : handler response :=
  try_catch
    (initializeUsersDatabase;;
     if negb (Js.truthy (r_username req)) || negb (Js.truthy (r_email req))
        || negb (Js.truthy (r_password req))
     then mret (json 400 (ErrorJson "Username, email, and password are required"))
     else
       let uname := default "" (r_username req) in
       let email := default "" (r_email req) in
       let password := default "" (r_password req) in
       db ← gets usersDatabaseId;
       existingUser ← call (databases_query (default "" db)
                              (FOr [FTitleEquals "Username" uname;
                                    FEmailEquals "Email" email]));
       if (0 <? length existingUser)%nat
       then mret (json 400 (ErrorJson "Username or email already exists"))
       else
         let hashedPassword := bcrypt_hash e password in
         user ← call (pages_create (default "" db)
                        (list_to_map
                           [("Username", PTitle uname);
                            ("Email", PEmail email);
                            ("Password", PRichText hashedPassword);
                            ("FullName", PRichText (Js.or_else (r_fullName req) uname));
                            ("CreatedAt", PDate (iso_now e));
                            ("IsActive", PCheckbox true)]));
         set_session {| userId := Some (page_id user); username := Some uname |};;
         mret (json 200 (UserJson (page_id user) uname email
                           (Js.or_else (r_fullName req) uname))))
    (λ error, mret (json 500 (ErrorJson "Failed to register user"))).

(** [POST /api/photos] *)
Definition add_photo (photoData : photoData) : handler response :=
  requireAuth
    (try_catch
       (initializePhotosDatabase;;
        let imageKey := "photo_" ++ date_now e ++ "_" ++ math_random e in
        (if Js.truthy (pd_imageData photoData)
         then set_imageStore (λ m, <[imageKey := default "" (pd_imageData photoData)]> m)
         else mret tt);;
        let thumbnail := generateThumbnail (Js.or_else (pd_imageData photoData) "") in
        start ← (if Js.truthy (pd_uploadDate photoData)
                 then match to_iso e (default "" (pd_uploadDate photoData)) with
                      | Some iso => mret iso
                      | None => throw "Invalid time value"
                      end
                 else mret (iso_now e));
        db ← gets photosDatabaseId;
        sess ← gets session;
        response ← call (pages_create (default "" db)
                           (list_to_map
                              [("Name", PTitle (Js.or_else (pd_fileName photoData) "Untitled Photo"));
                               ("OriginalName",
                                PRichText (Js.or_else (pd_originalName photoData)
                                             (Js.or_else (pd_fileName photoData) "unknown")));
                               ("UserId", PRichText (default "" (userId sess)));
                               ("Category", PSelect (Js.or_else (pd_category photoData) "other"));
                               ("FileSize", PNumber (Js.num_or_zero (pd_size photoData)));
                               ("FileType", PRichText (Js.or_else (pd_type photoData) "image/jpeg"));
                               ("Width", PNumber (Js.num_or_zero (pd_width photoData)));
                               ("Height", PNumber (Js.num_or_zero (pd_height photoData)));
                               ("UploadDate", PDate start);
                               ("ImageKey", PRichText imageKey);
                               ("Thumbnail", PRichText thumbnail);
                               ("Tags", PMultiSelect (default [] (pd_tags photoData)))]));
        mret (json 200 (IdJson (page_id response))))
       (λ error, mret (json 500 (ErrorJson "Failed to add photo")))).

(** [GET /api/images/:imageKey] *)
Definition get_image (imageKey : string) : handler response :=
  try_catch
    (imageData ← gets (λ s, imageStore s !! imageKey);
     if negb (Js.truthy imageData)
     then mret (json 404 (ErrorJson "Image not found"))
     else
       match match_data_url (default "" imageData) with
       | None => mret (json 400 (ErrorJson "Invalid image data format"))
       | Some (mimeType, base64Data) =>
           mret (json 200 (ImageBytes mimeType (Buffer_from_base64 base64Data)
                             "public, max-age=31536000"))
       end)
    (λ error, mret (json 500 (ErrorJson "Failed to serve image"))).

(** [DELETE /api/photos/:id] *)
Definition delete_photo (id : string) : handler response :=
  requireAuth
    (try_catch
       (try_catch
          (page ← call (pages_retrieve id);
           if negb (page_archived page)
           then call (pages_update_archived id)
           else mret tt)
          (λ pageError, mret tt);;
        set_imageStore (λ m, if bool_decide (is_Some (m !! id)) then delete id m else m);;
        mret (json 200 SuccessJson))
       (λ error, mret (json 500 (ErrorJson "Failed to delete photo")))).

End Handlers.

(** *** A reference document store

    Databases and pages held in memory.  Pages are never removed, only
    archived; queries skip archived pages; identifiers are drawn from a
    counter. *)

Record memDatabase := {
  md_id : string;
  md_title : string;
  md_properties : list string
}.

Record memStore := {
  ms_databases : list memDatabase;
  (** each page with the database it belongs to *)
  ms_pages : list (string * page);
  ms_counter : nat
}.

Definition mem_find_database (id : string) (st : memStore) : option memDatabase :=
  List.find (λ d, String.eqb (md_id d) id) (ms_databases st).

Definition text_of (p : option prop) : option string :=
  match p with
  | Some (PTitle t) | Some (PRichText t) | Some (PEmail t) => Some t
  | _ => None
  end.

Fixpoint filter_holds (f : queryFilter) (pg : page) : bool :=
  match f with
  | FTitleEquals property value
  | FEmailEquals property value
  | FRichTextEquals property value =>
      bool_decide (text_of (page_properties pg !! property) = Some value)
  | FOr alternatives =>
      (fix any (l : list queryFilter) : bool :=
         match l with
         | [] => false
         | g :: l' => filter_holds g pg || any l'
         end) alternatives
  end.

Definition mem_archive (id : string) (entry : string * page) : string * page :=
  if String.eqb (page_id entry.2) id
  then (entry.1, {| page_id := page_id entry.2; page_archived := true;
                    page_properties := page_properties entry.2 |})
  else entry.

Definition mem_retitle (id title : string) (d : memDatabase) : memDatabase :=
  if String.eqb (md_id d) id
  then {| md_id := md_id d; md_title := title; md_properties := md_properties d |}
  else d.

#[global] Instance mem_client : NotionClient memStore := {
  blocks_children_list _ st :=
    (st, inr (map (λ d, {| block_id := md_id d; block_type := "child_database" |})
                (ms_databases st)));
  databases_retrieve id st :=
    match mem_find_database id st with
    | Some d => (st, inr {| db_title := Some (md_title d);
                            db_properties := md_properties d |})
    | None => (st, inl "Could not find database")
    end;
  databases_create _ title properties st :=
    let id := "db-" ++ pretty (ms_counter st) in
    ({| ms_databases := ms_databases st ++
                        [{| md_id := id; md_title := title; md_properties := properties |}];
        ms_pages := ms_pages st;
        ms_counter := S (ms_counter st) |}, inr id);
  databases_update_title id title st :=
    match mem_find_database id st with
    | Some _ => ({| ms_databases := map (mem_retitle id title) (ms_databases st);
                    ms_pages := ms_pages st;
                    ms_counter := ms_counter st |}, inr tt)
    | None => (st, inl "Could not find database")
    end;
  databases_query db f st :=
    match mem_find_database db st with
    | Some _ =>
        (st, inr (map snd
                    (List.filter
                       (λ entry, String.eqb entry.1 db
                                 && negb (page_archived entry.2)
                                 && filter_holds f entry.2)
                       (ms_pages st))))
    | None => (st, inl "Could not find database")
    end;
  pages_create db properties st :=
    match mem_find_database db st with
    | Some _ =>
        let pg := {| page_id := "page-" ++ pretty (ms_counter st);
                     page_archived := false;
                     page_properties := properties |} in
        ({| ms_databases := ms_databases st;
            ms_pages := ms_pages st ++ [(db, pg)];
            ms_counter := S (ms_counter st) |}, inr pg)
    | None => (st, inl "Could not find database")
    end;
  pages_retrieve id st :=
    match List.find (λ entry, String.eqb (page_id entry.2) id) (ms_pages st) with
    | Some entry => (st, inr entry.2)
    | None => (st, inl "Could not find page")
    end;
  pages_update_archived id st :=
    match List.find (λ entry, String.eqb (page_id entry.2) id) (ms_pages st) with
    | Some _ => ({| ms_databases := ms_databases st;
                    ms_pages := map (mem_archive id) (ms_pages st);
                    ms_counter := ms_counter st |}, inr tt)
    | None => (st, inl "Could not find page")
    end
}.

(** *** Logging in *)

(** The call of the client that only [POST /api/login] makes:
    [pages.update] with new values for some properties. *)
Class NotionPages (N : Type) := {
  pages_update_properties : string → gmap string prop → N → N * (exn + unit)
}.

Record loginBody := { l_username : option string; l_password : option string }.

(** The answers of [POST /api/login].  A field of the user that the
    record does not hold is [undefined] and left out of the answer. *)
Inductive loginAnswer :=
  | LoginRefused (code : nat) (error : string)
  | LoggedIn (id : string) (uname email fullName : option string).

(** [properties.X?.rich_text?.[0]?.plain_text], [properties.X?.title?.[0]?.plain_text]
    and [properties.X?.email]; a text property with no text has no first
    segment. *)
Definition rich_text_of (p : option prop) : option string :=
  match p with
  | Some (PRichText t) => if String.eqb t "" then None else Some t
  | _ => None
  end.

Definition title_of (p : option prop) : option string :=
  match p with
  | Some (PTitle t) => if String.eqb t "" then None else Some t
  | _ => None
  end.

Definition email_of (p : option prop) : option string :=
  match p with
  | Some (PEmail a) => Some a
  | _ => None
  end.

Section Login.
Context {N : Type} `{NotionClient N} `{NotionPages N} (e : env).
(** [bcrypt.compare(password, hash)] *)
Context (bcrypt_compare : string → string → bool).

(** [POST /api/login].  [bcrypt.compare] rejects when the stored
    password is [undefined]. *)
Definition login (req : loginBody) : io (server N) loginAnswer :=
  try_catch
    (initializeUsersDatabase e;;
     if negb (Js.truthy (l_username req)) || negb (Js.truthy (l_password req))
     then mret (LoginRefused 400 "Username and password are required")
     else
       let uname := default "" (l_username req) in
       let password := default "" (l_password req) in
       db ← gets usersDatabaseId;
       results ← call (databases_query (default "" db)
                         (FTitleEquals "Username" uname));
       match results with
       | [] => mret (LoginRefused 401 "Invalid username or password")
       | userPage :: _ =>
           match rich_text_of (page_properties userPage !! "Password") with
           | None => throw "data and hash arguments required"
           | Some storedPassword =>
               if negb (bcrypt_compare password storedPassword)
               then mret (LoginRefused 401 "Invalid username or password")
               else
                 call (pages_update_properties (page_id userPage)
                         {["LastLogin" := PDate (iso_now e)]});;
                 set_session {| userId := Some (page_id userPage);
                                username := Some uname |};;
                 mret (LoggedIn (page_id userPage)
                         (title_of (page_properties userPage !! "Username"))
                         (email_of (page_properties userPage !! "Email"))
                         (rich_text_of (page_properties userPage !! "FullName")))
           end
       end)
    (λ error, mret (LoginRefused 500 "Failed to login")).

End Login.

Definition mem_set_properties (id : string) (properties : gmap string prop)
    (entry : string * page) : string * page :=
  if String.eqb (page_id entry.2) id
  then (entry.1, {| page_id := page_id entry.2; page_archived := page_archived entry.2;
                    page_properties := properties ∪ page_properties entry.2 |})
  else entry.

#[global] Instance mem_pages : NotionPages memStore := {
  pages_update_properties id properties st :=
    match List.find (λ entry, String.eqb (page_id entry.2) id) (ms_pages st) with
    | Some _ => ({| ms_databases := ms_databases st;
                    ms_pages := map (mem_set_properties id properties) (ms_pages st);
                    ms_counter := ms_counter st |}, inr tt)
    | None => (st, inl "Could not find page")
    end
}.

(** *** Listing the photos *)

(** [databases.query] with [sorts]: by one property, descending. *)
Class NotionSorted (N : Type) := {
  databases_query_sorted : string → queryFilter → string → N → N * (exn + list page)
}.

(** A photo as [GET /api/photos] sends it. *)
Record photoJson := {
  pj_id : string;
  pj_fileName : string;
  pj_originalName : string;
  pj_category : string;
  pj_size : Z;
  pj_type : string;
  pj_width : Z;
  pj_height : Z;
  (** a [Date] is sent as its ISO text, and as [null] when it is no date *)
  pj_uploadDate : option string;
  pj_imageKey : string;
  pj_thumbnail : string;
  pj_tags : list string;
  pj_downloadURL : string
}.

Inductive photosAnswer :=
  | PhotosRefused (code : nat) (error : string)
  | PhotosJson (photos : list photoJson).

Definition select_of (p : option prop) : option string :=
  match p with
  | Some (PSelect name) => Some name
  | _ => None
  end.

Definition number_of (p : option prop) : option Z :=
  match p with
  | Some (PNumber n) => Some n
  | _ => None
  end.

Definition date_of (p : option prop) : option string :=
  match p with
  | Some (PDate start) => Some start
  | _ => None
  end.

Definition tags_of (p : option prop) : option (list string) :=
  match p with
  | Some (PMultiSelect names) => Some names
  | _ => None
  end.

(** The object [GET /api/photos] makes of a record. *)
Definition photo_json (e : env) (pg : page) : photoJson :=
  let properties := page_properties pg in
  {| pj_id := page_id pg;
     pj_fileName := Js.or_else (title_of (properties !! "Name")) "Untitled";
     pj_originalName := Js.or_else (rich_text_of (properties !! "OriginalName")) "unknown";
     pj_category := Js.or_else (select_of (properties !! "Category")) "other";
     pj_size := Js.num_or_zero (number_of (properties !! "FileSize"));
     pj_type := Js.or_else (rich_text_of (properties !! "FileType")) "image/jpeg";
     pj_width := Js.num_or_zero (number_of (properties !! "Width"));
     pj_height := Js.num_or_zero (number_of (properties !! "Height"));
     pj_uploadDate :=
       if Js.truthy (date_of (properties !! "UploadDate"))
       then to_iso e (default "" (date_of (properties !! "UploadDate")))
       else Some (iso_now e);
     pj_imageKey := Js.or_else (rich_text_of (properties !! "ImageKey")) "";
     pj_thumbnail := Js.or_else (rich_text_of (properties !! "Thumbnail")) "";
     pj_tags := default [] (tags_of (properties !! "Tags"));
     pj_downloadURL :=
       "/api/images/" ++ Js.or_else (rich_text_of (properties !! "ImageKey")) "" |}.

Section Listing.
Context {N : Type} `{NotionClient N} `{NotionSorted N} (e : env).

(** [GET /api/photos], behind [requireAuth]. *)
Definition get_photos : io (server N) photosAnswer :=
  sess ← gets session;
  if Js.truthy (userId sess) then
    try_catch
      (initializePhotosDatabase e;;
       db ← gets photosDatabaseId;
       sess ← gets session;
       results ← call (databases_query_sorted (default "" db)
                         (FRichTextEquals "UserId" (default "" (userId sess)))
                         "UploadDate");
       mret (PhotosJson (map (photo_json e) results)))
      (λ error, mret (PhotosRefused 500 "Failed to fetch photos"))
  else mret (PhotosRefused 401 "Authentication required").

End Listing.

(** The reference store sorts by the text of the date, latest first; a
    record without the date counts as the empty text. *)
Definition later_first (property : string) (a b : page) : Z :=
  match String.compare (default "" (date_of (page_properties b !! property)))
          (default "" (date_of (page_properties a !! property))) with
  | Lt => -1
  | Eq => 0
  | Gt => 1
  end%Z.

#[global] Instance mem_sorted : NotionSorted memStore := {
  databases_query_sorted db f property st :=
    match databases_query db f st with
    | (st', inr pages) => (st', inr (Js.sort (later_first property) pages))
    | (st', inl err) => (st', inl err)
    end
}.

(** *** Downloading and renaming *)

(** [Attachment] is [res.send(buffer)] after [res.set] was given
    [contentType] as [Content-Type] and the text
    [attachment; filename="<fileName>"] as [Content-Disposition].  As
    for [ImageBytes], [contentType] is the header of the response for an
    image type; Express adds a [charset] parameter to a text type. *)
Inductive downloadAnswer :=
  | DownloadRefused (code : nat) (error : string)
  | Attachment (contentType fileName : string) (data : buffer).

(** The characters a header value may hold: the tab and the codes 32 to
    126 and 128 to 255.  [setHeader] throws on a value with any other
    character in it. *)
Definition header_char (c : ascii) : bool :=
  (nat_of_ascii c =? 9)%nat || Js.in_range 32 126 c || (128 <=? nat_of_ascii c)%nat.

Record updateBody := {
  u_fileName : option string;
  u_category : option string;
  u_tags : option (list string)
}.

(** The [properties] that [PUT /api/photos/:id] builds: one for each
    field given. *)
Definition update_properties (updates : updateBody) : gmap string prop :=
  let properties : gmap string prop := ∅ in
  let properties :=
    if Js.truthy (u_fileName updates)
    then <["Name" := PTitle (default "" (u_fileName updates))]> properties
    else properties in
  let properties :=
    if Js.truthy (u_category updates)
    then <["Category" := PSelect (default "" (u_category updates))]> properties
    else properties in
  match u_tags updates with
  | Some tags => <["Tags" := PMultiSelect tags]> properties
  | None => properties
  end.

Section Files.
Context {N : Type} `{NotionClient N} `{NotionPages N}.

(** [GET /api/download/:photoId], behind [requireAuth].  The type
    captured from the data URL has letters, [-], [+] and [/] only, so
    setting [Content-Type] does not throw; setting [Content-Disposition]
    throws when the original name holds a character no header value may
    hold, and the handler then answers 500. *)
Definition download_photo (photoId : string) : io (server N) downloadAnswer :=
  sess ← gets session;
  if Js.truthy (userId sess) then
    try_catch
      (page ← call (pages_retrieve photoId);
       let imageKey := rich_text_of (page_properties page !! "ImageKey") in
       let originalName :=
         Js.or_else (rich_text_of (page_properties page !! "OriginalName")) "photo.jpg" in
       if negb (Js.truthy imageKey)
       then mret (DownloadRefused 404 "Photo not found")
       else
         imageData ← gets (λ s, imageStore s !! default "" imageKey);
         if negb (Js.truthy imageData)
         then mret (DownloadRefused 404 "Image data not found")
         else
           match match_data_url (default "" imageData) with
           | None => mret (DownloadRefused 400 "Invalid image data")
           | Some (contentType, base64Data) =>
               if Js.string_forall header_char originalName
               then mret (Attachment contentType originalName
                            (Buffer_from_base64 base64Data))
               else throw "Invalid character in header content"
           end)
      (λ error, mret (DownloadRefused 500 "Failed to download photo"))
  else mret (DownloadRefused 401 "Authentication required").

(** [PUT /api/photos/:id] *)
Definition update_photo (id : string) (updates : updateBody) : io (server N) response :=
  requireAuth
    (try_catch
       (call (pages_update_properties id (update_properties updates));;
        mret (json 200 SuccessJson))
       (λ error, mret (json 500 (ErrorJson "Failed to update photo")))).

End Files.

End Server.

(** ** The upload queue manager (client side) *)

Module Upload.

#[local] Open Scope list_scope.

Inductive status := Pending | Uploading | Completed | Failed.

#[global] Instance status_eq_dec : EqDecision status.
Proof. solve_decision. Defined.

Record uploadItem := {
  item_id : string;
  (** [metadata.name] *)
  item_name : string;
  item_status : status;
  item_progress : Z;
  item_error : option string;
  item_docId : option string
}.

Definition set_status (st : status) (it : uploadItem) : uploadItem :=
  {| item_id := item_id it; item_name := item_name it; item_status := st;
     item_progress := item_progress it; item_error := item_error it;
     item_docId := item_docId it |}.

Definition set_progress (p : Z) (it : uploadItem) : uploadItem :=
  {| item_id := item_id it; item_name := item_name it; item_status := item_status it;
     item_progress := p; item_error := item_error it;
     item_docId := item_docId it |}.

Definition set_error (err : option string) (it : uploadItem) : uploadItem :=
  {| item_id := item_id it; item_name := item_name it; item_status := item_status it;
     item_progress := item_progress it; item_error := err;
     item_docId := item_docId it |}.

Definition set_docId (d : option string) (it : uploadItem) : uploadItem :=
  {| item_id := item_id it; item_name := item_name it; item_status := item_status it;
     item_progress := item_progress it; item_error := item_error it;
     item_docId := d |}.

(** What [notifyCallback] passes to the registered callbacks. *)
Inductive notification :=
  | NStart
  | NProgress (item : uploadItem)
  | NComplete (item : uploadItem)
  | NAllComplete (total completed failed : Z)
  | NCancelled.

(** The fields of [UploadManager] that the queue logic uses, and two
    components that are not fields of the class: [inFlight], the calls of
    [uploadFile] suspended at an [await], each with the item it holds; and
    [settled], the items whose upload has ended since the counters were
    last reset.  The items counted by [totalFiles] are those of [queue],
    [inFlight] and [settled]. *)
Record manager := {
  queue : list uploadItem;
  activeUploads : Z;
  maxConcurrentUploads : Z;
  totalFiles : Z;
  completedFiles : Z;
  failedFiles : Z;
  abortControllers : gset string;
  inFlight : list uploadItem;
  settled : list uploadItem
}.

(** [new UploadManager()] *)
Definition init : manager :=
  {| queue := []; activeUploads := 0; maxConcurrentUploads := 3;
     totalFiles := 0; completedFiles := 0; failedFiles := 0;
     abortControllers := ∅; inFlight := []; settled := [] |}.

(** A file handed to [addFiles], with the verdict of
    [Utils.validateFile] and the identifier [Utils.generateId] gives it. *)
Record fileInput := {
  f_name : string;
  f_isValid : bool;
  f_id : string
}.

Definition new_item (f : fileInput) : uploadItem :=
  {| item_id := f_id f; item_name := f_name f; item_status := Pending;
     item_progress := 0; item_error := None; item_docId := None |}.

(** [addFiles].  It also starts [generatePreviews], which fills in the
    preview and the compressed copy of each item and touches neither the
    queue nor a counter; that part is left out. *)
Definition addFiles (files : list fileInput) (m : manager) : manager * list uploadItem :=
  let validFiles := map new_item (List.filter f_isValid files) in
  ({| queue := queue m ++ validFiles;
      activeUploads := activeUploads m;
      maxConcurrentUploads := maxConcurrentUploads m;
      totalFiles := totalFiles m + Z.of_nat (length validFiles);
      completedFiles := completedFiles m;
      failedFiles := failedFiles m;
      abortControllers := abortControllers m;
      inFlight := inFlight m;
      settled := settled m |}, validFiles).

(** [uploadFile] up to its first [await]. *)
Definition uploadFile_begin (item : uploadItem) (m : manager) : manager * list notification :=
  let item1 := set_status Uploading item in
  let item2 := set_progress 10 item1 in
  ({| queue := queue m;
      activeUploads := activeUploads m;
      maxConcurrentUploads := maxConcurrentUploads m;
      totalFiles := totalFiles m;
      completedFiles := completedFiles m;
      failedFiles := failedFiles m;
      abortControllers := {[item_id item]} ∪ abortControllers m;
      inFlight := inFlight m ++ [item2];
      settled := settled m |},
   [NProgress item1; NProgress item2]).

(** The loop of [processQueue]; [q] is [this.queue]. *)
Fixpoint process (q : list uploadItem) (m : manager) : manager * list notification :=
  match q with
  | [] => (m, [])
  | item :: rest =>
      if (activeUploads m <? maxConcurrentUploads m)%Z then
        let m1 := {| queue := rest;
                     activeUploads := activeUploads m + 1;
                     maxConcurrentUploads := maxConcurrentUploads m;
                     totalFiles := totalFiles m;
                     completedFiles := completedFiles m;
                     failedFiles := failedFiles m;
                     abortControllers := abortControllers m;
                     inFlight := inFlight m;
                     settled := settled m |} in
        let '(m2, ns) := uploadFile_begin item m1 in
        let '(m3, ns') := process rest m2 in
        (m3, ns ++ ns')
      else (m, [])
  end.

Definition processQueue (m : manager) : manager * list notification :=
  process (queue m) m.

Definition startUpload (m : manager) : manager * list notification :=
  match queue m with
  | [] => (m, [])
  | _ :: _ =>
      let '(m', ns) := processQueue m in
      (m', NStart :: ns)
  end.

Definition reset (m : manager) : manager :=
  {| queue := []; activeUploads := 0;
     maxConcurrentUploads := maxConcurrentUploads m;
     totalFiles := 0; completedFiles := 0; failedFiles := 0;
     abortControllers := ∅;
     inFlight := inFlight m;
     settled := [] |}.

(** [handleUploadComplete] up to and including its call of
    [processQueue]. *)
Definition complete_and_continue (item : uploadItem) (success : bool) (m : manager)
  : manager * list notification :=
  let m1 := {| queue := queue m;
               activeUploads := activeUploads m - 1;
               maxConcurrentUploads := maxConcurrentUploads m;
               totalFiles := totalFiles m;
               completedFiles := if success then completedFiles m + 1 else completedFiles m;
               failedFiles := if success then failedFiles m else failedFiles m + 1;
               abortControllers := abortControllers m ∖ {[item_id item]};
               inFlight := inFlight m;
               settled := settled m ++ [item] |} in
  let '(m2, ns) := processQueue m1 in
  (m2, NComplete item :: ns).

(** The end of [handleUploadComplete]: the test for the end of the
    batch. *)
Definition check_all_complete (m : manager) : manager * list notification :=
  if (completedFiles m + failedFiles m =? totalFiles m)%Z
  then (reset m, [NAllComplete (totalFiles m) (completedFiles m) (failedFiles m)])
  else (m, []).

Definition handleUploadComplete (item : uploadItem) (success : bool) (m : manager)
  : manager * list notification :=
  let '(m1, ns1) := complete_and_continue item success m in
  let '(m2, ns2) := check_all_complete m1 in
  (m2, ns1 ++ ns2).

(** How a suspended [uploadFile] ends: it stores the photo, or it throws
    after [passed] of the progress marks 50, 70 and 90, with
    [error.message]. *)
Inductive outcome :=
  | Stored (photoId : string)
  | Threw (passed : nat) (message : option string).

Definition progress_marks : list Z := [50; 70; 90]%Z.

(** The item as [uploadFile] leaves it, before [handleUploadComplete]. *)
Definition final_item (item : uploadItem) (o : outcome) : uploadItem :=
  match o with
  | Stored photoId =>
      set_progress 100 (set_docId (Some photoId) (set_status Completed item))
  | Threw passed message =>
      set_error (Some (Js.or_else message "Upload failed"))
        (set_status Failed
           (set_progress (default (item_progress item) (last (take passed progress_marks)))
              item))
  end.

Definition succeeded (o : outcome) : bool :=
  match o with Stored _ => true | Threw _ _ => false end.

Definition marks_passed (item : uploadItem) (o : outcome) : list notification :=
  map (λ p, NProgress (set_progress p item))
    (match o with
     | Stored _ => progress_marks
     | Threw passed _ => take passed progress_marks
     end).

(** [uploadFile] from its first [await] up to the call of [processQueue]
    inside [handleUploadComplete]. *)
Definition resume_until_check (item : uploadItem) (o : outcome) (m : manager)
  : manager * list notification :=
  let '(m1, ns) := complete_and_continue (final_item item o) (succeeded o) m in
  (m1, marks_passed item o ++ ns).

(** [uploadFile] from its first [await] to its end. *)
Definition uploadFile_resume (item : uploadItem) (o : outcome) (m : manager)
  : manager * list notification :=
  let '(m1, ns1) := resume_until_check item o m in
  let '(m2, ns2) := check_all_complete m1 in
  (m2, ns1 ++ ns2).

Definition cancelUpload (itemId : string) (m : manager) : manager :=
  {| queue := List.filter (λ item, negb (String.eqb (item_id item) itemId)) (queue m);
     activeUploads := activeUploads m;
     maxConcurrentUploads := maxConcurrentUploads m;
     totalFiles := totalFiles m;
     completedFiles := completedFiles m;
     failedFiles := failedFiles m;
     abortControllers := abortControllers m ∖ {[itemId]};
     inFlight := inFlight m;
     settled := settled m |}.

Definition cancelAllUploads (m : manager) : manager * list notification :=
  (reset m, [NCancelled]).

Definition retry_item (item : uploadItem) : uploadItem :=
  if bool_decide (item_status item = Failed)
  then set_error None (set_progress 0 (set_status Pending item))
  else item.

Definition retryFailedUploads (m : manager) : manager * list notification :=
  processQueue
    {| queue := map retry_item (queue m);
       activeUploads := activeUploads m;
       maxConcurrentUploads := maxConcurrentUploads m;
       totalFiles := totalFiles m;
       completedFiles := completedFiles m;
       failedFiles := failedFiles m;
       abortControllers := abortControllers m;
       inFlight := inFlight m;
       settled := settled m |}.

(** [getStats], without the percentage. *)
Record stats := {
  st_total : Z;
  st_completed : Z;
  st_failed : Z;
  st_remaining : Z
}.

Definition getStats (m : manager) : stats :=
  {| st_total := totalFiles m;
     st_completed := completedFiles m;
     st_failed := failedFiles m;
     st_remaining := totalFiles m - completedFiles m - failedFiles m |}.

(** What can happen to a manager: the calls the application makes, and
    the end of the [k]-th suspended upload. *)
Inductive event :=
  | AddFiles (files : list fileInput)
  | StartUpload
  | Settle (k : nat) (o : outcome)
  | CancelUpload (itemId : string)
  | CancelAllUploads
  | RetryFailedUploads.

Definition take_inFlight (k : nat) (m : manager) : manager :=
  {| queue := queue m;
     activeUploads := activeUploads m;
     maxConcurrentUploads := maxConcurrentUploads m;
     totalFiles := totalFiles m;
     completedFiles := completedFiles m;
     failedFiles := failedFiles m;
     abortControllers := abortControllers m;
     inFlight := delete k (inFlight m);
     settled := settled m |}.

(** One event; [None] when no [k]-th upload is suspended. *)
Definition step (m : manager) (ev : event) : option (manager * list notification) :=
  match ev with
  | AddFiles files => Some ((addFiles files m).1, [])
  | StartUpload => Some (startUpload m)
  | Settle k o =>
      item ← inFlight m !! k;
      Some (uploadFile_resume item o (take_inFlight k m))
  | CancelUpload itemId => Some (cancelUpload itemId m, [])
  | CancelAllUploads => Some (cancelAllUploads m)
  | RetryFailedUploads => Some (retryFailedUploads m)
  end.

Fixpoint run (m : manager) (evs : list event) : option manager :=
  match evs with
  | [] => Some m
  | ev :: evs' =>
      r ← step m ev;
      run r.1 evs'
  end.

(** The events of an upload that runs its course: files are added, the
    upload is started or retried, uploads end; [cancelAllUploads] is
    called only while no upload is suspended, and [cancelUpload] is not
    called. *)
Definition orderly (m : manager) (ev : event) : bool :=
  match ev with
  | AddFiles _ | StartUpload | Settle _ _ | RetryFailedUploads => true
  | CancelAllUploads => bool_decide (inFlight m = [])
  | CancelUpload _ => false
  end.

Fixpoint orderly_run (m : manager) (evs : list event) : bool :=
  match evs with
  | [] => true
  | ev :: evs' =>
      orderly m ev
      && match step m ev with
         | Some r => orderly_run r.1 evs'
         | None => true
         end
  end.

(** The items counted by [totalFiles]. *)
Definition batch (m : manager) : list uploadItem :=
  queue m ++ inFlight m ++ settled m.

Definition terminal (item : uploadItem) : bool :=
  bool_decide (item_status item = Completed) || bool_decide (item_status item = Failed).

Definition count_status (st : status) (l : list uploadItem) : Z :=
  Z.of_nat (length (List.filter (λ item, bool_decide (item_status item = st)) l)).

(** [run], with what the steps notify, in order. *)
Fixpoint run_notify (m : manager) (evs : list event)
  : option (manager * list notification) :=
  match evs with
  | [] => Some (m, [])
  | ev :: evs' =>
      r ← step m ev;
      r' ← run_notify r.1 evs';
      Some (r'.1, r.2 ++ r'.2)
  end.

End Upload.

(** ** The gallery view-model (client side) *)

Module Gallery.

#[local] Open Scope list_scope.

Record photo := {
  id : string;
  originalName : string;
  (** absent on photos added from a finished upload *)
  category : option string;
  tags : option (list string);
  size : Z;
  (** The number [uploadDate] converts to in [-] and [>=]: the time value
      of a [Date], and [None] (NaN) for the ISO text of a photo that came
      in a JSON response. *)
  uploadDate : option Z
}.

(** The values the date computations of [filterAndSortPhotos] yield when
    it is called: [new Date()] itself and after [setHours(0, 0, 0, 0)],
    [setDate(now.getDate() - 7)], [setMonth(now.getMonth() - 1)] and
    [setFullYear(now.getFullYear() - 1)]. *)
Record clock := {
  now : Z;
  startOfToday : Z;
  weekAgo : Z;
  monthAgo : Z;
  yearAgo : Z
}.

Record gallery := {
  photos : list photo;
  filteredPhotos : list photo;
  selectedPhotos : gset string;
  currentView : string;
  currentSort : string;
  currentFilter : string;
  currentCategory : string;
  searchQuery : string
}.

(** [new PhotoGallery()] *)
Definition init : gallery :=
  {| photos := []; filteredPhotos := []; selectedPhotos := ∅;
     currentView := "grid"; currentSort := "date-desc"; currentFilter := "all";
     currentCategory := "all"; searchQuery := "" |}.

(** [x - y] as a comparator result: a NaN counts as 0. *)
Definition minus (x y : option Z) : Z :=
  match x, y with
  | Some a, Some b => (a - b)%Z
  | _, _ => 0%Z
  end.

(** [x >= d] for a date [d]. *)
Definition at_least (x : option Z) (d : Z) : bool :=
  match x with
  | Some a => (d <=? a)%Z
  | None => false
  end.

Definition matches_search (query : string) (p : photo) : bool :=
  Js.includes (Js.toLowerCase (originalName p)) query
  || match tags p with
     | Some ts => existsb (λ tag, Js.includes (Js.toLowerCase tag) query) ts
     | None => false
     end
  || (Js.truthy (category p)
      && Js.includes (Js.toLowerCase (default "" (category p))) query).

(** The [switch] on [currentFilter]; no case changes [filterDate] for a
    value other than the four listed. *)
Definition filterDate (clk : clock) (currentFilter : string) : Z :=
  if String.eqb currentFilter "today" then startOfToday clk
  else if String.eqb currentFilter "week" then weekAgo clk
  else if String.eqb currentFilter "month" then monthAgo clk
  else if String.eqb currentFilter "year" then yearAgo clk
  else now clk.

Section View.
Context (localeCompare : string → string → Z).

(** The comparator given to [sort]. *)
Definition compare (currentSort : string) (a b : photo) : Z :=
  if String.eqb currentSort "date-desc" then minus (uploadDate b) (uploadDate a)
  else if String.eqb currentSort "date-asc" then minus (uploadDate a) (uploadDate b)
  else if String.eqb currentSort "name-asc" then localeCompare (originalName a) (originalName b)
  else if String.eqb currentSort "name-desc" then localeCompare (originalName b) (originalName a)
  else if String.eqb currentSort "size-desc" then (size b - size a)%Z
  else if String.eqb currentSort "size-asc" then (size a - size b)%Z
  else 0%Z.

(** [filterAndSortPhotos].  It ends by calling [renderPhotos], which
    rebuilds the cards from [filteredPhotos] and reads [selectedPhotos]
    to mark them; the page is not part of the model. *)
Definition filterAndSortPhotos (clk : clock) (g : gallery) : gallery :=
  let filtered := photos g in
  let filtered :=
    if negb (String.eqb (searchQuery g) "")
    then List.filter (matches_search (Js.toLowerCase (searchQuery g))) filtered
    else filtered in
  let filtered :=
    if negb (String.eqb (currentCategory g) "")
       && negb (String.eqb (currentCategory g) "all")
    then List.filter (λ p, bool_decide (category p = Some (currentCategory g))) filtered
    else filtered in
  let filtered :=
    if negb (String.eqb (currentFilter g) "all")
    then List.filter (λ p, at_least (uploadDate p) (filterDate clk (currentFilter g)))
           filtered
    else filtered in
  let filtered := Js.sort (compare (currentSort g)) filtered in
  {| photos := photos g; filteredPhotos := filtered;
     selectedPhotos := selectedPhotos g; currentView := currentView g;
     currentSort := currentSort g; currentFilter := currentFilter g;
     currentCategory := currentCategory g; searchQuery := searchQuery g |}.

(** The listeners of the search box and of the three selectors. *)
Inductive change :=
  | Search (query : string)
  | Sort (value : string)
  | Filter (value : string)
  | Category (value : string).

Definition on_change (clk : clock) (c : change) (g : gallery) : gallery :=
  filterAndSortPhotos clk
    match c with
    | Search query =>
        {| photos := photos g; filteredPhotos := filteredPhotos g;
           selectedPhotos := selectedPhotos g; currentView := currentView g;
           currentSort := currentSort g; currentFilter := currentFilter g;
           currentCategory := currentCategory g; searchQuery := query |}
    | Sort value =>
        {| photos := photos g; filteredPhotos := filteredPhotos g;
           selectedPhotos := selectedPhotos g; currentView := currentView g;
           currentSort := value; currentFilter := currentFilter g;
           currentCategory := currentCategory g; searchQuery := searchQuery g |}
    | Filter value =>
        {| photos := photos g; filteredPhotos := filteredPhotos g;
           selectedPhotos := selectedPhotos g; currentView := currentView g;
           currentSort := currentSort g; currentFilter := value;
           currentCategory := currentCategory g; searchQuery := searchQuery g |}
    | Category value =>
        {| photos := photos g; filteredPhotos := filteredPhotos g;
           selectedPhotos := selectedPhotos g; currentView := currentView g;
           currentSort := currentSort g; currentFilter := currentFilter g;
           currentCategory := value; searchQuery := searchQuery g |}
    end.

End View.

Definition set_selectedPhotos (sel : gset string) (g : gallery) : gallery :=
  {| photos := photos g; filteredPhotos := filteredPhotos g;
     selectedPhotos := sel; currentView := currentView g;
     currentSort := currentSort g; currentFilter := currentFilter g;
     currentCategory := currentCategory g; searchQuery := searchQuery g |}.

Definition clearSelection (g : gallery) : gallery := set_selectedPhotos ∅ g.

Definition selectAllPhotos (g : gallery) : gallery :=
  if bool_decide (base.size (selectedPhotos g) = length (filteredPhotos g))
     && (0 <? length (filteredPhotos g))%nat
  then clearSelection g
  else set_selectedPhotos
         (foldl (λ sel p, {[id p]} ∪ sel) (selectedPhotos g) (filteredPhotos g)) g.

(** The photos shown: the cards [renderPhotos] creates. *)
Definition shown (g : gallery) : list string := map id (filteredPhotos g).

Definition set_photos (ps : list photo) (g : gallery) : gallery :=
  {| photos := ps; filteredPhotos := filteredPhotos g;
     selectedPhotos := selectedPhotos g; currentView := currentView g;
     currentSort := currentSort g; currentFilter := currentFilter g;
     currentCategory := currentCategory g; searchQuery := searchQuery g |}.

(** [getPhotoById]: [find] gives the first photo with the identifier,
    [undefined] when there is none. *)
Definition getPhotoById (photoId : string) (g : gallery) : option photo :=
  List.find (λ p, bool_decide (id p = photoId)) (photos g).

(** What [deletePhoto] and [deleteSelectedPhotos] do once the server has
    answered: the photos with the identifier leave the list and the
    identifier leaves the selection. *)
Definition remove_local (photoId : string) (g : gallery) : gallery :=
  set_selectedPhotos (selectedPhotos g ∖ {[photoId]})
    (set_photos (List.filter (λ p, negb (bool_decide (id p = photoId))) (photos g)) g).

Section Edit.
Context (localeCompare : string → string → Z).

(** [addPhoto]: [unshift], then the list shown is rebuilt. *)
Definition addPhoto (clk : clock) (p : photo) (g : gallery) : gallery :=
  filterAndSortPhotos localeCompare clk (set_photos (p :: photos g) g).

(** [deletePhoto].  [confirmed] is the answer to [confirm], asked only
    when the photo is found; [deleted] tells whether the request to the
    server went through (it throws otherwise, and the [catch] reports
    it). *)
Definition deletePhoto (clk : clock) (confirmed deleted : bool) (photoId : string)
    (g : gallery) : gallery :=
  match getPhotoById photoId g with
  | Some _ =>
      if confirmed
      then if deleted
           then filterAndSortPhotos localeCompare clk (remove_local photoId g)
           else g
      else g
  | None => g
  end.

(** [deleteSelectedPhotos].  [deleted photoId] tells whether the request
    for that photo went through; a failure is caught inside the loop.
    The loop visits [Array.from(this.selectedPhotos)]. *)
Definition deleteSelectedPhotos (clk : clock) (confirmed : bool) (deleted : string → bool)
    (g : gallery) : gallery :=
  if bool_decide (base.size (selectedPhotos g) = 0%nat) then g
  else if confirmed
  then
    let g1 := foldl (λ g photoId, if deleted photoId then remove_local photoId g else g)
                g (elements (selectedPhotos g)) in
    clearSelection (filterAndSortPhotos localeCompare clk g1)
  else g.

End Edit.

End Gallery.

(** ** The memories timeline (client side) *)

Module Memories.

#[local] Open Scope list_scope.

Record photo := {
  id : string;
  category : string;
  (** the time value of [new Date(photo.uploadDate)] *)
  uploadDate : Z
}.

(** *** Property order of an object *)

Definition digit (c : ascii) : option N :=
  if Js.in_range 48 57 c then Some (N.of_nat (nat_of_ascii c - 48)) else None.

Fixpoint decimal (acc : N) (s : string) : option N :=
  match s with
  | EmptyString => Some acc
  | String c s' => d ← digit c; decimal (10 * acc + d)%N s'
  end.

(** The array index a property name denotes, if it is the canonical
    decimal form of an integer below 2^32 - 1. *)
Definition array_index (k : string) : option N :=
  match k with
  | EmptyString => None
  | String c rest =>
      if Ascii.eqb c "0" && negb (String.eqb rest "") then None
      else
        n ← decimal 0 k;
        if (n <? 4294967295)%N then Some n else None
  end.

(** The property names every object inherits from [Object.prototype]. *)
Definition inherited_names : list string :=
  ["constructor"; "__defineGetter__"; "__defineSetter__"; "hasOwnProperty";
   "__lookupGetter__"; "__lookupSetter__"; "isPrototypeOf";
   "propertyIsEnumerable"; "toString"; "valueOf"; "__proto__"; "toLocaleString"].

(** The own properties of [categoryCounts], in the order they were
    created. *)
Definition counts := list (string * Z).

Fixpoint own (k : string) (o : counts) : option Z :=
  match o with
  | [] => None
  | (k', v) :: o' => if String.eqb k' k then Some v else own k o'
  end.

(** [o[k] = v]: an existing property keeps its place, a new one comes
    last. *)
Fixpoint assign (k : string) (v : Z) (o : counts) : counts :=
  match o with
  | [] => [(k, v)]
  | (k', v') :: o' =>
      if String.eqb k' k then (k', v) :: o' else (k', v') :: assign k v o'
  end.

(** [categoryCounts[c] = (categoryCounts[c] || 0) + 1] *)
Definition bump (o : counts) (c : string) : counts :=
  assign c (default 0 (own c o) + 1)%Z o.

(** [Object.entries]: array indices first, in ascending order, then the
    other names in creation order. *)
Definition entries (o : counts) : list (string * Z) :=
  map (λ e, (e.1.1, e.2))
    (Js.sort (λ a b, Z.of_N a.1.2 - Z.of_N b.1.2)%Z
       (omap (λ e, n ← array_index e.1; Some (e.1, n, e.2)) o))
  ++ List.filter (λ e, bool_decide (array_index e.1 = None)) o.

(** [getMostCommonCategory].  [None] when a category is a name inherited
    from [Object.prototype]: the lookup then yields the inherited value
    and the counts are no longer numbers, which is not modelled. *)
Definition getMostCommonCategory (photos : list photo) : option string :=
  if existsb (λ p, bool_decide (category p ∈ inherited_names)) photos then None
  else
    let categoryCounts := foldl bump [] (map category photos) in
    Some match Js.sort (λ a b, b.2 - a.2)%Z (entries categoryCounts) with
         | (c, _) :: _ => if String.eqb c "" then "other" else c
         | [] => "other"
         end.

(** [selectRepresentativePhotos] *)
Definition selectRepresentativePhotos (photos : list photo) : list photo :=
  if (length photos <=? 4)%nat then photos
  else
    let sorted := Js.sort (λ a b, uploadDate a - uploadDate b)%Z photos in
    let step := (length sorted / 4)%nat in
    omap (λ i, sorted !! Nat.min (i * step) (length sorted - 1)) [0; 1; 2; 3]%nat.

(** *** Memories by day *)

Section Timeline.
(** [new Date(t).toISOString().split('T')[0]], the day of a time value,
    and the time value of [new Date(dateKey)]. *)
Context (dateKey : Z → string) (dateOf : string → Z).









End Timeline.

End Memories.

(** * Properties *)

(** ** Sorting *)

Module JsProofs.

#[local] Open Scope list_scope.

Section Sort.
Context {A : Type} (cmp : A → A → Z).

Lemma sort_insert_perm (x : A) (l : list A) : Js.sort_insert cmp x l ≡ₚ x :: l.
Proof.
  induction l as [|y l IH]; simpl; [done|].
  destruct (cmp x y <=? 0)%Z; [done|].
  rewrite IH. apply Permutation_swap.
Qed.

Lemma sort_perm (l : list A) : Js.sort cmp l ≡ₚ l.
Proof.
  induction l as [|x l IH]; simpl; [done|].
  by rewrite sort_insert_perm, IH.
Qed.

Lemma sort_length (l : list A) : length (Js.sort cmp l) = length l.
Proof. by rewrite sort_perm. Qed.

(** When the comparator decides a total preorder, the result is in
    order. *)
Context (R : A → A → Prop).
Context (cmp_le : ∀ x y, (cmp x y <= 0)%Z → R x y).
Context (cmp_gt : ∀ x y, (0 < cmp x y)%Z → R y x).
Context (R_trans : ∀ x y z, R x y → R y z → R x z).

Lemma sort_insert_sorted (x : A) (l : list A) :
  StronglySorted R l → StronglySorted R (Js.sort_insert cmp x l).
Proof.
  induction 1 as [|y l Hl IH Hy]; simpl.
  { repeat constructor. }
  destruct (Z.leb_spec (cmp x y) 0) as [Hle|Hgt].
  - constructor; [by constructor|].
    constructor; [by apply cmp_le|].
    eapply Forall_impl; [done|]. intros z Hz. eapply R_trans; [|done]. by apply cmp_le.
  - constructor; [done|].
    rewrite sort_insert_perm. constructor; [by apply cmp_gt|done].
Qed.

Lemma sort_sorted (l : list A) : StronglySorted R (Js.sort cmp l).
Proof.
  induction l as [|x l IH]; simpl; [constructor|]. by apply sort_insert_sorted.
Qed.

End Sort.

(** The same for a comparator that decides a total preorder on the
    elements satisfying [P], on lists of such elements; and what a
    comparator that never tells two elements apart does. *)
Section SortOn.
Context {A : Type} (cmp : A → A → Z) (P : A → Prop) (R : A → A → Prop).
Context (cmp_le : ∀ x y, P x → P y → (cmp x y <= 0)%Z → R x y).
Context (cmp_gt : ∀ x y, P x → P y → (0 < cmp x y)%Z → R y x).
Context (R_trans : ∀ x y z, R x y → R y z → R x z).

Lemma sort_insert_sorted_on (x : A) (l : list A) :
  P x → Forall P l → StronglySorted R l → StronglySorted R (Js.sort_insert cmp x l).
Proof.
  intros Hx HP. induction 1 as [|y l Hl IH Hy]; simpl.
  { repeat constructor. }
  apply Forall_cons in HP as [Hpy HP].
  destruct (Z.leb_spec (cmp x y) 0) as [Hle|Hgt].
  - constructor; [by constructor|].
    constructor; [by apply cmp_le|].
    eapply Forall_impl; [done|]. intros z Hz. eapply R_trans; [|done]. by apply cmp_le.
  - constructor; [by apply IH|].
    rewrite sort_insert_perm. constructor; [by apply cmp_gt|done].
Qed.

Lemma sort_sorted_on (l : list A) : Forall P l → StronglySorted R (Js.sort cmp l).
Proof.
  induction 1 as [|x l Hx Hl IH]; simpl; [constructor|].
  apply sort_insert_sorted_on; [done| |done]. by rewrite sort_perm.
Qed.

End SortOn.

Lemma sort_indifferent {A : Type} (cmp : A → A → Z) (l : list A) :
  Forall (λ x, Forall (λ y, cmp x y = 0%Z) l) l → Js.sort cmp l = l.
Proof.
  induction l as [|x l IH]; intros Hall; simpl; [done|].
  apply Forall_cons in Hall as [Hx Hall].
  rewrite IH.
  - destruct l as [|y l]; [done|]. simpl.
    apply Forall_cons in Hx as [_ Hx]. apply Forall_cons in Hx as [Hxy _].
    by rewrite Hxy.
  - eapply Forall_impl; [done|]. intros y Hy. by apply Forall_cons in Hy as [_ Hy].
Qed.

(** *** Prefixes and spans of strings *)

Lemma strip_prefix_app (p s : string) : Js.strip_prefix p (p ++ s)%string = Some s.
Proof.
  induction p as [|a p IH]; simpl; [done|]. by rewrite Ascii.eqb_refl.
Qed.

Lemma strip_prefix_inv (p s r : string) :
  Js.strip_prefix p s = Some r → s = (p ++ r)%string.
Proof.
  revert s. induction p as [|a p IH]; intros s; simpl.
  - by intros [= ->].
  - destruct s as [|b s]; [done|].
    destruct (Ascii.eqb_spec a b) as [->|_]; [|done].
    intros Hr. by rewrite (IH s Hr).
Qed.

(** A string that does not begin with a character satisfying [f]. *)
Definition stops (f : ascii → bool) (s : string) : Prop :=
  match s with
  | EmptyString => True
  | String c _ => f c = false
  end.

Lemma span_app (f : ascii → bool) (a b : string) :
  Js.string_forall f a = true → stops f b → Js.span f (a ++ b)%string = (a, b).
Proof.
  intros Ha Hb. induction a as [|c a IH]; simpl in *.
  - destruct b as [|c b]; [done|]. simpl in *. by rewrite Hb.
  - apply andb_true_iff in Ha as [Hc Ha]. by rewrite Hc, IH.
Qed.

Lemma span_inv (f : ascii → bool) (s a b : string) :
  Js.span f s = (a, b) →
  s = (a ++ b)%string ∧ Js.string_forall f a = true ∧ stops f b.
Proof.
  revert a b. induction s as [|c s IH]; intros a b; simpl.
  - by intros [= <- <-].
  - destruct (f c) eqn:Hc.
    + destruct (Js.span f s) as [a' b'] eqn:Hs. intros [= <- <-].
      destruct (IH a' b' eq_refl) as (-> & Ha & Hb). simpl. by rewrite Hc, Ha.
    + by intros [= <- <-].
Qed.

Lemma eqb_empty (s : string) : String.eqb s "" = false ↔ s ≠ ""%string.
Proof. by destruct (String.eqb_spec s ""). Qed.

Lemma append_cons (x : ascii) (a b : string) :
  (String x a ++ b)%string = String x (a ++ b)%string.
Proof. reflexivity. Qed.

Lemma append_empty (b : string) : ("" ++ b)%string = b.
Proof. reflexivity. Qed.

#[local] Ltac by_chars a :=
  induction a as [|? a ?]; intros; rewrite ?append_cons, ?append_empty; simpl in *.

Lemma substring_all (s : string) : String.substring 0 (String.length s) s = s.
Proof. induction s as [|c s IH]; simpl; [done|]. by rewrite IH. Qed.

Lemma substring_app (a b : string) :
  String.substring 0 (String.length a) (a ++ b)%string = a.
Proof. by_chars a; [by destruct b|]. by f_equal. Qed.

Lemma length_app_string (a b : string) :
  String.length (a ++ b)%string = (String.length a + String.length b)%nat.
Proof. by_chars a; [done|]. by f_equal. Qed.

Lemma substring_rest (a b : string) :
  String.substring (String.length a) (String.length (a ++ b) - String.length a)
    (a ++ b)%string = b.
Proof.
  by_chars a; [|done]. rewrite Nat.sub_0_r. apply substring_all.
Qed.

(** A string is its first [n] characters followed by the rest. *)
Lemma substring_split (n : nat) (s : string) :
  s = (String.substring 0 n s
       ++ String.substring n (String.length s - n) s)%string.
Proof.
  revert s. induction n as [|n IH]; intros s; simpl.
  - destruct s as [|c s]; simpl; [done|]. by rewrite append_empty, substring_all.
  - destruct s as [|c s]; simpl; [done|]. rewrite append_cons. f_equal. apply IH.
Qed.

Lemma string_forall_app (f : ascii → bool) (a b : string) :
  Js.string_forall f (a ++ b)%string = Js.string_forall f a && Js.string_forall f b.
Proof. by_chars a; [done|]. by rewrite <- andb_assoc; f_equal. Qed.

Lemma app_assoc_string (a b c : string) :
  (a ++ b ++ c)%string = ((a ++ b) ++ c)%string.
Proof. by_chars a; [done|]. by f_equal. Qed.

Lemma get_app_l (n : nat) (a b : string) :
  (n < String.length a)%nat → String.get n (a ++ b)%string = String.get n a.
Proof.
  revert n. induction a as [|c a IH]; intros n Hn; simpl in Hn; [lia|].
  rewrite append_cons. destruct n as [|n]; [done|]. simpl. apply IH. lia.
Qed.

Lemma get_app_here (a : string) (c : ascii) (r : string) :
  String.get (String.length a) (a ++ String c r)%string = Some c.
Proof. by_chars a; done. Qed.

Lemma get_forall (f : ascii → bool) (a : string) (n : nat) :
  Js.string_forall f a = true → (n < String.length a)%nat →
  ∃ c, String.get n a = Some c ∧ f c = true.
Proof.
  revert n. induction a as [|x a IH]; intros n Ha Hn; simpl in *; [lia|].
  apply andb_true_iff in Ha as [Hx Ha].
  destruct n as [|n]; [by exists x|]. apply IH; [done|lia].
Qed.


End JsProofs.

(** ** Server *)

Module ServerProofs.
Import Server.

#[local] Open Scope list_scope.

#[local] Ltac run_handler :=
  unfold requireAuth, try_catch, call, gets, modify, throw,
    set_imageStore, set_session, set_usersDatabaseId, set_photosDatabaseId,
    mbind, io_bind, mret, io_ret; simpl.

(** A sample deployment: an empty store and a logged-in client. *)
Definition sample_env : env :=
  {| NOTION_PAGE_ID := "0123456789abcdef0123456789abcdef";
     date_now := "1723600000000";
     math_random := "k3j9x2m1q";
     iso_now := "2024-08-14T01:46:40.000Z";
     to_iso := λ x, Some x;
     bcrypt_hash := λ p, ("$2b$10$" ++ p)%string |}.

Definition sample_server : server memStore :=
  {| notion := {| ms_databases := []; ms_pages := []; ms_counter := 0 |};
     usersDatabaseId := None;
     photosDatabaseId := None;
     imageStore := ∅;
     session := {| userId := Some "user-1"; username := Some "ann" |} |}.

Definition sample_upload : photoData :=
  {| pd_fileName := Some "1723600000000_beach.png";
     pd_originalName := Some "beach.png";
     pd_category := Some "travel";
     pd_size := Some 12%Z;
     pd_type := Some "image/png";
     pd_width := Some 1%Z;
     pd_height := Some 1%Z;
     pd_uploadDate := Some "2024-08-14T01:46:39.000Z";
     pd_imageData := Some "data:image/png;base64,iVBORw0KGgo=";
     pd_tags := Some [] |}.

(** The sample server after the client has uploaded one photo. *)
Definition after_upload : server memStore :=
  (add_photo sample_env sample_upload sample_server).1.

Definition logged_out {N} (s : server N) : server N :=
  {| notion := notion s; usersDatabaseId := usersDatabaseId s;
     photosDatabaseId := photosDatabaseId s; imageStore := imageStore s;
     session := {| userId := None; username := None |} |}.

Definition with_session {N} (sess : sessionData) (s : server N) : server N :=
  {| notion := notion s; usersDatabaseId := usersDatabaseId s;
     photosDatabaseId := photosDatabaseId s; imageStore := imageStore s;
     session := sess |}.

(** What [GET /api/images/:imageKey] answers, read off the blob cache. *)
Definition image_response (store : gmap string string) (imageKey : string) : response :=
  match store !! imageKey with
  | None => json 404 (ErrorJson "Image not found")
  | Some imageData =>
      if String.eqb imageData "" then json 404 (ErrorJson "Image not found")
      else match match_data_url imageData with
           | Some (mimeType, base64Data) =>
               json 200 (ImageBytes mimeType (Buffer_from_base64 base64Data)
                           "public, max-age=31536000")
           | None => json 400 (ErrorJson "Invalid image data format")
           end
  end.

Lemma get_image_spec {N} (imageKey : string) (s : server N) :
  get_image imageKey s = (s, inr (image_response (imageStore s) imageKey)).
Proof.
  unfold get_image, image_response. run_handler.
  destruct (imageStore s !! imageKey) as [d|]; simpl; [|done].
  destruct (String.eqb d ""); simpl; [done|].
  destruct (match_data_url d) as [[??]|]; done.
Qed.

(** [DELETE /api/photos/:id] touches the blob cache only under the key
    [id]. *)
Lemma delete_photo_other_keys {N} `{NotionClient N} (id key : string) (s : server N) :
  key ≠ id →
  imageStore (delete_photo id s).1 !! key = imageStore s !! key.
Proof.
  intros Hne. unfold delete_photo. run_handler.
  destruct (Js.truthy (userId (session s))); simpl; [|done].
  destruct (pages_retrieve id (notion s)) as [n1 [err|pg]]; simpl.
  - case_bool_decide; simpl; [by rewrite lookup_delete_ne|done].
  - destruct (page_archived pg); simpl.
    + case_bool_decide; simpl; [by rewrite lookup_delete_ne|done].
    + destruct (pages_update_archived id n1) as [n2 [err|[]]]; simpl;
        (case_bool_decide; simpl; [by rewrite lookup_delete_ne|done]).
Qed.

(** C1.  On the sample server the client uploads a photo and deletes it
    by the identifier the upload returned.  The deletion succeeds and
    archives the record, but the payload stays in the blob cache under
    the photo's image key, and [GET /api/images/:imageKey] still serves
    it: the handler removes the cache entry named by the record
    identifier, not the one named by the image key. *)
Theorem delete_photo_keeps_blob :
  let imageKey := "photo_1723600000000_k3j9x2m1q" in
  let '(s1, uploaded) := add_photo sample_env sample_upload sample_server in
  let '(s2, deleted) := delete_photo "page-1" s1 in
  uploaded = inr (json 200 (IdJson "page-1"))
  ∧ imageStore s1 !! imageKey = Some "data:image/png;base64,iVBORw0KGgo="
  ∧ deleted = inr (json 200 SuccessJson)
  ∧ map (λ entry, (page_id entry.2, page_archived entry.2)) (ms_pages (notion s2))
    = [("page-1", true)]
  ∧ imageStore s2 !! imageKey = Some "data:image/png;base64,iVBORw0KGgo="
  ∧ (get_image imageKey s2).2
    = inr (json 200 (ImageBytes "image/png" (Buffer_from_base64 "iVBORw0KGgo=")
                       "public, max-age=31536000")).
Proof. vm_compute. repeat split; reflexivity. Qed.

(** C2.  [GET /api/images/:imageKey] is registered without
    [requireAuth].  On the sample server, after the upload, a client
    that is not logged in asks for the image and receives its bytes with
    status 200, where a request without a session is to be rejected with
    401 and no bytes.  [GET /api/download/:photoId], which sends the same
    cached payload, is behind [requireAuth]: it refuses that client with
    401 and serves the logged-in one. *)
Theorem get_image_without_session :
  Js.truthy (userId (session (logged_out after_upload))) = false
  ∧ (get_image "photo_1723600000000_k3j9x2m1q" (logged_out after_upload)).2
    = inr (json 200 (ImageBytes "image/png" (Buffer_from_base64 "iVBORw0KGgo=")
                       "public, max-age=31536000"))
  ∧ (download_photo "page-1" (logged_out after_upload)).2
    = inr (DownloadRefused 401 "Authentication required")
  ∧ (download_photo "page-1" after_upload).2
    = inr (Attachment "image/png" "beach.png" (Buffer_from_base64 "iVBORw0KGgo=")).
Proof. vm_compute. repeat split; reflexivity. Qed.

(** The missing guard, for every server: [GET /api/images/:imageKey]
    does not look at the session.  Whatever the session holds, the
    handler leaves the server as it is and its answer is read off the
    blob cache alone, with 404 when the key holds no payload, otherwise
    200 with the decoded bytes or 400 for a payload that is not a base64
    data URL; it never answers 401. *)
Lemma get_image_ignores_session :
  ∀ {N} (imageKey : string) (sess : sessionData) (s : server N),
    get_image imageKey (with_session sess s)
    = (with_session sess s, inr (image_response (imageStore s) imageKey))
    ∧ (get_image imageKey (with_session sess s)).2 = (get_image imageKey s).2
    ∧ status (image_response (imageStore s) imageKey) ≠ 401
    ∧ (status (image_response (imageStore s) imageKey) = 404
       ↔ Js.truthy (imageStore s !! imageKey) = false).
Proof.
  intros N imageKey sess s. rewrite !get_image_spec. simpl.
  split; [done|]. split; [done|].
  unfold image_response, Js.truthy.
  destruct (imageStore s !! imageKey) as [d|]; simpl; [|done].
  destruct (String.eqb d ""); simpl; [done|].
  destruct (match_data_url d) as [[??]|]; simpl; split; try done; lia.
Qed.

(** C10.  For a logged-in client [DELETE /api/photos/:id] answers
    [{success: true}] with status 200 for every identifier and every
    behaviour of the document store: an identifier the store does not
    know, a record that is already archived, and a failing retrieval or
    archival all end in the same answer. *)
Theorem delete_photo_success_flag :
  ∀ {N} `{NotionClient N} (id : string) (s : server N),
    Js.truthy (userId (session s)) = true →
    (delete_photo id s).2 = inr (json 200 SuccessJson).
Proof.
  intros N ? id s Hauth. unfold delete_photo. run_handler. rewrite Hauth.
  destruct (pages_retrieve id (notion s)) as [n1 [err|pg]]; simpl; [done|].
  destruct (page_archived pg); simpl; [done|].
  by destruct (pages_update_archived id n1) as [n2 [err|[]]].
Qed.

Lemma delete_photo_success_flag_witness :
  Js.truthy (userId (session sample_server)) = true
  ∧ (pages_retrieve "no-such-page" (notion sample_server)).2 = inl "Could not find page"
  ∧ (delete_photo "no-such-page" sample_server).2 = inr (json 200 SuccessJson).
Proof.
  split; [reflexivity|]. split; [reflexivity|].
  apply delete_photo_success_flag. reflexivity.
Defined.

(** *** Registration against the reference store *)

(** The database [register] works on in a given state: the cached
    identifier when there is one, otherwise the first database titled
    "users" in any letter case; and it must exist in the store. *)
Definition users_database (s : server memStore) : option string :=
  id ← (if Js.truthy (usersDatabaseId s) then usersDatabaseId s
        else md_id <$> List.find
                         (λ d, bool_decide (Js.toLowerCase (md_title d) = "users"))
                         (ms_databases (notion s)));
  _ ← mem_find_database id (notion s);
  Some id.

Lemma mem_find_database_own (dbs : list memDatabase) (d : memDatabase) :
  NoDup (map md_id dbs) → d ∈ dbs →
  List.find (λ x, String.eqb (md_id x) (md_id d)) dbs = Some d.
Proof.
  induction dbs as [|x dbs IH]; intros Hnd Hin; [by apply elem_of_nil in Hin|].
  apply NoDup_cons in Hnd as [Hx Hnd]. simpl.
  apply elem_of_cons in Hin as [->|Hin]; [by rewrite String.eqb_refl|].
  destruct (String.eqb_spec (md_id x) (md_id d)) as [Heq|_]; [|by apply IH].
  exfalso. apply Hx. rewrite Heq. by apply list_elem_of_fmap_2.
Qed.

Definition titled_users (d : memDatabase) : bool :=
  bool_decide (Js.toLowerCase (md_title d) = "users").

(** On the reference store the loop of [initializeUsersDatabase] stops at
    the first database titled "users". *)
Lemma find_users_database_mem (suffix : list memDatabase) (s : server memStore) :
  (∀ d, d ∈ suffix → mem_find_database (md_id d) (notion s) = Some d) →
  find_users_database
    (map (λ d, {| block_id := md_id d; block_type := "child_database" |}) suffix) s
  = match List.find titled_users suffix with
    | Some d => (with_session (session s)
                   {| notion := notion s; usersDatabaseId := Some (md_id d);
                      photosDatabaseId := photosDatabaseId s;
                      imageStore := imageStore s; session := session s |},
                 inr (Some (md_id d)))
    | None => (s, inr None)
    end.
Proof.
  destruct s as [st uid pid img sess]. simpl.
  induction suffix as [|d suffix IH]; intros Hown; [done|].
  simpl. run_handler.
  rewrite (Hown d) by apply list_elem_of_here. simpl.
  unfold lowered_title, titled_users. simpl.
  destruct (decide (Js.toLowerCase (md_title d) = "users")) as [Ht|Ht].
  - rewrite !bool_decide_eq_true_2; [done|done|by rewrite Ht].
  - rewrite !bool_decide_eq_false_2; [|done|by intros [=]].
    apply IH. intros d' Hd'. apply Hown. by apply list_elem_of_further.
Qed.

Lemma initializeUsersDatabase_mem (e : env) (s : server memStore) (d : string) :
  NoDup (map md_id (ms_databases (notion s))) →
  users_database s = Some d →
  ∃ s', initializeUsersDatabase e s = (s', inr d)
        ∧ notion s' = notion s ∧ session s' = session s
        ∧ usersDatabaseId s' = Some d
        ∧ is_Some (mem_find_database d (notion s)).
Proof.
  intros Hnd Hdb. unfold users_database in Hdb.
  unfold initializeUsersDatabase. run_handler.
  destruct (Js.truthy (usersDatabaseId s)) eqn:Hcached; simpl in *.
  - destruct (usersDatabaseId s) as [c|] eqn:Hc; [|done]. simpl in *.
    destruct (mem_find_database c (notion s)) eqn:Hfind; [|done].
    simpl in Hdb. injection Hdb as <-. exists s. by rewrite Hfind.
  - rewrite find_users_database_mem; last first.
    { intros d' Hd'. by apply mem_find_database_own. }
    fold titled_users in Hdb.
    destruct (List.find titled_users (ms_databases (notion s))) as [db|]; [|done].
    simpl in *.
    destruct (mem_find_database (md_id db) (notion s)) eqn:Hfind; [|done].
    simpl in Hdb. injection Hdb as <-. rewrite Hfind. eauto 10.
Qed.

Definition same_username (req : registerBody) (pg : page) : Prop :=
  ∃ u, r_username req = Some u ∧ page_properties pg !! "Username" = Some (PTitle u).

Definition same_email (req : registerBody) (pg : page) : Prop :=
  ∃ a, r_email req = Some a ∧ page_properties pg !! "Email" = Some (PEmail a).

(** C6.  On the reference store (with distinct database identifiers),
    when the Users database holds a record that is not archived and whose
    username or email is that of the request, [POST /api/register]
    answers 400, and the store and the session are as before: no record
    is created. *)
Theorem register_duplicate_rejected :
  ∀ (e : env) (req : registerBody) (s : server memStore) (d : string) (pg : page),
    NoDup (map md_id (ms_databases (notion s))) →
    users_database s = Some d →
    (d, pg) ∈ ms_pages (notion s) →
    page_archived pg = false →
    same_username req pg ∨ same_email req pg →
    ∃ message,
      (register e req s).2 = inr (json 400 (ErrorJson message))
      ∧ notion (register e req s).1 = notion s
      ∧ session (register e req s).1 = session s.
Proof.
  intros e req s d pg Hnd Hdb Hin Hlive Hsame.
  destruct (initializeUsersDatabase_mem e s d Hnd Hdb)
    as (s' & Hinit & Hst & Hsess & Hid & [db Hfind]).
  unfold register. run_handler. rewrite Hinit. simpl.
  destruct (negb (Js.truthy (r_username req)) || negb (Js.truthy (r_email req))
            || negb (Js.truthy (r_password req))) eqn:Hmissing; simpl.
  { eauto. }
  rewrite Hid, Hst. simpl. rewrite Hfind. simpl.
  set (found := List.filter _ (ms_pages (notion s))).
  assert ((d, pg) ∈ found) as Hfound.
  { apply list_elem_of_In, filter_In. split; [by apply list_elem_of_In|]. simpl.
    rewrite String.eqb_refl, Hlive. simpl.
    destruct Hsame as [(u & Hu & Hp)|(a & Ha & Hp)]; rewrite Hp; simpl.
    - rewrite Hu. simpl. by rewrite bool_decide_eq_true_2.
    - rewrite Ha. simpl. rewrite (bool_decide_eq_true_2 (Some a = Some a)) by done.
      by rewrite orb_true_r. }
  destruct found as [|x found]; [by apply elem_of_nil in Hfound|].
  simpl. rewrite ?Hst, ?Hsess. eauto.
Qed.

(** A store with one registered user. *)
Definition ann : page :=
  {| page_id := "page-1"; page_archived := false;
     page_properties :=
       list_to_map [("Username", PTitle "ann"); ("Email", PEmail "ann@example.org");
                    ("Password", PRichText "$2b$10$secret"); ("FullName", PRichText "Ann");
                    ("CreatedAt", PDate "2024-08-01T00:00:00.000Z");
                    ("IsActive", PCheckbox true)] |}.

Definition one_user : server memStore :=
  {| notion := {| ms_databases := [{| md_id := "db-0"; md_title := "Users";
                                      md_properties := users_schema |}];
                  ms_pages := [("db-0", ann)];
                  ms_counter := 2 |};
     usersDatabaseId := None;
     photosDatabaseId := None;
     imageStore := ∅;
     session := {| userId := None; username := None |} |}.

Definition ann_again : registerBody :=
  {| r_username := Some "ann"; r_email := Some "other@example.org";
     r_password := Some "hunter2"; r_fullName := None |}.

Lemma register_duplicate_rejected_witness :
  ∃ message,
    (register sample_env ann_again one_user).2 = inr (json 400 (ErrorJson message))
    ∧ notion (register sample_env ann_again one_user).1 = notion one_user
    ∧ session (register sample_env ann_again one_user).1 = session one_user.
Proof.
  apply (register_duplicate_rejected sample_env ann_again one_user "db-0" ann).
  - simpl. apply NoDup_singleton.
  - reflexivity.
  - simpl. apply list_elem_of_here.
  - reflexivity.
  - left. exists "ann". split; reflexivity.
Defined.

(** *** Data URLs and the blob cache *)

(** What the two groups of the pattern of [GET /api/images/:imageKey]
    accept. *)
Definition mime_type (m : string) : Prop :=
  m ≠ "" ∧ Js.string_forall mime_char m = true.

Definition one_line (b : string) : Prop :=
  b ≠ "" ∧ Js.string_forall (λ c, negb (line_terminator c)) b = true.

(** The image types.  For these the [Content-Type] a handler sets is the
    one the response carries. *)
Definition image_type (m : string) : Prop :=
  ∃ subtype, m = ("image/" ++ subtype)%string.

(** A name that can stand in the [Content-Disposition] header. *)
Definition header_safe (name : string) : Prop :=
  Js.string_forall header_char name = true.

Lemma data_url_inv (imageData mimeType base64Data : string) :
  match_data_url imageData = Some (mimeType, base64Data) →
  imageData = ("data:" ++ mimeType ++ ";base64," ++ base64Data)%string
  ∧ mime_type mimeType ∧ one_line base64Data.
Proof.
  unfold match_data_url, mime_type, one_line.
  destruct (Js.strip_prefix "data:" imageData) as [rest|] eqn:Hdata; [|done].
  apply JsProofs.strip_prefix_inv in Hdata as ->. cbn [mbind option_bind].
  destruct (Js.span mime_char rest) as [m rest'] eqn:Hspan.
  apply JsProofs.span_inv in Hspan as (-> & Hm & _).
  destruct (String.eqb_spec m "") as [|Hne]; [done|].
  destruct (Js.strip_prefix ";base64," rest') as [b|] eqn:Hb64; [|done].
  apply JsProofs.strip_prefix_inv in Hb64 as ->. cbn [mbind option_bind].
  destruct (String.eqb_spec b "") as [|Hne']; [done|].
  destruct (Js.string_forall _ b) eqn:Hline; [|done].
  by intros [= <- <-].
Qed.

Lemma data_url_parts (mimeType base64Data : string) :
  mime_type mimeType → one_line base64Data →
  match_data_url ("data:" ++ mimeType ++ ";base64," ++ base64Data)%string
  = Some (mimeType, base64Data).
Proof.
  intros [Hne Hm] [Hne' Hline]. unfold match_data_url.
  rewrite JsProofs.strip_prefix_app. cbn [mbind option_bind].
  rewrite (JsProofs.span_app mime_char mimeType) by done.
  rewrite (proj2 (JsProofs.eqb_empty mimeType) Hne).
  rewrite JsProofs.strip_prefix_app. cbn [mbind option_bind].
  by rewrite (proj2 (JsProofs.eqb_empty base64Data) Hne'), Hline.
Qed.

(** X13.  The pattern that [GET /api/images/:imageKey] applies to a
    cached payload accepts exactly the texts
    [data:<type>;base64,<payload>] whose type is a non-empty run of
    letters, [-], [+] and [/] and whose payload is non-empty and has no
    line break, and it yields that type and that payload.  A type with a
    digit or a dot in it is therefore not accepted. *)
Theorem data_url_round_trip :
  ∀ imageData mimeType base64Data : string,
    match_data_url imageData = Some (mimeType, base64Data)
    ↔ imageData = ("data:" ++ mimeType ++ ";base64," ++ base64Data)%string
      ∧ mime_type mimeType ∧ one_line base64Data.
Proof.
  intros imageData mimeType base64Data. split.
  - apply data_url_inv.
  - intros (-> & Hmime & Hline). by apply data_url_parts.
Qed.

(** The key [POST /api/photos] stores the payload under. *)
Definition image_key (e : env) : string :=
  ("photo_" ++ date_now e ++ "_" ++ math_random e)%string.

Section Frames.
Context {N : Type} `{NotionClient N} (e : env).

(** Looking for the Photos database leaves the blob cache and the
    session alone. *)
Lemma find_photos_database_frame (blocks : list block) (s : server N) :
  imageStore (find_photos_database e blocks s).1 = imageStore s
  ∧ session (find_photos_database e blocks s).1 = session s.
Proof.
  revert s. induction blocks as [|b rest IH]; intros s; simpl; [done|].
  destruct (String.eqb (block_type b) "child_database"); [|apply IH].
  run_handler.
  destruct (databases_retrieve (block_id b) (notion s)) as [n1 [err|info]]; simpl;
    [done|].
  case_bool_decide; simpl.
  - destruct (bool_decide ("ImageKey" ∈ db_properties info)
              && bool_decide ("UserId" ∈ db_properties info)); simpl; [done|].
    by destruct (databases_update_title _ _ n1) as [n2 [err|[]]].
  - apply (IH {| notion := n1; usersDatabaseId := usersDatabaseId s;
                 photosDatabaseId := photosDatabaseId s;
                 imageStore := imageStore s; session := session s |}).
Qed.

Lemma initializePhotosDatabase_frame (s : server N) :
  imageStore (initializePhotosDatabase e s).1 = imageStore s
  ∧ session (initializePhotosDatabase e s).1 = session s.
Proof.
  unfold initializePhotosDatabase. run_handler.
  destruct (Js.truthy (photosDatabaseId s)); simpl; [done|].
  destruct (blocks_children_list (NOTION_PAGE_ID e) (notion s)) as [n1 [err|blocks]];
    simpl; [done|].
  pose proof (find_photos_database_frame blocks
                {| notion := n1; usersDatabaseId := usersDatabaseId s;
                   photosDatabaseId := photosDatabaseId s;
                   imageStore := imageStore s; session := session s |}) as Hframe.
  destruct (find_photos_database e blocks _) as [s2 [err|[id|[]]]]; simpl in *;
    [done|done|].
  by destruct (databases_create _ _ _ (notion s2)) as [n3 [err|id]].
Qed.

(** The blob cache after [POST /api/photos] by a logged-in client, once
    the Photos database is there: the payload is in it, whatever
    happens to the record. *)
Lemma add_photo_blob (pd : photoData) (s : server N) (db : string) :
  Js.truthy (userId (session s)) = true →
  (initializePhotosDatabase e s).2 = inr db →
  imageStore (add_photo e pd s).1
  = if Js.truthy (pd_imageData pd)
    then <[image_key e := default "" (pd_imageData pd)]> (imageStore s)
    else imageStore s.
Proof.
  intros Hauth Hinit. unfold add_photo, image_key. run_handler. rewrite Hauth.
  destruct (initializePhotosDatabase_frame s) as [Hstore Hsess].
  destruct (initializePhotosDatabase e s) as [s1 [err|db']]; simpl in *; [done|].
  destruct (Js.truthy (pd_imageData pd)); simpl;
    (destruct (Js.truthy (pd_uploadDate pd)); simpl;
     [destruct (to_iso e _); simpl|];
     try destruct (pages_create _ _ (notion s1)) as [n2 [err|pg]]; simpl;
     by rewrite ?Hstore).
Qed.

(** An answer other than 401 and 500 comes from a logged-in client and
    an initialised database. *)
Lemma add_photo_answered (pd : photoData) (s : server N) (id : string) :
  (add_photo e pd s).2 = inr (json 200 (IdJson id)) →
  Js.truthy (userId (session s)) = true
  ∧ ∃ db, (initializePhotosDatabase e s).2 = inr db.
Proof.
  unfold add_photo. run_handler.
  destruct (Js.truthy (userId (session s))); simpl; [|done].
  destruct (initializePhotosDatabase e s) as [s1 [err|db]]; simpl; [done|]. eauto.
Qed.

End Frames.

(** X14.  A photo whose upload [POST /api/photos] answers with status
    200, sent as a data URL of an image type ([image/...]), is served by
    [GET /api/images/:imageKey] under the key made of the time and the
    random suffix of the upload, with the type of the data URL and the
    bytes of its payload.  The upload changes no other entry of the blob
    cache. *)
Theorem upload_then_fetch :
  ∀ {N} `{NotionClient N} (e : env) (pd : photoData) (s : server N)
    (id mimeType base64Data : string),
    (add_photo e pd s).2 = inr (json 200 (IdJson id)) →
    pd_imageData pd = Some ("data:" ++ mimeType ++ ";base64," ++ base64Data)%string →
    mime_type mimeType → image_type mimeType → one_line base64Data →
    let s' := (add_photo e pd s).1 in
    (get_image (image_key e) s').2
    = inr (json 200 (ImageBytes mimeType (Buffer_from_base64 base64Data)
                       "public, max-age=31536000"))
    ∧ ∀ key, key ≠ image_key e → imageStore s' !! key = imageStore s !! key.
Proof.
  intros N ? e pd s id mimeType base64Data Hok Hdata Hmime _ Hline s'. subst s'.
  destruct (add_photo_answered e pd s id Hok) as (Hauth & db & Hinit).
  rewrite get_image_spec, (add_photo_blob e pd s db Hauth Hinit), Hdata. simpl.
  split.
  - unfold image_response. rewrite lookup_insert_eq.
    assert (match_data_url ("data:" ++ mimeType ++ ";base64," ++ base64Data)%string
            = Some (mimeType, base64Data)) as Hmatch
      by (by apply data_url_parts).
    simpl in Hmatch. by rewrite Hmatch.
  - intros key Hkey. by rewrite lookup_insert_ne.
Qed.
Lemma upload_then_fetch_witness :
  (get_image "photo_1723600000000_k3j9x2m1q" after_upload).2
  = inr (json 200 (ImageBytes "image/png" (Buffer_from_base64 "iVBORw0KGgo=")
                     "public, max-age=31536000")).
Proof.
  destruct (upload_then_fetch sample_env sample_upload sample_server
              "page-1" "image/png" "iVBORw0KGgo=") as [Hserved _].
  - reflexivity.
  - reflexivity.
  - split; [discriminate|reflexivity].
  - by exists "png".
  - split; [discriminate|reflexivity].
  - exact Hserved.
Defined.

(** X15.  [POST /api/photos] caches the payload before it creates the
    record and does not take it back: for a logged-in client, once the
    Photos database is there, every upload that carries a payload leaves
    it in the blob cache under the new key, also when the answer is 500.
    An upload date that is no date is such a case: the answer is 500 and
    no record is created, but the payload stays cached. *)
Theorem failed_upload_leaves_blob :
  ∀ {N} `{NotionClient N} (e : env) (pd : photoData) (s : server N)
    (db imageData : string),
    Js.truthy (userId (session s)) = true →
    (initializePhotosDatabase e s).2 = inr db →
    pd_imageData pd = Some imageData → imageData ≠ "" →
    let s' := (add_photo e pd s).1 in
    imageStore s' !! image_key e = Some imageData
    ∧ (∀ date, pd_uploadDate pd = Some date → date ≠ "" → to_iso e date = None →
         (add_photo e pd s).2 = inr (json 500 (ErrorJson "Failed to add photo"))
         ∧ notion s' = notion (initializePhotosDatabase e s).1).
Proof.
  intros N ? e pd s db imageData Hauth Hinit Hdata Hne s'. subst s'. split.
  - rewrite (add_photo_blob e pd s db Hauth Hinit), Hdata. simpl.
    rewrite (proj2 (JsProofs.eqb_empty imageData) Hne). simpl.
    by rewrite lookup_insert_eq.
  - intros date Hdate Hne' Hiso. unfold add_photo. run_handler. rewrite Hauth.
    destruct (initializePhotosDatabase e s) as [s1 [err|db']]; simpl in *; [done|].
    rewrite Hdata, Hdate. simpl.
    rewrite (proj2 (JsProofs.eqb_empty imageData) Hne),
      (proj2 (JsProofs.eqb_empty date) Hne'). simpl.
    by rewrite Hiso.
Qed.

(** An environment in which one upload date is no date. *)
Definition strict_env : env :=
  {| NOTION_PAGE_ID := NOTION_PAGE_ID sample_env;
     date_now := date_now sample_env;
     math_random := math_random sample_env;
     iso_now := iso_now sample_env;
     to_iso := λ x, if String.eqb x "yesterday" then None else Some x;
     bcrypt_hash := bcrypt_hash sample_env |}.

Definition undated_upload : photoData :=
  {| pd_fileName := pd_fileName sample_upload;
     pd_originalName := pd_originalName sample_upload;
     pd_category := pd_category sample_upload;
     pd_size := pd_size sample_upload;
     pd_type := pd_type sample_upload;
     pd_width := pd_width sample_upload;
     pd_height := pd_height sample_upload;
     pd_uploadDate := Some "yesterday";
     pd_imageData := pd_imageData sample_upload;
     pd_tags := pd_tags sample_upload |}.

Lemma failed_upload_leaves_blob_witness :
  let s' := (add_photo strict_env undated_upload sample_server).1 in
  imageStore s' !! "photo_1723600000000_k3j9x2m1q"
  = Some "data:image/png;base64,iVBORw0KGgo="
  ∧ (add_photo strict_env undated_upload sample_server).2
    = inr (json 500 (ErrorJson "Failed to add photo"))
  ∧ ms_pages (notion s') = [].
Proof.
  intros s'.
  destruct (failed_upload_leaves_blob strict_env undated_upload sample_server
              "db-0" "data:image/png;base64,iVBORw0KGgo=") as [Hblob Hfail].
  - reflexivity.
  - reflexivity.
  - reflexivity.
  - discriminate.
  - split; [exact Hblob|].
    destruct (Hfail "yesterday") as [Hanswer Hstore];
      [reflexivity|discriminate|reflexivity|].
    split; [exact Hanswer|]. subst s'. rewrite Hstore. reflexivity.
Defined.

(** *** The database identifiers are looked up once *)

Section Cached.
Context {N : Type} `{NotionClient N} (e : env).

Lemma find_users_database_sets (blocks : list block) (s s' : server N) (id : string) :
  find_users_database blocks s = (s', inr (Some id)) →
  usersDatabaseId s' = Some id.
Proof.
  revert s. induction blocks as [|b rest IH]; intros s; simpl; [done|].
  destruct (String.eqb (block_type b) "child_database"); [|apply IH].
  run_handler.
  destruct (databases_retrieve (block_id b) (notion s)) as [n1 [err|info]]; simpl;
    [done|].
  case_bool_decide; simpl.
  - by intros [= <- <-].
  - apply IH.
Qed.

Lemma find_photos_database_sets (blocks : list block) (s s' : server N) (id : string) :
  find_photos_database e blocks s = (s', inr (inl id)) →
  photosDatabaseId s' = Some id.
Proof.
  revert s. induction blocks as [|b rest IH]; intros s; simpl; [done|].
  destruct (String.eqb (block_type b) "child_database"); [|apply IH].
  run_handler.
  destruct (databases_retrieve (block_id b) (notion s)) as [n1 [err|info]]; simpl;
    [done|].
  case_bool_decide; simpl.
  - destruct (bool_decide ("ImageKey" ∈ db_properties info)
              && bool_decide ("UserId" ∈ db_properties info)); simpl.
    + by intros [= <- <-].
    + by destruct (databases_update_title _ _ n1) as [n2 [err|[]]].
  - apply IH.
Qed.

Lemma initializeUsersDatabase_sets (s s' : server N) (id : string) :
  initializeUsersDatabase e s = (s', inr id) → id ≠ "" →
  usersDatabaseId s' = Some id.
Proof.
  unfold initializeUsersDatabase. run_handler.
  destruct (Js.truthy (usersDatabaseId s)) eqn:Hcached; simpl.
  - intros [= <- <-] _. by destruct (usersDatabaseId s).
  - destruct (blocks_children_list (NOTION_PAGE_ID e) (notion s))
      as [n1 [err|blocks]]; simpl; [done|].
    destruct (find_users_database blocks _) as [s2 [err|[found|]]] eqn:Hfind; simpl;
      [done| |].
    + intros [= <- <-] _. by apply find_users_database_sets in Hfind.
    + destruct (databases_create _ _ _ (notion s2)) as [n3 [err|id']]; simpl; [done|].
      by intros [= <- <-] _.
Qed.

Lemma initializePhotosDatabase_sets (s s' : server N) (id : string) :
  initializePhotosDatabase e s = (s', inr id) → id ≠ "" →
  photosDatabaseId s' = Some id.
Proof.
  unfold initializePhotosDatabase. run_handler.
  destruct (Js.truthy (photosDatabaseId s)) eqn:Hcached; simpl.
  - intros [= <- <-] _. by destruct (photosDatabaseId s).
  - destruct (blocks_children_list (NOTION_PAGE_ID e) (notion s))
      as [n1 [err|blocks]]; simpl; [done|].
    destruct (find_photos_database e blocks _) as [s2 [err|[found|[]]]] eqn:Hfind;
      simpl; [done| |].
    + intros [= <- <-] _. by apply find_photos_database_sets in Hfind.
    + destruct (databases_create _ _ _ (notion s2)) as [n3 [err|id']]; simpl; [done|].
      by intros [= <- <-] _.
Qed.

End Cached.

(** X16.  The two database identifiers are looked up once.  When
    [initializeUsersDatabase] (or [initializePhotosDatabase]) has
    returned an identifier that is not the empty text, the identifier is
    kept, and the next call returns it without a call to the document
    store: the server is left as it is, whatever the store would have
    answered. *)
Theorem database_ids_are_cached :
  ∀ {N} `{NotionClient N} (e : env) (s s' : server N) (id : string),
    id ≠ "" →
    (initializeUsersDatabase e s = (s', inr id) →
     usersDatabaseId s' = Some id ∧ initializeUsersDatabase e s' = (s', inr id))
    ∧ (initializePhotosDatabase e s = (s', inr id) →
       photosDatabaseId s' = Some id ∧ initializePhotosDatabase e s' = (s', inr id)).
Proof.
  intros N ? e s s' id Hne. split; intros Hinit.
  - pose proof (initializeUsersDatabase_sets e s s' id Hinit Hne) as Hid.
    split; [done|]. unfold initializeUsersDatabase. run_handler.
    rewrite Hid. simpl. by rewrite (proj2 (JsProofs.eqb_empty id) Hne).
  - pose proof (initializePhotosDatabase_sets e s s' id Hinit Hne) as Hid.
    split; [done|]. unfold initializePhotosDatabase. run_handler.
    rewrite Hid. simpl. by rewrite (proj2 (JsProofs.eqb_empty id) Hne).
Qed.

Lemma database_ids_are_cached_witness :
  let s' := (initializePhotosDatabase sample_env sample_server).1 in
  photosDatabaseId s' = Some "db-0"
  ∧ initializePhotosDatabase sample_env s' = (s', inr "db-0").
Proof.
  intros s'.
  apply (database_ids_are_cached sample_env sample_server s' "db-0");
    [discriminate|reflexivity].
Defined.

(** *** Whose photo is deleted *)

(** X17.  [DELETE /api/photos/:id] asks only that the client be logged
    in: what it does to the document store and to the blob cache, and
    what it answers, is the same for every logged-in client, whoever
    uploaded the photo.  The handler never compares the record's owner
    with the session. *)
Theorem delete_photo_ignores_owner :
  ∀ {N} `{NotionClient N} (id : string) (sess sess' : sessionData) (s : server N),
    Js.truthy (userId sess) = true → Js.truthy (userId sess') = true →
    notion (delete_photo id (with_session sess s)).1
    = notion (delete_photo id (with_session sess' s)).1
    ∧ imageStore (delete_photo id (with_session sess s)).1
      = imageStore (delete_photo id (with_session sess' s)).1
    ∧ (delete_photo id (with_session sess s)).2
      = (delete_photo id (with_session sess' s)).2.
Proof.
  intros N ? id sess sess' s Hauth Hauth'. unfold delete_photo, with_session.
  run_handler. rewrite Hauth, Hauth'. simpl.
  destruct (pages_retrieve id (notion s)) as [n1 [err|pg]]; simpl; [done|].
  destruct (page_archived pg); simpl; [done|].
  by destruct (pages_update_archived id n1) as [n2 [err|[]]].
Qed.

(** Another client, logged in, deletes the photo that the client of the
    sample server has uploaded. *)
Lemma delete_photo_ignores_owner_witness :
  let bob := {| userId := Some "user-2"; username := Some "bob" |} in
  let s' := (delete_photo "page-1" (with_session bob after_upload)).1 in
  map (λ entry, (page_properties entry.2 !! "UserId", page_archived entry.2))
    (ms_pages (notion after_upload))
  = [(Some (PRichText "user-1"), false)]
  ∧ map (λ entry, (page_properties entry.2 !! "UserId", page_archived entry.2))
      (ms_pages (notion s'))
    = [(Some (PRichText "user-1"), true)].
Proof.
  intros bob s'. split; [reflexivity|].
  destruct (delete_photo_ignores_owner "page-1" bob (session after_upload) after_upload)
    as [Hstore _]; [reflexivity|reflexivity|].
  subst s'. rewrite Hstore. reflexivity.
Defined.

(** *** A new account *)

Section UsersFrame.
Context {N : Type} `{NotionClient N} (e : env).

Lemma find_users_database_frame (blocks : list block) (s : server N) :
  photosDatabaseId (find_users_database blocks s).1 = photosDatabaseId s
  ∧ imageStore (find_users_database blocks s).1 = imageStore s
  ∧ session (find_users_database blocks s).1 = session s.
Proof.
  revert s. induction blocks as [|b rest IH]; intros s; simpl; [done|].
  destruct (String.eqb (block_type b) "child_database"); [|apply IH].
  run_handler.
  destruct (databases_retrieve (block_id b) (notion s)) as [n1 [err|info]]; simpl;
    [done|].
  case_bool_decide; simpl; [done|].
  apply (IH {| notion := n1; usersDatabaseId := usersDatabaseId s;
               photosDatabaseId := photosDatabaseId s;
               imageStore := imageStore s; session := session s |}).
Qed.

Lemma initializeUsersDatabase_frame (s : server N) :
  photosDatabaseId (initializeUsersDatabase e s).1 = photosDatabaseId s
  ∧ imageStore (initializeUsersDatabase e s).1 = imageStore s
  ∧ session (initializeUsersDatabase e s).1 = session s.
Proof.
  unfold initializeUsersDatabase. run_handler.
  destruct (Js.truthy (usersDatabaseId s)); simpl; [done|].
  destruct (blocks_children_list (NOTION_PAGE_ID e) (notion s)) as [n1 [err|blocks]];
    simpl; [done|].
  pose proof (find_users_database_frame blocks
                {| notion := n1; usersDatabaseId := usersDatabaseId s;
                   photosDatabaseId := photosDatabaseId s;
                   imageStore := imageStore s; session := session s |}) as Hframe.
  destruct (find_users_database blocks _) as [s2 [err|[id|]]]; simpl in *;
    [done|done|].
  by destruct (databases_create _ _ _ (notion s2)) as [n3 [err|id]].
Qed.

End UsersFrame.

(** The records of the Users database that make [register] refuse a
    username and an email: those that are not archived and carry one of
    the two. *)
Definition holds (d u a : string) (entry : string * page) : bool :=
  String.eqb entry.1 d && negb (page_archived entry.2)
  && filter_holds (FOr [FTitleEquals "Username" u; FEmailEquals "Email" a]) entry.2.

Definition account (e : env) (req : registerBody) (u a pw : string) (counter : nat)
  : page :=
  {| page_id := "page-" ++ pretty counter;
     page_archived := false;
     page_properties :=
       list_to_map
         [("Username", PTitle u); ("Email", PEmail a);
          ("Password", PRichText (bcrypt_hash e pw));
          ("FullName", PRichText (Js.or_else (r_fullName req) u));
          ("CreatedAt", PDate (iso_now e));
          ("IsActive", PCheckbox true)] |}.

(** [register] with the three fields given, on the reference store. *)
Lemma register_mem (e : env) (req : registerBody) (s : server memStore)
    (d u a pw : string) :
  NoDup (map md_id (ms_databases (notion s))) →
  users_database s = Some d →
  r_username req = Some u → u ≠ "" →
  r_email req = Some a → a ≠ "" →
  r_password req = Some pw → pw ≠ "" →
  register e req s
  = if (0 <? length (List.filter (holds d u a) (ms_pages (notion s))))%nat
    then ({| notion := notion s; usersDatabaseId := Some d;
             photosDatabaseId := photosDatabaseId s;
             imageStore := imageStore s; session := session s |},
          inr (json 400 (ErrorJson "Username or email already exists")))
    else
      let pg := account e req u a pw (ms_counter (notion s)) in
      ({| notion := {| ms_databases := ms_databases (notion s);
                       ms_pages := ms_pages (notion s) ++ [(d, pg)];
                       ms_counter := S (ms_counter (notion s)) |};
          usersDatabaseId := Some d;
          photosDatabaseId := photosDatabaseId s;
          imageStore := imageStore s;
          session := {| userId := Some (page_id pg); username := Some u |} |},
       inr (json 200 (UserJson (page_id pg) u a (Js.or_else (r_fullName req) u)))).
Proof.
  intros Hnd Hdb Hu Hune Ha Hane Hpw Hpwne.
  destruct (initializeUsersDatabase_mem e s d Hnd Hdb)
    as (s' & Hinit & Hst & Hsess & Hid & [db Hfind]).
  destruct (initializeUsersDatabase_frame e s) as (Hphotos & Hstore & _).
  rewrite Hinit in Hphotos, Hstore. simpl in Hphotos, Hstore.
  assert (s' = {| notion := notion s; usersDatabaseId := Some d;
                  photosDatabaseId := photosDatabaseId s;
                  imageStore := imageStore s; session := session s |}) as ->.
  { destruct s'. simpl in *. by subst. }
  unfold register. run_handler. rewrite Hinit. simpl.
  rewrite Hu, Ha, Hpw. simpl.
  rewrite (proj2 (JsProofs.eqb_empty u) Hune), (proj2 (JsProofs.eqb_empty a) Hane),
    (proj2 (JsProofs.eqb_empty pw) Hpwne). simpl.
  rewrite Hfind. simpl. rewrite length_map. unfold holds. simpl.
  destruct (0 <? length (List.filter _ (ms_pages (notion s))))%nat; simpl; [done|].
  by rewrite Hfind.
Qed.

Lemma users_database_kept (s : server memStore) (d : string) (st : memStore) :
  users_database s = Some d →
  ms_databases st = ms_databases (notion s) →
  ∀ sess,
    users_database {| notion := st; usersDatabaseId := Some d;
                      photosDatabaseId := photosDatabaseId s;
                      imageStore := imageStore s; session := sess |} = Some d.
Proof.
  unfold users_database, mem_find_database. intros Hdb Hsame sess. simpl.
  rewrite Hsame.
  destruct (String.eqb_spec d "") as [->|Hne]; simpl.
  - destruct (Js.truthy (usersDatabaseId s)) eqn:Hcached; [|done].
    destruct (usersDatabaseId s) as [c|]; [|done]. simpl in *.
    destruct (List.find _ (ms_databases (notion s))); [|done]. simpl in Hdb.
    injection Hdb as ->. done.
  - destruct (Js.truthy (usersDatabaseId s)).
    + destruct (usersDatabaseId s) as [c|]; [|done]. simpl in *.
      destruct (List.find (λ d0, String.eqb (md_id d0) c) _) eqn:Hfind; [|done].
      simpl in Hdb. injection Hdb as <-. by rewrite Hfind.
    + destruct (List.find (λ d0, bool_decide _) _) as [db|]; [|done]. simpl in *.
      destruct (List.find (λ d0, String.eqb (md_id d0) (md_id db)) _) eqn:Hfind;
        [|done].
      simpl in Hdb. injection Hdb as <-. by rewrite Hfind.
Qed.

(** X18.  [POST /api/register] on the reference store (with distinct
    database identifiers), with a username, an email and a password
    given, when no record of the Users database that is not archived
    carries the username or the email: the answer is 200 with the new
    user, the client is logged in as that user, and exactly one record is
    added, which holds the hashed password and not the password.  The
    same request sent once more is answered 400 and adds nothing. *)
Theorem register_creates_account :
  ∀ (e : env) (req : registerBody) (s : server memStore) (d u a pw : string),
    NoDup (map md_id (ms_databases (notion s))) →
    users_database s = Some d →
    r_username req = Some u → u ≠ "" →
    r_email req = Some a → a ≠ "" →
    r_password req = Some pw → pw ≠ "" →
    List.filter (holds d u a) (ms_pages (notion s)) = [] →
    let pg := account e req u a pw (ms_counter (notion s)) in
    let s' := (register e req s).1 in
    (register e req s).2
    = inr (json 200 (UserJson (page_id pg) u a (Js.or_else (r_fullName req) u)))
    ∧ session s' = {| userId := Some (page_id pg); username := Some u |}
    ∧ ms_pages (notion s') = ms_pages (notion s) ++ [(d, pg)]
    ∧ page_properties pg !! "Password" = Some (PRichText (bcrypt_hash e pw))
    ∧ (register e req s').2
      = inr (json 400 (ErrorJson "Username or email already exists"))
    ∧ notion (register e req s').1 = notion s'.
Proof.
  intros e req s d u a pw Hnd Hdb Hu Hune Ha Hane Hpw Hpwne Hfree pg s'.
  pose proof (register_mem e req s d u a pw Hnd Hdb Hu Hune Ha Hane Hpw Hpwne) as Hreg.
  rewrite Hfree in Hreg. simpl in Hreg. fold pg in Hreg.
  subst s'. rewrite Hreg. cbn [fst snd notion session ms_pages].
  split; [done|]. split; [done|]. split; [done|]. split; [done|].
  match goal with
  | |- context [register e req ?s1] =>
      pose proof (register_mem e req s1 d u a pw) as Hagain
  end.
  cbn [notion ms_databases ms_pages] in Hagain.
  rewrite Hagain; try done.
  - rewrite List.filter_app, length_app. cbn [List.filter].
    assert (holds d u a (d, pg) = true) as ->.
    { unfold holds. simpl. rewrite String.eqb_refl. simpl.
      by rewrite bool_decide_eq_true_2. }
    cbn [length]. rewrite Nat.add_1_r. done.
  - by apply (users_database_kept s d).
Qed.

Definition bob_joins : registerBody :=
  {| r_username := Some "bob"; r_email := Some "bob@example.org";
     r_password := Some "hunter2"; r_fullName := None |}.

Lemma register_creates_account_witness :
  let s' := (register sample_env bob_joins one_user).1 in
  (register sample_env bob_joins one_user).2
  = inr (json 200 (UserJson "page-2" "bob" "bob@example.org" "bob"))
  ∧ session s' = {| userId := Some "page-2"; username := Some "bob" |}
  ∧ (register sample_env bob_joins s').2
    = inr (json 400 (ErrorJson "Username or email already exists")).
Proof.
  intros s'.
  destruct (register_creates_account sample_env bob_joins one_user "db-0"
              "bob" "bob@example.org" "hunter2")
    as (Hanswer & Hsession & _ & _ & Hagain & _).
  - simpl. apply NoDup_singleton.
  - reflexivity.
  - reflexivity.
  - discriminate.
  - reflexivity.
  - discriminate.
  - reflexivity.
  - discriminate.
  - reflexivity.
  - split; [exact Hanswer|]. split; [exact Hsession|exact Hagain].
Defined.


(** *** The page identifier of the configured URL *)

(** A character that is neither [?] nor [#]. *)
Definition no_mark (c : ascii) : bool :=
  negb (Ascii.eqb c "?" || Ascii.eqb c "#").

Lemma hex_no_mark (c : ascii) : hex_char c = true → no_mark c = true.
Proof. destruct c as [[] [] [] [] [] [] [] []]; vm_compute; done. Qed.

Lemma hex_no_marks (s : string) :
  Js.string_forall hex_char s = true → Js.string_forall no_mark s = true.
Proof.
  induction s as [|c s IH]; simpl; [done|].
  intros [Hc Hs]%andb_true_iff. by rewrite (hex_no_mark c Hc), IH.
Qed.

Lemma page_id_at_start_inv (s id : string) :
  page_id_at_start s = Some id →
  String.length id = 32%nat ∧ Js.string_forall hex_char id = true
  ∧ ∃ post, s = (id ++ post)%string ∧ id_ends post = true.
Proof.
  unfold page_id_at_start.
  destruct (Nat.eqb_spec (String.length (String.substring 0 32 s)) 32) as [Hlen|];
    [|done].
  destruct (Js.string_forall hex_char (String.substring 0 32 s)) eqn:Hhex; [|done].
  destruct (id_ends (String.substring 32 (String.length s - 32) s)) eqn:Hend; [|done].
  cbn [andb]. intros [= <-]. split; [done|]. split; [done|].
  exists (String.substring 32 (String.length s - 32) s). split; [|done].
  apply JsProofs.substring_split.
Qed.

Lemma page_id_at_start_here (id post : string) :
  String.length id = 32%nat → Js.string_forall hex_char id = true →
  id_ends post = true →
  page_id_at_start (id ++ post) = Some id.
Proof.
  intros Hlen Hhex Hend. unfold page_id_at_start.
  pose proof (JsProofs.substring_app id post) as Hgroup.
  pose proof (JsProofs.substring_rest id post) as Hrest.
  rewrite Hlen in Hgroup, Hrest. rewrite Hgroup, Hrest, Hlen, Hhex, Hend. done.
Qed.

Lemma extractPageIdFromUrl_inv (pageUrl id : string) :
  extractPageIdFromUrl pageUrl = inr id →
  String.length id = 32%nat ∧ Js.string_forall hex_char id = true
  ∧ ∃ pre post, pageUrl = (pre ++ id ++ post)%string ∧ id_ends post = true.
Proof.
  induction pageUrl as [|c rest IH]; cbn [extractPageIdFromUrl].
  - destruct (page_id_at_start "") as [found|] eqn:Hhere; [|done].
    intros [= ->]. apply page_id_at_start_inv in Hhere as (Hlen & Hhex & post & -> & Hend).
    split; [done|]. split; [done|]. by exists "", post.
  - destruct (page_id_at_start (String c rest)) as [found|] eqn:Hhere.
    + intros [= ->].
      apply page_id_at_start_inv in Hhere as (Hlen & Hhex & post & Heq & Hend).
      split; [done|]. split; [done|]. exists "", post. by rewrite Heq.
    + intros Hrest. destruct (IH Hrest) as (Hlen & Hhex & pre & post & -> & Hend).
      split; [done|]. split; [done|]. by exists (String c pre), post.
Qed.

Lemma extractPageIdFromUrl_found (pre id post : string) :
  String.length id = 32%nat → Js.string_forall hex_char id = true →
  Js.string_forall no_mark pre = true → id_ends post = true →
  extractPageIdFromUrl (pre ++ id ++ post) = inr id.
Proof.
  intros Hlen Hhex Hpre Hend. induction pre as [|c pre IH].
  - rewrite JsProofs.append_empty.
    assert (extractPageIdFromUrl (id ++ post)
            = match page_id_at_start (id ++ post) with
              | Some found => inr found
              | None => match (id ++ post)%string with
                        | String _ rest => extractPageIdFromUrl rest
                        | EmptyString => inl "Failed to extract page ID from URL"
                        end
              end) as -> by (by destruct (id ++ post)%string).
    by rewrite page_id_at_start_here.
  - simpl in Hpre. apply andb_true_iff in Hpre as [Hc Hpre].
    rewrite JsProofs.append_cons. cbn [extractPageIdFromUrl].
    destruct (page_id_at_start (String c (pre ++ id ++ post))) as [found|] eqn:Hhere;
      [exfalso|by apply IH].
    apply page_id_at_start_inv in Hhere as (Hlen' & Hhex' & post' & Heq & Hend').
    assert (String.length (String c (pre ++ id ++ post))
            = String.length (found ++ post')) as Hsame by (by rewrite Heq).
    cbn [String.length] in Hsame. rewrite !JsProofs.length_app_string in Hsame.
    destruct post' as [|c' r]; [simpl in Hsame; lia|].
    pose proof (JsProofs.get_app_here found c' r) as Hmark.
    rewrite Hlen', <- Heq in Hmark. cbn [String.get] in Hmark.
    rewrite JsProofs.app_assoc_string, JsProofs.get_app_l in Hmark
      by (rewrite JsProofs.length_app_string; lia).
    destruct (JsProofs.get_forall no_mark (pre ++ id) 31) as (c'' & Hget & Hno).
    { rewrite JsProofs.string_forall_app, Hpre. by apply hex_no_marks. }
    { rewrite JsProofs.length_app_string. lia. }
    rewrite Hget in Hmark. injection Hmark as ->.
    simpl in Hend'. unfold no_mark in Hno. by rewrite Hend' in Hno.
Qed.

(** X19.  [extractPageIdFromUrl] returns 32 hexadecimal digits that
    stand in the URL just before a [?], a [#] or its end, and throws
    when the URL has no such place.  For a URL in which 32 hexadecimal
    digits are followed by [?], [#] or the end and nothing before them is
    a [?] or a [#], it returns those digits. *)
Theorem extractPageIdFromUrl_spec :
  ∀ pageUrl id : string,
    (extractPageIdFromUrl pageUrl = inr id →
     String.length id = 32%nat ∧ Js.string_forall hex_char id = true
     ∧ ∃ pre post, pageUrl = (pre ++ id ++ post)%string ∧ id_ends post = true)
    ∧ (∀ pre post,
         pageUrl = (pre ++ id ++ post)%string →
         String.length id = 32%nat → Js.string_forall hex_char id = true →
         Js.string_forall no_mark pre = true → id_ends post = true →
         extractPageIdFromUrl pageUrl = inr id)
    ∧ ((∀ pre found post,
          pageUrl = (pre ++ found ++ post)%string → String.length found = 32%nat →
          Js.string_forall hex_char found = true → id_ends post = false) →
       extractPageIdFromUrl pageUrl = inl "Failed to extract page ID from URL").
Proof.
  intros pageUrl id. split; [apply extractPageIdFromUrl_inv|]. split.
  - intros pre post -> Hlen Hhex Hpre Hend. by apply extractPageIdFromUrl_found.
  - intros Hnone.
    destruct (extractPageIdFromUrl pageUrl) as [err|found] eqn:Hresult.
    + clear -Hresult. revert Hresult.
      induction pageUrl as [|c rest IH]; cbn [extractPageIdFromUrl].
      * by destruct (page_id_at_start ""); intros [= <-].
      * destruct (page_id_at_start (String c rest)); [done|]. apply IH.
    + apply extractPageIdFromUrl_inv in Hresult
        as (Hlen & Hhex & pre & post & Heq & Hend).
      by rewrite (Hnone pre found post Heq Hlen Hhex) in Hend.
Qed.

Lemma extractPageIdFromUrl_spec_witness :
  extractPageIdFromUrl
    "https://www.notion.so/team/Photo-Gallery-0123456789abcdef0123456789ABCDEF?pvs=4"
  = inr "0123456789abcdef0123456789ABCDEF".
Proof.
  apply (extractPageIdFromUrl_spec _ "0123456789abcdef0123456789ABCDEF")
    with (pre := "https://www.notion.so/team/Photo-Gallery-") (post := "?pvs=4");
    reflexivity.
Defined.

(** *** The Photos database on the reference store *)

Definition titled_photos (d : memDatabase) : bool :=
  bool_decide (Js.toLowerCase (md_title d) = "photos").

(** The two properties a Photos database must have to be used. *)
Definition current_schema (d : memDatabase) : bool :=
  bool_decide ("ImageKey" ∈ md_properties d) && bool_decide ("UserId" ∈ md_properties d).

Definition set_notion (st : memStore) (s : server memStore) : server memStore :=
  {| notion := st; usersDatabaseId := usersDatabaseId s;
     photosDatabaseId := photosDatabaseId s;
     imageStore := imageStore s; session := session s |}.

Definition with_photos (id : string) (s : server memStore) : server memStore :=
  {| notion := notion s; usersDatabaseId := usersDatabaseId s;
     photosDatabaseId := Some id;
     imageStore := imageStore s; session := session s |}.

Definition retitled (id title : string) (st : memStore) : memStore :=
  {| ms_databases := map (mem_retitle id title) (ms_databases st);
     ms_pages := ms_pages st;
     ms_counter := ms_counter st |}.

(** [databases.create] on the reference store. *)
Definition created (title : string) (properties : list string) (st : memStore)
  : memStore :=
  {| ms_databases := ms_databases st ++
                     [{| md_id := "db-" ++ pretty (ms_counter st); md_title := title;
                         md_properties := properties |}];
     ms_pages := ms_pages st;
     ms_counter := S (ms_counter st) |}.

(** On the reference store the loop of [initializePhotosDatabase] stops
    at the first database titled "photos": it is used, or renamed. *)
Lemma find_photos_database_mem (e : env) (suffix : list memDatabase)
    (s : server memStore) :
  (∀ d, d ∈ suffix → mem_find_database (md_id d) (notion s) = Some d) →
  find_photos_database e
    (map (λ d, {| block_id := md_id d; block_type := "child_database" |}) suffix) s
  = match List.find titled_photos suffix with
    | Some d =>
        if current_schema d
        then (with_photos (md_id d) s, inr (inl (md_id d)))
        else (set_notion (retitled (md_id d) ("Photos_old_" ++ iso_day (iso_now e))
                            (notion s)) s,
              inr (inr tt))
    | None => (s, inr (inr tt))
    end.
Proof.
  destruct s as [st uid pid img sess]. simpl.
  induction suffix as [|d suffix IH]; intros Hown; [done|].
  simpl. run_handler.
  rewrite (Hown d) by apply list_elem_of_here. simpl.
  unfold lowered_title, titled_photos. simpl.
  destruct (decide (Js.toLowerCase (md_title d) = "photos")) as [Ht|Ht].
  - rewrite (bool_decide_eq_true_2 (Some (Js.toLowerCase (md_title d)) = Some "photos"))
      by (by rewrite Ht).
    rewrite (bool_decide_eq_true_2 (Js.toLowerCase (md_title d) = "photos")) by done.
    unfold current_schema.
    destruct (bool_decide ("ImageKey" ∈ md_properties d)
              && bool_decide ("UserId" ∈ md_properties d)); simpl; [done|].
    by rewrite (Hown d) by apply list_elem_of_here.
  - rewrite (bool_decide_eq_false_2 (Some (Js.toLowerCase (md_title d)) = Some "photos"))
      by (by intros [=]).
    rewrite (bool_decide_eq_false_2 (Js.toLowerCase (md_title d) = "photos")) by done.
    apply IH. intros d' Hd'. apply Hown. by apply list_elem_of_further.
Qed.

(** X20.  [initializePhotosDatabase] on the reference store (with
    distinct database identifiers), when no identifier is cached, looks
    at the first database titled "photos" in any letter case.  If it has
    the properties ImageKey and UserId it is used and the store is left
    as it is.  If it lacks one of them it is renamed to
    Photos_old_<day> and a new database Photos is created and used:
    the records stay where they were, in the renamed database.  If no
    database is titled so, a new one is created and used. *)
Theorem photos_database_found_replaced_or_created :
  ∀ (e : env) (s : server memStore),
    NoDup (map md_id (ms_databases (notion s))) →
    Js.truthy (photosDatabaseId s) = false →
    let new_id := ("db-" ++ pretty (ms_counter (notion s)))%string in
    initializePhotosDatabase e s
    = match List.find titled_photos (ms_databases (notion s)) with
      | Some d =>
          if current_schema d
          then (with_photos (md_id d) s, inr (md_id d))
          else (with_photos new_id
                  (set_notion
                     (created "Photos" photos_schema
                        (retitled (md_id d) ("Photos_old_" ++ iso_day (iso_now e))
                           (notion s))) s),
                inr new_id)
      | None =>
          (with_photos new_id
             (set_notion (created "Photos" photos_schema (notion s)) s),
           inr new_id)
      end.
Proof.
  intros e s Hnd Hcached new_id. subst new_id.
  destruct s as [st uid pid img sess]. simpl in *.
  unfold initializePhotosDatabase. run_handler. rewrite Hcached. simpl.
  pose proof (find_photos_database_mem e (ms_databases st)
                {| notion := st; usersDatabaseId := uid; photosDatabaseId := pid;
                   imageStore := img; session := sess |}) as Hloop.
  simpl in Hloop. rewrite Hloop.
  - destruct (List.find titled_photos (ms_databases st)) as [d|]; [|done].
    by destruct (current_schema d).
  - intros d Hd. by apply mem_find_database_own.
Qed.

(** A store set up by an older version: its Photos database has no
    ImageKey and no UserId, and holds one record. *)
Definition old_store : server memStore :=
  {| notion := {| ms_databases := [{| md_id := "db-0"; md_title := "Photos";
                                      md_properties := ["Name"; "Category"] |}];
                  ms_pages := [("db-0", {| page_id := "page-1"; page_archived := false;
                                           page_properties := ∅ |})];
                  ms_counter := 2 |};
     usersDatabaseId := None;
     photosDatabaseId := None;
     imageStore := ∅;
     session := {| userId := Some "user-1"; username := Some "ann" |} |}.

Lemma photos_database_found_replaced_or_created_witness :
  let s' := (initializePhotosDatabase sample_env old_store).1 in
  (initializePhotosDatabase sample_env old_store).2 = inr "db-2"
  ∧ map (λ d, (md_id d, md_title d)) (ms_databases (notion s'))
    = [("db-0", "Photos_old_2024-08-14"); ("db-2", "Photos")]
  ∧ map fst (ms_pages (notion s')) = ["db-0"].
Proof.
  intros s'. subst s'.
  rewrite (photos_database_found_replaced_or_created sample_env old_store).
  - split; [reflexivity|]. split; reflexivity.
  - simpl. apply NoDup_singleton.
  - reflexivity.
Defined.

(** *** Logging in *)


(** The records [login] finds for a username on the reference store. *)
Definition named (d u : string) (entry : string * page) : bool :=
  String.eqb entry.1 d && negb (page_archived entry.2)
  && filter_holds (FTitleEquals "Username" u) entry.2.

Lemma find_page_of (entry : string * page) (pages : list (string * page)) :
  entry ∈ pages →
  is_Some (List.find (λ x, String.eqb (page_id x.2) (page_id entry.2)) pages).
Proof.
  induction pages as [|x pages IH]; [by intros ?%elem_of_nil|].
  intros [->|Hin]%elem_of_cons; simpl.
  - rewrite String.eqb_refl. by eexists.
  - destruct (String.eqb _ _); [by eexists|by apply IH].
Qed.

(** [login] with a username and a password given, on the reference
    store. *)
Lemma login_mem (e : env) (bcrypt_compare : string → string → bool)
    (s : server memStore) (d u given : string) :
  NoDup (map md_id (ms_databases (notion s))) →
  users_database s = Some d →
  u ≠ "" → given ≠ "" →
  let s1 := {| notion := notion s; usersDatabaseId := Some d;
               photosDatabaseId := photosDatabaseId s;
               imageStore := imageStore s; session := session s |} in
  login e bcrypt_compare {| l_username := Some u; l_password := Some given |} s
  = match List.filter (named d u) (ms_pages (notion s)) with
    | [] => (s1, inr (LoginRefused 401 "Invalid username or password"))
    | found :: _ =>
        match rich_text_of (page_properties found.2 !! "Password") with
        | None => (s1, inr (LoginRefused 500 "Failed to login"))
        | Some stored =>
            if bcrypt_compare given stored
            then ({| notion :=
                       {| ms_databases := ms_databases (notion s);
                          ms_pages :=
                            map (mem_set_properties (page_id found.2)
                                   {["LastLogin" := PDate (iso_now e)]})
                              (ms_pages (notion s));
                          ms_counter := ms_counter (notion s) |};
                     usersDatabaseId := Some d;
                     photosDatabaseId := photosDatabaseId s;
                     imageStore := imageStore s;
                     session := {| userId := Some (page_id found.2);
                                   username := Some u |} |},
                  inr (LoggedIn (page_id found.2)
                         (title_of (page_properties found.2 !! "Username"))
                         (email_of (page_properties found.2 !! "Email"))
                         (rich_text_of (page_properties found.2 !! "FullName"))))
            else (s1, inr (LoginRefused 401 "Invalid username or password"))
        end
    end.
Proof.
  intros Hnd Hdb Hune Hgiven s1. subst s1.
  destruct (initializeUsersDatabase_mem e s d Hnd Hdb)
    as (s' & Hinit & Hst & Hsess & Hid & [db Hfind]).
  destruct (initializeUsersDatabase_frame e s) as (Hphotos & Hstore & _).
  rewrite Hinit in Hphotos, Hstore. simpl in Hphotos, Hstore.
  assert (s' = {| notion := notion s; usersDatabaseId := Some d;
                  photosDatabaseId := photosDatabaseId s;
                  imageStore := imageStore s; session := session s |}) as ->.
  { destruct s'. simpl in *. by subst. }
  unfold login. run_handler. rewrite Hinit. simpl.
  rewrite (proj2 (JsProofs.eqb_empty u) Hune), (proj2 (JsProofs.eqb_empty given) Hgiven).
  simpl. rewrite Hfind. simpl. unfold named. simpl.
  destruct (List.filter _ (ms_pages (notion s))) as [|found rest] eqn:Hfound; simpl;
    [done|].
  destruct (rich_text_of (page_properties found.2 !! "Password")) as [stored|]; simpl;
    [|done].
  destruct (bcrypt_compare given stored); simpl; [|done].
  assert (found ∈ ms_pages (notion s)) as Hin.
  { assert (found ∈ found :: rest) as Hhere by apply list_elem_of_here.
    rewrite <- Hfound in Hhere. apply list_elem_of_In, filter_In in Hhere as [Hhere _].
    by apply list_elem_of_In. }
  destruct (find_page_of found _ Hin) as [x Hx]. by rewrite Hx.
Qed.

Lemma filter_none_weaker {A : Type} (f g : A → bool) (l : list A) :
  (∀ x, g x = true → f x = true) → List.filter f l = [] → List.filter g l = [].
Proof.
  intros Hfg. induction l as [|x l IH]; simpl; [done|].
  destruct (f x) eqn:Hf; [done|]. intros Hl.
  destruct (g x) eqn:Hg; [|by apply IH]. by rewrite (Hfg x Hg) in Hf.
Qed.

(** X25.  On the reference store, a user who has just registered
    can log in with the username and the password of the registration,
    whatever the session is by then: the answer is the user, and the
    session is set to the user's record.  With another password the
    answer is 401 and the session stays as it is, exactly as for a
    username that no record carries. *)
Theorem register_then_login :
  ∀ (e : env) (bcrypt_compare : string → string → bool) (req : registerBody)
    (s : server memStore) (d u a pw : string) (sess : sessionData),
    NoDup (map md_id (ms_databases (notion s))) →
    users_database s = Some d →
    r_username req = Some u → u ≠ "" →
    r_email req = Some a → a ≠ "" →
    r_password req = Some pw → pw ≠ "" →
    List.filter (holds d u a) (ms_pages (notion s)) = [] →
    bcrypt_hash e pw ≠ "" →
    let pg := account e req u a pw (ms_counter (notion s)) in
    let s' := with_session sess (register e req s).1 in
    ∀ given : string,
      given ≠ "" →
      let r := login e bcrypt_compare
                 {| l_username := Some u; l_password := Some given |} s' in
      if bcrypt_compare given (bcrypt_hash e pw)
      then r.2 = inr (LoggedIn (page_id pg) (Some u) (Some a)
                        (Some (Js.or_else (r_fullName req) u)))
           ∧ session r.1 = {| userId := Some (page_id pg); username := Some u |}
      else r.2 = inr (LoginRefused 401 "Invalid username or password")
           ∧ session r.1 = sess.
Proof.
  intros e bcrypt_compare req s d u a pw sess Hnd Hdb Hu Hune Ha Hane Hpw Hpwne Hfree
    Hhash pg s' given Hgiven r.
  pose proof (register_mem e req s d u a pw Hnd Hdb Hu Hune Ha Hane Hpw Hpwne) as Hreg.
  rewrite Hfree in Hreg. simpl in Hreg. fold pg in Hreg.
  subst r s'. rewrite Hreg. unfold with_session. cbn [fst notion usersDatabaseId
    photosDatabaseId imageStore].
  match goal with
  | |- context [login e bcrypt_compare ?req' ?s1] =>
      pose proof (login_mem e bcrypt_compare s1 d u given) as Hlogin
  end.
  cbn [notion ms_databases ms_pages ms_counter photosDatabaseId imageStore session]
    in Hlogin.
  rewrite Hlogin; [|done|by apply (users_database_kept s d)|done|done].
  rewrite List.filter_app.
  rewrite (filter_none_weaker (holds d u a) (named d u)); [|  |done].
  2:{ intros entry. unfold named, holds. simpl.
      intros [Hlive Hname]%andb_true_iff. by rewrite Hlive, Hname. }
  assert (named d u (d, pg) = true) as Hnamed.
  { unfold named. simpl. rewrite String.eqb_refl. simpl.
    by rewrite bool_decide_eq_true_2. }
  cbn [List.filter app]. rewrite Hnamed. cbn [snd].
  assert (rich_text_of (page_properties pg !! "Password") = Some (bcrypt_hash e pw))
    as ->.
  { change (page_properties pg !! "Password") with (Some (PRichText (bcrypt_hash e pw))).
    simpl. by rewrite (proj2 (JsProofs.eqb_empty _) Hhash). }
  destruct (bcrypt_compare given (bcrypt_hash e pw)); [|done].
  split; [|done]. cbn [snd]. do 2 f_equal.
  - change (page_properties pg !! "Username") with (Some (PTitle u)).
    simpl. by rewrite (proj2 (JsProofs.eqb_empty _) Hune).
  - change (page_properties pg !! "FullName")
      with (Some (PRichText (Js.or_else (r_fullName req) u))).
    simpl.
    assert (Js.or_else (r_fullName req) u ≠ "") as Hfull.
    { unfold Js.or_else. destruct (r_fullName req) as [f|]; [|done].
      by destruct (String.eqb_spec f ""). }
    by rewrite (proj2 (JsProofs.eqb_empty _) Hfull).
Qed.

(** A [bcrypt.compare] for the hash of the sample environment. *)
Definition sample_compare (password stored : string) : bool :=
  String.eqb stored ("$2b$10$" ++ password).

Lemma register_then_login_witness :
  let s' := logged_out (register sample_env bob_joins one_user).1 in
  (login sample_env sample_compare
     {| l_username := Some "bob"; l_password := Some "hunter2" |} s').2
  = inr (LoggedIn "page-2" (Some "bob") (Some "bob@example.org") (Some "bob"))
  ∧ (login sample_env sample_compare
       {| l_username := Some "bob"; l_password := Some "hunter3" |} s').2
    = inr (LoginRefused 401 "Invalid username or password").
Proof.
  intros s'.
  pose proof (register_then_login sample_env sample_compare bob_joins one_user
                "db-0" "bob" "bob@example.org" "hunter2"
                {| userId := None; username := None |}) as Hlogin.
  split.
  - apply (Hlogin ltac:(simpl; apply NoDup_singleton) eq_refl eq_refl
             ltac:(discriminate) eq_refl ltac:(discriminate) eq_refl
             ltac:(discriminate) eq_refl ltac:(discriminate) "hunter2"
             ltac:(discriminate)).
  - apply (Hlogin ltac:(simpl; apply NoDup_singleton) eq_refl eq_refl
             ltac:(discriminate) eq_refl ltac:(discriminate) eq_refl
             ltac:(discriminate) eq_refl ltac:(discriminate) "hunter3"
             ltac:(discriminate)).
Defined.


(** *** Listing the photos *)

(** The records [GET /api/photos] asks the reference store for: those
    of the database that are not archived and carry the user. *)
Definition owned (db user : string) (entry : string * page) : bool :=
  String.eqb entry.1 db && negb (page_archived entry.2)
  && filter_holds (FRichTextEquals "UserId" user) entry.2.

Lemma initializePhotosDatabase_cached {N} `{NotionClient N} (e : env) (s : server N)
    (db : string) :
  photosDatabaseId s = Some db → db ≠ "" →
  initializePhotosDatabase e s = (s, inr db).
Proof.
  intros Hdb Hne. unfold initializePhotosDatabase. run_handler. rewrite Hdb. simpl.
  by rewrite (proj2 (JsProofs.eqb_empty db) Hne).
Qed.

Lemma get_photos_mem (e : env) (s : server memStore) (db user : string) :
  photosDatabaseId s = Some db → db ≠ "" →
  is_Some (mem_find_database db (notion s)) →
  userId (session s) = Some user → user ≠ "" →
  get_photos e s
  = (s, inr (PhotosJson
               (map (photo_json e)
                  (Js.sort (later_first "UploadDate")
                     (map snd (List.filter (owned db user) (ms_pages (notion s)))))))).
Proof.
  intros Hdb Hne [d Hfind] Huser Hune. unfold get_photos. run_handler.
  rewrite Huser. simpl. rewrite (proj2 (JsProofs.eqb_empty user) Hune). simpl.
  rewrite (initializePhotosDatabase_cached e s db Hdb Hne). simpl.
  rewrite Hdb, Huser. simpl. rewrite Hfind. simpl. rewrite <- Hdb. by destruct s.
Qed.

(** X26.  [GET /api/photos] on the reference store, for a logged-in
    client and a Photos database whose identifier is cached: the server
    is left as it is, and the photos listed are exactly the records of
    that database that are not archived and whose UserId is the user of
    the session, one entry for each; the download URL of an entry is
    [/api/images/] followed by its image key.  A client that is not
    logged in is answered 401. *)
Theorem listing_is_the_users_photos :
  ∀ (e : env) (s : server memStore) (db user : string),
    photosDatabaseId s = Some db → db ≠ "" →
    is_Some (mem_find_database db (notion s)) →
    userId (session s) = Some user → user ≠ "" →
    (∃ listed,
       get_photos e s = (s, inr (PhotosJson listed))
       ∧ map pj_id listed
         ≡ₚ map (λ entry, page_id entry.2)
              (List.filter (owned db user) (ms_pages (notion s)))
       ∧ Forall (λ pj, pj_downloadURL pj = ("/api/images/" ++ pj_imageKey pj)%string)
           listed)
    ∧ get_photos e (logged_out s)
      = (logged_out s, inr (PhotosRefused 401 "Authentication required")).
Proof.
  intros e s db user Hdb Hne Hfind Huser Hune. split; [|done].
  eexists. split; [by apply (get_photos_mem e s db user)|]. split.
  - rewrite !map_map. simpl. rewrite <- (map_map snd page_id).
    by rewrite JsProofs.sort_perm.
  - apply Forall_fmap, Forall_forall. done.
Qed.

Lemma or_else_again (o : option string) (d : string) :
  d ≠ "" → Js.or_else (Some (Js.or_else o d)) d = Js.or_else o d.
Proof.
  intros Hd. unfold Js.or_else. destruct o as [x|].
  - destruct (String.eqb_spec x "") as [->|Hx].
    + by rewrite (proj2 (JsProofs.eqb_empty d) Hd).
    + by rewrite (proj2 (JsProofs.eqb_empty x) Hx).
  - by rewrite (proj2 (JsProofs.eqb_empty d) Hd).
Qed.

Lemma image_key_not_empty (e : env) : image_key e ≠ "".
Proof. unfold image_key. by rewrite JsProofs.append_cons. Qed.

(** [POST /api/photos] on the reference store, for a logged-in client
    and a cached database, when it answers 200. *)
Lemma add_photo_mem (e : env) (pd : photoData) (s : server memStore)
    (db user id : string) :
  photosDatabaseId s = Some db → db ≠ "" →
  userId (session s) = Some user → user ≠ "" →
  (add_photo e pd s).2 = inr (json 200 (IdJson id)) →
  ∃ pg,
    ms_pages (notion (add_photo e pd s).1) = ms_pages (notion s) ++ [(db, pg)]
    ∧ ms_databases (notion (add_photo e pd s).1) = ms_databases (notion s)
    ∧ photosDatabaseId (add_photo e pd s).1 = Some db
    ∧ session (add_photo e pd s).1 = session s
    ∧ page_id pg = id ∧ page_archived pg = false
    ∧ page_properties pg !! "UserId" = Some (PRichText user)
    ∧ page_properties pg !! "ImageKey" = Some (PRichText (image_key e))
    ∧ page_properties pg !! "Category"
      = Some (PSelect (Js.or_else (pd_category pd) "other"))
    ∧ page_properties pg !! "OriginalName"
      = Some (PRichText (Js.or_else (pd_originalName pd)
                           (Js.or_else (pd_fileName pd) "unknown"))).
Proof.
  intros Hdb Hne Huser Hune. unfold add_photo. run_handler.
  rewrite Huser. simpl. rewrite (proj2 (JsProofs.eqb_empty user) Hune). simpl.
  rewrite (initializePhotosDatabase_cached e s db Hdb Hne). simpl.
  destruct (Js.truthy (pd_imageData pd)); simpl;
    (destruct (Js.truthy (pd_uploadDate pd)); simpl;
     [destruct (to_iso e _); simpl; [|done]|];
     rewrite Hdb, Huser; simpl;
     (destruct (mem_find_database db (notion s)); simpl; [|done]);
     intros [= <-]; eexists; repeat split; done).
Qed.

(** X27.  On the reference store, a photo that a logged-in client has
    uploaded with answer 200 is in that client's list: the entry has the
    identifier the upload returned, the category sent (or "other"), the
    key under which the payload was cached, and the download URL made of
    that key; and for a payload sent as a data URL of an image type
    ([image/...]) that URL serves its bytes with that type. *)
Theorem uploaded_photo_is_listed :
  ∀ (e : env) (pd : photoData) (s : server memStore) (db user id : string),
    photosDatabaseId s = Some db → db ≠ "" →
    userId (session s) = Some user → user ≠ "" →
    (add_photo e pd s).2 = inr (json 200 (IdJson id)) →
    let s' := (add_photo e pd s).1 in
    ∃ listed pj,
      get_photos e s' = (s', inr (PhotosJson listed))
      ∧ pj ∈ listed
      ∧ pj_id pj = id
      ∧ pj_category pj = Js.or_else (pd_category pd) "other"
      ∧ pj_imageKey pj = image_key e
      ∧ pj_downloadURL pj = ("/api/images/" ++ image_key e)%string
      ∧ ∀ mimeType base64Data,
          pd_imageData pd = Some ("data:" ++ mimeType ++ ";base64," ++ base64Data)%string →
          mime_type mimeType → image_type mimeType → one_line base64Data →
          (get_image (pj_imageKey pj) s').2
          = inr (json 200 (ImageBytes mimeType (Buffer_from_base64 base64Data)
                             "public, max-age=31536000")).
Proof.
  intros e pd s db user id Hdb Hne Huser Hune Hok s'.
  destruct (add_photo_mem e pd s db user id Hdb Hne Huser Hune Hok)
    as (pg & Hpages & Hdbs & Hdb' & Hsess & Hid & Hlive & Howner & Hkey & Hcat & _).
  destruct (add_photo_answered e pd s id Hok) as (Hauth & db0 & Hinit).
  assert (is_Some (mem_find_database db (notion s'))) as Hfind.
  { unfold mem_find_database. subst s'. rewrite Hdbs.
    revert Hok. unfold add_photo. run_handler.
    rewrite Hauth. simpl.
    rewrite (initializePhotosDatabase_cached e s db Hdb Hne). simpl.
    destruct (Js.truthy (pd_imageData pd)); simpl;
      (destruct (Js.truthy (pd_uploadDate pd)); simpl;
       [destruct (to_iso e _); simpl; [|done]|];
       rewrite Hdb; simpl; unfold mem_find_database;
       by destruct (List.find _ (ms_databases (notion s)))). }
  exists (map (photo_json e)
            (Js.sort (later_first "UploadDate")
               (map snd (List.filter (owned db user) (ms_pages (notion s')))))),
    (photo_json e pg).
  split.
  { apply (get_photos_mem e s' db user); try done. subst s'. by rewrite Hsess. }
  split.
  { apply list_elem_of_fmap_2. rewrite JsProofs.sort_perm.
    apply list_elem_of_fmap. exists (db, pg). split; [done|].
    apply list_elem_of_In, filter_In. split.
    - apply list_elem_of_In. subst s'. rewrite Hpages. apply elem_of_app. right.
      apply list_elem_of_here.
    - unfold owned. simpl. rewrite String.eqb_refl, Hlive, Howner. simpl.
      by rewrite bool_decide_eq_true_2. }
  assert (pj_imageKey (photo_json e pg) = image_key e) as Hjson.
  { unfold photo_json. cbn [pj_imageKey]. rewrite Hkey. cbn [rich_text_of].
    rewrite (proj2 (JsProofs.eqb_empty _) (image_key_not_empty e)).
    cbn [Js.or_else].
    by rewrite (proj2 (JsProofs.eqb_empty _) (image_key_not_empty e)). }
  split; [done|]. split; [by simpl; rewrite Hcat; apply or_else_again|].
  split; [done|]. split.
  { simpl in *. by rewrite Hjson. }
  intros mimeType base64Data Hdata Hmime _ Hline. rewrite Hjson.
  rewrite get_image_spec. subst s'.
  rewrite (add_photo_blob e pd s db0 Hauth Hinit), Hdata. simpl.
  unfold image_response. rewrite lookup_insert_eq.
  pose proof (data_url_parts mimeType base64Data Hmime Hline) as Hmatch.
  simpl in Hmatch. by rewrite Hmatch.
Qed.

Definition cached_server : server memStore :=
  (initializePhotosDatabase sample_env sample_server).1.

Lemma listing_is_the_users_photos_witness :
  ∃ listed,
    get_photos sample_env (add_photo sample_env sample_upload cached_server).1
    = ((add_photo sample_env sample_upload cached_server).1, inr (PhotosJson listed))
    ∧ map pj_id listed ≡ₚ ["page-1"].
Proof.
  destruct (listing_is_the_users_photos sample_env
              (add_photo sample_env sample_upload cached_server).1 "db-0" "user-1")
    as [(listed & Hlisted & Hids & _) _].
  - reflexivity.
  - discriminate.
  - by eexists.
  - reflexivity.
  - discriminate.
  - exists listed. split; [exact Hlisted|exact Hids].
Defined.

Lemma uploaded_photo_is_listed_witness :
  ∃ listed pj,
    get_photos sample_env (add_photo sample_env sample_upload cached_server).1
    = ((add_photo sample_env sample_upload cached_server).1, inr (PhotosJson listed))
    ∧ pj ∈ listed ∧ pj_id pj = "page-1"
    ∧ pj_downloadURL pj = "/api/images/photo_1723600000000_k3j9x2m1q"
    ∧ (get_image (pj_imageKey pj)
         (add_photo sample_env sample_upload cached_server).1).2
      = inr (json 200 (ImageBytes "image/png" (Buffer_from_base64 "iVBORw0KGgo=")
                         "public, max-age=31536000")).
Proof.
  destruct (uploaded_photo_is_listed sample_env sample_upload cached_server
              "db-0" "user-1" "page-1")
    as (listed & pj & Hlisted & Hin & Hid & _ & _ & Hurl & Hserved).
  - reflexivity.
  - discriminate.
  - reflexivity.
  - discriminate.
  - reflexivity.
  - exists listed, pj. split; [exact Hlisted|]. split; [exact Hin|].
    split; [exact Hid|]. split; [exact Hurl|].
    apply (Hserved "image/png" "iVBORw0KGgo=").
    + reflexivity.
    + split; [discriminate|reflexivity].
    + by exists "png".
    + split; [discriminate|reflexivity].
Defined.

(** *** Downloading and renaming *)

#[local] Set Warnings "-clear-no-such-hyp".

Definition has_id (id : string) (entry : string * page) : bool :=
  String.eqb (page_id entry.2) id.

Lemma find_fresh (id : string) (pages : list (string * page)) (entry : string * page) :
  Forall (λ x, page_id x.2 ≠ id) pages → page_id entry.2 = id →
  List.find (has_id id) (pages ++ [entry]) = Some entry.
Proof.
  intros Hfresh Hid. induction Hfresh as [|x pages Hx _ IH]; simpl.
  - unfold has_id. by rewrite Hid, String.eqb_refl.
  - unfold has_id at 1. by destruct (String.eqb_spec (page_id x.2) id).
Qed.

Lemma find_archived (id : string) (pages : list (string * page)) :
  List.find (has_id id) (map (mem_archive id) pages)
  = mem_archive id <$> List.find (has_id id) pages.
Proof.
  induction pages as [|x pages IH]; simpl; [done|].
  unfold has_id at 1 3, mem_archive at 1.
  destruct (String.eqb_spec (page_id x.2) id) as [Heq|Hne]; simpl.
  - unfold has_id. simpl. rewrite Heq, String.eqb_refl. simpl.
    unfold mem_archive. by rewrite Heq, String.eqb_refl.
  - unfold has_id. simpl. destruct (String.eqb_spec (page_id x.2) id); [done|].
    apply IH.
Qed.

(** [DELETE /api/photos/:id] of a record that is not archived, on the
    reference store. *)
Lemma delete_photo_mem (id : string) (s : server memStore) (entry : string * page) :
  Js.truthy (userId (session s)) = true →
  List.find (has_id id) (ms_pages (notion s)) = Some entry →
  page_archived entry.2 = false →
  ms_pages (notion (delete_photo id s).1) = map (mem_archive id) (ms_pages (notion s)).
Proof.
  intros Hauth Hfind Hlive. unfold delete_photo. run_handler. rewrite Hauth. simpl.
  unfold has_id in Hfind. rewrite Hfind. simpl. rewrite Hlive. simpl.
  by rewrite Hfind.
Qed.

(** X28.  On the reference store a logged-in client uploads a photo as a
    data URL of an image type ([image/...]), under an original name that
    can stand in a header, and a logged-in client deletes it.  The
    record is then archived, and [GET /api/download/:photoId] still sends
    the file, with its type, its original name and its bytes, to every
    logged-in client: the handler reads the record whether or not it is
    archived, compares no owner, and the payload is still in the blob
    cache.  (The identifier the store gives the record is taken to be
    new and not of the form of an image key.) *)
Theorem deleted_photo_still_downloads :
  ∀ (e : env) (pd : photoData) (s : server memStore)
    (db user id mimeType base64Data : string) (deleter reader : sessionData),
    photosDatabaseId s = Some db → db ≠ "" →
    userId (session s) = Some user → user ≠ "" →
    (add_photo e pd s).2 = inr (json 200 (IdJson id)) →
    pd_imageData pd = Some ("data:" ++ mimeType ++ ";base64," ++ base64Data)%string →
    mime_type mimeType → image_type mimeType → one_line base64Data →
    header_safe (Js.or_else (pd_originalName pd) (Js.or_else (pd_fileName pd) "unknown")) →
    Forall (λ entry, page_id entry.2 ≠ id) (ms_pages (notion s)) →
    id ≠ image_key e →
    Js.truthy (userId deleter) = true → Js.truthy (userId reader) = true →
    let s1 := (add_photo e pd s).1 in
    let s2 := (delete_photo id (with_session deleter s1)).1 in
    (∃ entry, List.find (has_id id) (ms_pages (notion s2)) = Some entry
              ∧ page_archived entry.2 = true)
    ∧ (download_photo id (with_session reader s2)).2
      = inr (Attachment mimeType
               (Js.or_else (pd_originalName pd) (Js.or_else (pd_fileName pd) "unknown"))
               (Buffer_from_base64 base64Data)).
Proof.
  intros e pd s db user id mimeType base64Data deleter reader Hdb Hne Huser Hune Hok
    Hdata Hmime _ Hline Hsafe Hfresh Hkeys Hdel Hread s1 s2.
  destruct (add_photo_mem e pd s db user id Hdb Hne Huser Hune Hok)
    as (pg & Hpages & _ & _ & _ & Hid & Hlive & _ & Hkey & _ & Hname).
  destruct (add_photo_answered e pd s id Hok) as (Hauth & db0 & Hinit).
  assert (List.find (has_id id) (ms_pages (notion s1)) = Some (db, pg)) as Hfound.
  { subst s1. rewrite Hpages. by apply find_fresh. }
  assert (ms_pages (notion s2) = map (mem_archive id) (ms_pages (notion s1))) as Hpages2.
  { subst s2. by rewrite (delete_photo_mem id (with_session deleter s1) (db, pg)). }
  assert (List.find (has_id id) (ms_pages (notion s2)) = Some (mem_archive id (db, pg)))
    as Hfound2.
  { by rewrite Hpages2, find_archived, Hfound. }
  assert (mem_archive id (db, pg)
          = (db, {| page_id := id; page_archived := true;
                    page_properties := page_properties pg |})) as Harchived.
  { unfold mem_archive. simpl. by rewrite Hid, String.eqb_refl. }
  rewrite Harchived in Hfound2.
  split; [by eexists|].
  assert (imageStore s2 !! image_key e
          = Some ("data:" ++ mimeType ++ ";base64," ++ base64Data)%string) as Hblob.
  { subst s2. rewrite delete_photo_other_keys by done. simpl. subst s1.
    rewrite (add_photo_blob e pd s db0 Hauth Hinit), Hdata. simpl.
    by rewrite lookup_insert_eq. }
  pose proof (image_key_not_empty e) as Hkeyne.
  clear Hkeys Hfound Hpages Hpages2. clearbody s2.
  set (key := image_key e) in *. clearbody key.
  unfold download_photo. run_handler. rewrite Hread. simpl.
  unfold has_id in Hfound2. rewrite Hfound2. simpl. rewrite Hkey. simpl.
  rewrite (proj2 (JsProofs.eqb_empty key) Hkeyne). simpl.
  rewrite (proj2 (JsProofs.eqb_empty key) Hkeyne). simpl.
  rewrite Hblob. simpl.
  pose proof (data_url_parts mimeType base64Data Hmime Hline) as Hmatch.
  simpl in Hmatch. rewrite Hmatch. simpl. rewrite Hname. simpl.
  assert (Js.or_else (pd_originalName pd) (Js.or_else (pd_fileName pd) "unknown") ≠ "")
    as Hfull.
  { unfold Js.or_else. destruct (pd_originalName pd) as [x|].
    - destruct (String.eqb_spec x ""); [|done].
      destruct (pd_fileName pd) as [y|]; [|done]. by destruct (String.eqb_spec y "").
    - destruct (pd_fileName pd) as [y|]; [|done]. by destruct (String.eqb_spec y ""). }
  unfold header_safe in Hsafe.
  set (name := Js.or_else (pd_originalName pd) (Js.or_else (pd_fileName pd) "unknown"))
    in *. clearbody name.
  rewrite (proj2 (JsProofs.eqb_empty name) Hfull). simpl.
  rewrite (proj2 (JsProofs.eqb_empty name) Hfull). by rewrite Hsafe.
Qed.

Lemma deleted_photo_still_downloads_witness :
  let s1 := (add_photo sample_env sample_upload cached_server).1 in
  let bob := {| userId := Some "user-2"; username := Some "bob" |} in
  let s2 := (delete_photo "page-1" (with_session bob s1)).1 in
  (download_photo "page-1" (with_session bob s2)).2
  = inr (Attachment "image/png" "beach.png" (Buffer_from_base64 "iVBORw0KGgo=")).
Proof.
  intros s1 bob s2.
  apply (deleted_photo_still_downloads sample_env sample_upload cached_server
           "db-0" "user-1" "page-1" "image/png" "iVBORw0KGgo=" bob bob);
    try reflexivity; try discriminate.
  - split; [discriminate|reflexivity].
  - by exists "png".
  - split; [discriminate|reflexivity].
  - constructor.
Defined.

Lemma find_set_properties (id : string) (properties : gmap string prop)
    (pages : list (string * page)) :
  List.find (has_id id) (map (mem_set_properties id properties) pages)
  = mem_set_properties id properties <$> List.find (has_id id) pages.
Proof.
  induction pages as [|x pages IH]; simpl; [done|].
  unfold has_id at 1 3, mem_set_properties at 1.
  destruct (String.eqb_spec (page_id x.2) id) as [Heq|Hne]; simpl.
  - unfold has_id. simpl. rewrite Heq, String.eqb_refl. simpl.
    unfold mem_set_properties. by rewrite Heq, String.eqb_refl.
  - unfold has_id. simpl. destruct (String.eqb_spec (page_id x.2) id); [done|].
    apply IH.
Qed.

(** The properties [PUT /api/photos/:id] sends to the store, one key at
    a time. *)
Lemma update_properties_lookup (updates : updateBody) :
  update_properties updates !! "Name"
  = (if Js.truthy (u_fileName updates)
     then Some (PTitle (default "" (u_fileName updates))) else None)
  ∧ update_properties updates !! "Category"
    = (if Js.truthy (u_category updates)
       then Some (PSelect (default "" (u_category updates))) else None)
  ∧ update_properties updates !! "Tags" = PMultiSelect <$> u_tags updates
  ∧ ∀ k, k ∉ ["Name"; "Category"; "Tags"] → update_properties updates !! k = None.
Proof.
  unfold update_properties. repeat split.
  - destruct (u_tags updates); destruct (Js.truthy (u_category updates));
      destruct (Js.truthy (u_fileName updates));
      by rewrite ?lookup_insert_ne, ?lookup_insert_eq, ?lookup_empty by done.
  - destruct (u_tags updates); destruct (Js.truthy (u_category updates));
      destruct (Js.truthy (u_fileName updates));
      by rewrite ?lookup_insert_ne, ?lookup_insert_eq, ?lookup_empty by done.
  - destruct (u_tags updates); destruct (Js.truthy (u_category updates));
      destruct (Js.truthy (u_fileName updates));
      by rewrite ?lookup_insert_ne, ?lookup_insert_eq, ?lookup_empty by done.
  - intros k Hk.
    assert (k ≠ "Name" ∧ k ≠ "Category" ∧ k ≠ "Tags") as (Hn & Hc & Ht).
    { repeat split; intros ->; apply Hk; set_solver. }
    destruct (u_tags updates); destruct (Js.truthy (u_category updates));
      destruct (Js.truthy (u_fileName updates));
      by rewrite ?lookup_insert_ne, ?lookup_empty by done.
Qed.

Lemma lookup_union_first (m1 m2 : gmap string prop) (k : string) :
  (m1 ∪ m2) !! k = match m1 !! k with Some v => Some v | None => m2 !! k end.
Proof. rewrite lookup_union. by destruct (m1 !! k), (m2 !! k). Qed.

(** X29.  [PUT /api/photos/:id] on the reference store, for a logged-in
    client and a record of the store: the answer is success, and of the
    record only the properties Name, Category and Tags can change, each
    only if its field is sent: Name becomes the file name sent and is
    kept when none (or an empty one) is sent, Category likewise, and
    Tags become the tags sent and are kept when none are sent.  So a new
    file name changes the name listed as [fileName] and leaves
    [originalName], the key of the image and the owner as they were; the
    owner is not compared with the session. *)
Theorem update_changes_three_properties_only :
  ∀ (e : env) (id : string) (updates : updateBody) (s : server memStore)
    (entry : string * page),
    Js.truthy (userId (session s)) = true →
    List.find (has_id id) (ms_pages (notion s)) = Some entry →
    let s' := (update_photo id updates s).1 in
    (update_photo id updates s).2 = inr (json 200 SuccessJson)
    ∧ ∃ pg',
        List.find (has_id id) (ms_pages (notion s')) = Some (entry.1, pg')
        ∧ page_id pg' = page_id entry.2
        ∧ page_archived pg' = page_archived entry.2
        ∧ (∀ k, k ∉ ["Name"; "Category"; "Tags"] →
             page_properties pg' !! k = page_properties entry.2 !! k)
        ∧ page_properties pg' !! "Name"
          = (if Js.truthy (u_fileName updates)
             then Some (PTitle (default "" (u_fileName updates)))
             else page_properties entry.2 !! "Name")
        ∧ page_properties pg' !! "Category"
          = (if Js.truthy (u_category updates)
             then Some (PSelect (default "" (u_category updates)))
             else page_properties entry.2 !! "Category")
        ∧ page_properties pg' !! "Tags"
          = match u_tags updates with
            | Some tags => Some (PMultiSelect tags)
            | None => page_properties entry.2 !! "Tags"
            end
        ∧ pj_originalName (photo_json e pg') = pj_originalName (photo_json e entry.2)
        ∧ pj_imageKey (photo_json e pg') = pj_imageKey (photo_json e entry.2)
        ∧ (∀ name, u_fileName updates = Some name → name ≠ "" →
             pj_fileName (photo_json e pg') = name)
        ∧ (u_fileName updates = None →
           pj_fileName (photo_json e pg') = pj_fileName (photo_json e entry.2)).
Proof.
  intros e id updates s entry Hauth Hfind s'. subst s'.
  unfold update_photo. run_handler. rewrite Hauth. simpl.
  pose proof Hfind as Hfind'. unfold has_id in Hfind'. rewrite Hfind'. simpl.
  split; [done|].
  exists {| page_id := page_id entry.2; page_archived := page_archived entry.2;
            page_properties := update_properties updates ∪ page_properties entry.2 |}.
  assert (page_id entry.2 = id) as Hid.
  { apply find_some in Hfind as [_ Hid]. unfold has_id in Hid.
    by apply String.eqb_eq in Hid. }
  split.
  { fold (has_id id). rewrite find_set_properties, Hfind. simpl.
    unfold mem_set_properties. by rewrite Hid, String.eqb_refl. }
  split; [done|]. split; [done|]. cbn [page_properties].
  destruct (update_properties_lookup updates) as (Hname & Hcategory & Htags & Hother).
  assert (∀ k, k ∉ ["Name"; "Category"; "Tags"] →
               (update_properties updates ∪ page_properties entry.2) !! k
               = page_properties entry.2 !! k) as Hframe.
  { intros k Hk. by rewrite lookup_union_first, (Hother k Hk). }
  assert ((update_properties updates ∪ page_properties entry.2) !! "Name"
          = (if Js.truthy (u_fileName updates)
             then Some (PTitle (default "" (u_fileName updates)))
             else page_properties entry.2 !! "Name")) as Hname'.
  { rewrite lookup_union_first, Hname. by destruct (Js.truthy (u_fileName updates)). }
  split; [done|]. split; [done|]. split.
  { rewrite lookup_union_first, Hcategory.
    by destruct (Js.truthy (u_category updates)). }
  split.
  { rewrite lookup_union_first, Htags. by destruct (u_tags updates). }
  unfold photo_json. cbn [pj_originalName pj_imageKey pj_fileName page_properties].
  split; [by rewrite Hframe by set_solver|]. split; [by rewrite Hframe by set_solver|].
  rewrite Hname'. split.
  - intros name Hsent Hne. rewrite Hsent. simpl.
    rewrite (proj2 (JsProofs.eqb_empty name) Hne). simpl.
    rewrite (proj2 (JsProofs.eqb_empty name) Hne). simpl.
    by rewrite (proj2 (JsProofs.eqb_empty name) Hne).
  - intros Hnone. by rewrite Hnone.
Qed.

Lemma update_changes_three_properties_only_witness :
  let renamed := {| u_fileName := Some "shore.png"; u_category := None;
                    u_tags := None |} in
  let s1 := (add_photo sample_env sample_upload cached_server).1 in
  let s2 := (update_photo "page-1" renamed s1).1 in
  map (λ pj, (pj_fileName pj, pj_originalName pj, pj_category pj, pj_tags pj))
    match (get_photos sample_env s2).2 with
    | inr (PhotosJson listed) => listed
    | _ => []
    end
  = [("shore.png", "beach.png", "travel", [])]
  ∧ (update_photo "page-1" renamed s1).2 = inr (json 200 SuccessJson).
Proof.
  intros renamed s1 s2. split; [reflexivity|].
  destruct (List.find (has_id "page-1") (ms_pages (notion s1))) as [entry|] eqn:Hfind;
    [|by vm_compute in Hfind].
  by apply (update_changes_three_properties_only sample_env "page-1" renamed s1 entry).
Defined.

End ServerProofs.

(** ** Upload queue manager *)

Module UploadProofs.
Import Upload.

#[local] Open Scope list_scope.
#[local] Open Scope Z_scope.

(** An item as [uploadFile] holds it while suspended. *)
Definition started (item : uploadItem) : uploadItem :=
  set_progress 10 (set_status Uploading item).

Definition quiet (ns : list notification) : Prop :=
  ∀ t c f, NAllComplete t c f ∉ ns.

Lemma quiet_nil : quiet [].
Proof. intros t c f Hin. by apply elem_of_nil in Hin. Qed.

Lemma quiet_app (ns ns' : list notification) : quiet ns → quiet ns' → quiet (ns ++ ns').
Proof.
  intros H1 H2 t c f Hin. apply elem_of_app in Hin as [Hin|Hin].
  - by apply (H1 t c f).
  - by apply (H2 t c f).
Qed.

Lemma quiet_cons (n : notification) (ns : list notification) :
  (∀ t c f, n ≠ NAllComplete t c f) → quiet ns → quiet (n :: ns).
Proof.
  intros Hn Hns t c f Hin. apply elem_of_cons in Hin as [Heq|Hin].
  - by apply (Hn t c f).
  - by apply (Hns t c f).
Qed.

(** What one run of the loop of [processQueue] does: it moves the first
    [k] queued items into flight, and stops with the queue empty or the
    counter at the cap. *)
Record admits (q : list uploadItem) (m m' : manager) (k : nat) : Prop := {
  adm_bound : (k ≤ length q)%nat;
  adm_queue : queue m' = drop k q;
  adm_inFlight : inFlight m' = inFlight m ++ map started (take k q);
  adm_active : activeUploads m' = activeUploads m + Z.of_nat k;
  adm_cap : activeUploads m' ≤ Z.max (activeUploads m) (maxConcurrentUploads m);
  adm_max : maxConcurrentUploads m' = maxConcurrentUploads m;
  adm_total : totalFiles m' = totalFiles m;
  adm_completed : completedFiles m' = completedFiles m;
  adm_failed : failedFiles m' = failedFiles m;
  adm_settled : settled m' = settled m
}.

Lemma process_admits (q : list uploadItem) (m : manager) :
  queue m = q →
  (∃ k, admits q m (process q m).1 k) ∧ quiet (process q m).2.
Proof.
  revert m. induction q as [|item rest IH]; intros m Hq; simpl.
  { split; [|apply quiet_nil]. exists 0%nat.
    split; simpl; rewrite ?app_nil_r; try done; lia. }
  destruct (activeUploads m <? maxConcurrentUploads m) eqn:Hlt.
  - apply Z.ltb_lt in Hlt.
    set (m2 := {| queue := rest; activeUploads := activeUploads m + 1;
                  maxConcurrentUploads := maxConcurrentUploads m;
                  totalFiles := totalFiles m; completedFiles := completedFiles m;
                  failedFiles := failedFiles m;
                  abortControllers := {[item_id item]} ∪ abortControllers m;
                  inFlight := inFlight m ++ [set_progress 10 (set_status Uploading item)];
                  settled := settled m |}).
    destruct (IH m2 eq_refl) as [[k Hk] Hquiet].
    destruct (process rest m2) as [m3 ns'] eqn:Hrun. simpl in *.
    split.
    + exists (S k). destruct Hk. split; simpl in *; try done; try lia.
      by rewrite adm_inFlight0, <- app_assoc.
    + apply quiet_cons; [done|]. by apply quiet_cons.
  - apply Z.ltb_ge in Hlt. split; [|apply quiet_nil]. exists 0%nat.
    split; simpl; rewrite ?app_nil_r; try done; lia.
Qed.

Lemma count_status_app (st : status) (l l' : list uploadItem) :
  count_status st (l ++ l') = count_status st l + count_status st l'.
Proof. unfold count_status. rewrite List.filter_app, length_app. lia. Qed.

Lemma count_status_none (st : status) (l : list uploadItem) :
  Forall (λ it, item_status it ≠ st) l → count_status st l = 0.
Proof.
  unfold count_status. induction 1 as [|it l Hit _ IH]; simpl; [done|].
  by rewrite bool_decide_eq_false_2.
Qed.

Lemma count_status_all (st : status) (l : list uploadItem) :
  Forall (λ it, item_status it = st) l → count_status st l = Z.of_nat (length l).
Proof.
  unfold count_status. induction 1 as [|it l Hit _ IH]; simpl; [done|].
  rewrite bool_decide_eq_true_2 by done. simpl. lia.
Qed.

Lemma count_status_singleton (st : status) (it : uploadItem) :
  count_status st [it] = if bool_decide (item_status it = st) then 1 else 0.
Proof. unfold count_status. simpl. by case_bool_decide. Qed.

Lemma count_terminal (l : list uploadItem) :
  Forall (λ it, terminal it = true) l →
  count_status Completed l + count_status Failed l = Z.of_nat (length l).
Proof.
  unfold count_status, terminal.
  induction 1 as [|it l Hit _ IH]; simpl; [done|].
  destruct (item_status it); simpl in *; try done; lia.
Qed.

Lemma terminal_not (st : status) (l : list uploadItem) :
  st = Pending ∨ st = Uploading →
  Forall (λ it, item_status it = st) l → l ≠ [] → forallb terminal l = false.
Proof.
  intros Hst Hl Hne. destruct Hl as [|it l Hit _]; [done|].
  simpl. unfold terminal at 1. rewrite Hit. by destruct Hst as [-> | ->].
Qed.

(** The counter stays within the cap whatever is done to the manager. *)
Record capped (m : manager) : Prop := {
  cap_max : maxConcurrentUploads m = 3;
  cap_active : activeUploads m ≤ 3
}.

(** While files are only added, started and uploaded, the counters of
    the manager count the items. *)
Record counted (m : manager) : Prop := {
  cnt_max : maxConcurrentUploads m = 3;
  cnt_active : activeUploads m = Z.of_nat (length (inFlight m));
  cnt_queue : Forall (λ it, item_status it = Pending) (queue m);
  cnt_inFlight : Forall (λ it, item_status it = Uploading) (inFlight m);
  cnt_settled : Forall (λ it, terminal it = true) (settled m);
  cnt_total : totalFiles m = Z.of_nat (length (batch m));
  cnt_completed : completedFiles m = count_status Completed (settled m);
  cnt_failed : failedFiles m = count_status Failed (settled m)
}.

Lemma capped_processQueue (m : manager) : capped m → capped (processQueue m).1.
Proof.
  intros [Hmax Hact]. destruct (process_admits (queue m) m eq_refl) as [[k Hk] _].
  unfold processQueue. destruct Hk. split; [congruence|lia].
Qed.

Lemma counted_processQueue (m : manager) :
  counted m → activeUploads m ≤ 3 → counted (processQueue m).1.
Proof.
  intros [] Hcap. destruct (process_admits (queue m) m eq_refl) as [[k Hk] _].
  unfold processQueue. destruct Hk.
  assert (length (take k (queue m)) = k) as Htake by (rewrite length_take; lia).
  split.
  - congruence.
  - rewrite adm_active0, adm_inFlight0, length_app, length_map, Htake. lia.
  - rewrite adm_queue0. by apply Forall_drop.
  - rewrite adm_inFlight0. apply Forall_app. split; [done|].
    apply Forall_fmap, Forall_forall. done.
  - by rewrite adm_settled0.
  - rewrite adm_total0, cnt_total0. unfold batch.
    rewrite adm_queue0, adm_inFlight0, adm_settled0.
    rewrite !length_app, length_map, length_drop, Htake. lia.
  - by rewrite adm_completed0, adm_settled0.
  - by rewrite adm_failed0, adm_settled0.
Qed.

Lemma counted_init : counted init.
Proof. split; simpl; try done; apply Forall_nil_2. Qed.

Lemma counted_addFiles (files : list fileInput) (m : manager) :
  counted m → counted (addFiles files m).1.
Proof.
  intros []. split; simpl; try done.
  - apply Forall_app. split; [done|]. apply Forall_fmap, Forall_forall. done.
  - rewrite cnt_total0. unfold batch. simpl. rewrite !length_app. lia.
Qed.

Lemma final_item_terminal (item : uploadItem) (o : outcome) :
  terminal (final_item item o) = true.
Proof. by destruct o. Qed.

Lemma final_item_status (item : uploadItem) (o : outcome) :
  item_status (final_item item o) = if succeeded o then Completed else Failed.
Proof. by destruct o. Qed.

(** The manager inside [handleUploadComplete], just before it calls
    [processQueue]. *)
Definition before_continue (item : uploadItem) (success : bool) (m : manager) : manager :=
  {| queue := queue m;
     activeUploads := activeUploads m - 1;
     maxConcurrentUploads := maxConcurrentUploads m;
     totalFiles := totalFiles m;
     completedFiles := if success then completedFiles m + 1 else completedFiles m;
     failedFiles := if success then failedFiles m else failedFiles m + 1;
     abortControllers := abortControllers m ∖ {[item_id item]};
     inFlight := inFlight m;
     settled := settled m ++ [item] |}.

Lemma resume_until_check_eq (item : uploadItem) (o : outcome) (m : manager) :
  resume_until_check item o m
  = ((processQueue (before_continue (final_item item o) (succeeded o) m)).1,
     marks_passed item o
     ++ NComplete (final_item item o)
        :: (processQueue (before_continue (final_item item o) (succeeded o) m)).2).
Proof.
  unfold resume_until_check, complete_and_continue. fold (before_continue (final_item item o) (succeeded o) m).
  by destruct (processQueue _).
Qed.

Lemma counted_before_continue (k : nat) (item : uploadItem) (o : outcome) (m : manager) :
  counted m → inFlight m !! k = Some item →
  counted (before_continue (final_item item o) (succeeded o) (take_inFlight k m)).
Proof.
  intros [] Hk.
  assert (k < length (inFlight m))%nat as Hlt by (by eapply lookup_lt_Some).
  assert (length (delete k (inFlight m)) = (length (inFlight m) - 1)%nat) as Hlen.
  { rewrite length_delete; [lia|by eexists]. }
  split; simpl; try done.
  - rewrite Hlen. lia.
  - by apply Forall_delete.
  - apply Forall_app. split; [done|]. apply Forall_singleton, final_item_terminal.
  - rewrite cnt_total0. unfold batch. simpl.
    rewrite !length_app, Hlen. simpl. lia.
  - rewrite count_status_app, cnt_completed0, count_status_singleton, final_item_status.
    destruct (succeeded o); case_bool_decide; try done; lia.
  - rewrite count_status_app, cnt_failed0, count_status_singleton, final_item_status.
    destruct (succeeded o); case_bool_decide; try done; lia.
Qed.

(** With the counters counting the items, the test of
    [handleUploadComplete] holds exactly when every item of the batch is
    completed or failed. *)
Lemma counted_test (m : manager) :
  counted m →
  (completedFiles m + failedFiles m =? totalFiles m) = forallb terminal (batch m).
Proof.
  intros [].
  pose proof (count_terminal _ cnt_settled0) as Hsum.
  rewrite cnt_completed0, cnt_failed0, cnt_total0, Hsum. unfold batch.
  rewrite !length_app, !forallb_app.
  destruct (queue m) as [|it q] eqn:Hq.
  - destruct (inFlight m) as [|it' fl] eqn:Hfl.
    + simpl. rewrite Z.eqb_refl. symmetry. apply forallb_forall.
      intros x Hx. apply list_elem_of_In in Hx.
      by apply (proj1 (Forall_forall _ _) cnt_settled0).
    + rewrite (terminal_not Uploading (it' :: fl)); [|by right|done|done].
      simpl. apply Z.eqb_neq. lia.
  - rewrite (terminal_not Pending (it :: q)); [|by left|done|done].
    simpl. apply Z.eqb_neq. lia.
Qed.

Lemma counted_done (m : manager) :
  counted m → forallb terminal (batch m) = true →
  queue m = [] ∧ inFlight m = [].
Proof.
  intros [] Hall. unfold batch in Hall. rewrite !forallb_app in Hall.
  apply andb_true_iff in Hall as [Hq Hrest]. apply andb_true_iff in Hrest as [Hfl _].
  split.
  - destruct (queue m) eqn:E; [done|].
    rewrite (terminal_not Pending) in Hq; [done|by left|done|done].
  - destruct (inFlight m) eqn:E; [done|].
    rewrite (terminal_not Uploading) in Hfl; [done|by right|done|done].
Qed.

Lemma counted_batch_counts (m : manager) :
  counted m →
  totalFiles m = Z.of_nat (length (batch m))
  ∧ completedFiles m = count_status Completed (batch m)
  ∧ failedFiles m = count_status Failed (batch m).
Proof.
  intros []. split; [done|]. unfold batch. rewrite !count_status_app.
  rewrite (count_status_none Completed (queue m)), (count_status_none Completed (inFlight m)),
    (count_status_none Failed (queue m)), (count_status_none Failed (inFlight m)).
  - split; [rewrite cnt_completed0|rewrite cnt_failed0]; lia.
  - eapply Forall_impl; [done|]. by intros it ->.
  - eapply Forall_impl; [done|]. by intros it ->.
  - eapply Forall_impl; [done|]. by intros it ->.
  - eapply Forall_impl; [done|]. by intros it ->.
Qed.

Lemma counted_check_all_complete (m : manager) :
  counted m → counted (check_all_complete m).1.
Proof.
  intros Hm. unfold check_all_complete. rewrite (counted_test m Hm).
  destruct (forallb terminal (batch m)) eqn:Hall; [|done].
  destruct (counted_done m Hm Hall) as [_ Hfl]. destruct Hm.
  split; unfold batch; simpl; rewrite ?Hfl; try done; apply Forall_nil_2.
Qed.

Lemma capped_reset (m : manager) : capped m → capped (reset m).
Proof. intros []. by split. Qed.

Lemma capped_check_all_complete (m : manager) : capped m → capped (check_all_complete m).1.
Proof.
  intros Hm. unfold check_all_complete.
  destruct (_ =? _); [by apply capped_reset|done].
Qed.

Lemma uploadFile_resume_eq (item : uploadItem) (o : outcome) (m : manager) :
  uploadFile_resume item o m
  = ((check_all_complete (resume_until_check item o m).1).1,
     (resume_until_check item o m).2
     ++ (check_all_complete (resume_until_check item o m).1).2).
Proof.
  unfold uploadFile_resume. destruct (resume_until_check item o m) as [m1 ns1].
  simpl. by destruct (check_all_complete m1).
Qed.

Lemma capped_step (m : manager) (ev : event) (r : manager * list notification) :
  capped m → step m ev = Some r → capped r.1.
Proof.
  intros Hm Hstep. destruct ev as [files| |k o|itemId| |]; simpl in Hstep.
  - injection Hstep as <-. by destruct Hm.
  - injection Hstep as <-. unfold startUpload.
    destruct (queue m) eqn:Hq; [done|].
    pose proof (capped_processQueue m Hm). by destruct (processQueue m).
  - destruct (inFlight m !! k) as [item|]; [|done]. simpl in Hstep.
    injection Hstep as <-. rewrite uploadFile_resume_eq, resume_until_check_eq. simpl.
    apply capped_check_all_complete, capped_processQueue.
    destruct Hm. split; simpl; [done|lia].
  - injection Hstep as <-. by destruct Hm.
  - injection Hstep as <-. by apply capped_reset.
  - injection Hstep as <-. apply capped_processQueue. by destruct Hm.
Qed.

Lemma retry_pending (q : list uploadItem) :
  Forall (λ it, item_status it = Pending) q → map retry_item q = q.
Proof.
  induction 1 as [|it q Hit _ IH]; simpl; [done|].
  unfold retry_item at 1. rewrite Hit, IH. done.
Qed.

Lemma counted_reset (m : manager) :
  counted m → inFlight m = [] → counted (reset m).
Proof.
  intros [] Hfl. split; unfold batch; simpl; rewrite ?Hfl; try done; apply Forall_nil_2.
Qed.

Lemma counted_step (m : manager) (ev : event) (r : manager * list notification) :
  counted m → capped m → orderly m ev = true → step m ev = Some r → counted r.1.
Proof.
  intros Hm Hcap Hev Hstep. destruct ev as [files| |k o|itemId| |]; try done;
    simpl in Hstep.
  - injection Hstep as <-. by apply counted_addFiles.
  - injection Hstep as <-. unfold startUpload.
    destruct (queue m) eqn:Hq; [done|].
    pose proof (counted_processQueue m Hm (cap_active m Hcap)).
    by destruct (processQueue m).
  - destruct (inFlight m !! k) as [item|] eqn:Hk; [|done]. simpl in Hstep.
    injection Hstep as <-. rewrite uploadFile_resume_eq, resume_until_check_eq. simpl.
    apply counted_check_all_complete, counted_processQueue.
    + by apply counted_before_continue.
    + simpl. destruct Hcap. lia.
  - injection Hstep as <-. apply counted_reset; [done|].
    by apply bool_decide_eq_true in Hev.
  - injection Hstep as <-. unfold retryFailedUploads.
    rewrite (retry_pending (queue m) (cnt_queue m Hm)).
    apply counted_processQueue; [by destruct Hm|apply Hcap].
Qed.

Lemma capped_run (evs : list event) (m m' : manager) :
  capped m → run m evs = Some m' → capped m'.
Proof.
  revert m. induction evs as [|ev evs IH]; intros m Hm Hrun; simpl in Hrun.
  - by injection Hrun as <-.
  - destruct (step m ev) as [r|] eqn:Hstep; [|done]. simpl in Hrun.
    eapply IH; [|done]. by eapply capped_step.
Qed.

Lemma counted_run (evs : list event) (m m' : manager) :
  counted m → capped m → orderly_run m evs = true →
  run m evs = Some m' → counted m'.
Proof.
  revert m. induction evs as [|ev evs IH]; intros m Hm Hcap Hevs Hrun; simpl in *.
  - by injection Hrun as <-.
  - apply andb_true_iff in Hevs as [Hev Hevs].
    destruct (step m ev) as [r|] eqn:Hstep; [|done]. simpl in Hrun.
    eapply IH; [| |done|done].
    + by eapply counted_step.
    + by eapply capped_step.
Qed.

Lemma capped_init : capped init.
Proof. by split. Qed.

Lemma counted_uploading (m : manager) :
  counted m → count_status Uploading (batch m) = activeUploads m.
Proof.
  intros []. unfold batch. rewrite !count_status_app.
  rewrite (count_status_none Uploading (queue m)),
    (count_status_all Uploading (inFlight m)),
    (count_status_none Uploading (settled m)); [lia| |done|].
  - eapply Forall_impl; [done|]. intros it Ht Hu. unfold terminal in Ht.
    rewrite Hu in Ht. done.
  - eapply Forall_impl; [done|]. by intros it ->.
Qed.

(** What does hold of the counter.  In every state a manager can reach,
    whatever is called on it, [activeUploads] is at most the cap of 3.
    In a run where [cancelAllUploads] is called only while no upload is
    suspended and [cancelUpload] is not called, the counter is the number
    of items whose status is uploading.  And when an upload ends, the
    loop of [processQueue] moves the first [a] queued items into flight,
    where [a] is at most the room the ended upload left under the cap. *)
Theorem in_flight_within_cap :
  ∀ (evs : list event) (m : manager),
    run init evs = Some m →
    maxConcurrentUploads m = 3
    ∧ activeUploads m ≤ 3
    ∧ (orderly_run init evs = true →
       count_status Uploading (batch m) = activeUploads m)
    ∧ ∀ (k : nat) (o : outcome) (item : uploadItem),
        inFlight m !! k = Some item →
        ∃ a : nat,
          let m1 := (resume_until_check item o (take_inFlight k m)).1 in
          (a ≤ length (queue m))%nat
          ∧ queue m1 = drop a (queue m)
          ∧ inFlight m1 = delete k (inFlight m) ++ map started (take a (queue m))
          ∧ activeUploads m1 = activeUploads m - 1 + Z.of_nat a
          ∧ Z.of_nat a ≤ 3 - (activeUploads m - 1)
          ∧ activeUploads m1 ≤ 3.
Proof.
  intros evs m Hrun.
  pose proof (capped_run evs init m capped_init Hrun) as [Hmax Hact].
  split; [done|]. split; [done|]. split.
  - intros Hevs. apply counted_uploading.
    by apply (counted_run evs init m counted_init capped_init).
  - intros k o item Hk. rewrite resume_until_check_eq. simpl.
    set (m0 := before_continue (final_item item o) (succeeded o) (take_inFlight k m)).
    destruct (process_admits (queue m0) m0 eq_refl) as [[a Ha] _].
    exists a. unfold processQueue. destruct Ha. simpl in *.
    repeat split; try done; lia.
Qed.

(** Five files, one of them rejected by the validation. *)
Definition sample_files : list fileInput :=
  [{| f_name := "a.png"; f_isValid := true; f_id := "id-a" |};
   {| f_name := "b.png"; f_isValid := true; f_id := "id-b" |};
   {| f_name := "notes.txt"; f_isValid := false; f_id := "id-n" |};
   {| f_name := "c.png"; f_isValid := true; f_id := "id-c" |};
   {| f_name := "d.png"; f_isValid := true; f_id := "id-d" |}].

(** A file is chosen and the choice cancelled.  Then the five files are
    chosen, the upload starts and the first upload to end is the second
    one. *)
Definition sample_events : list event :=
  [AddFiles [{| f_name := "x.png"; f_isValid := true; f_id := "id-x" |}];
   CancelAllUploads;
   AddFiles sample_files; StartUpload; Settle 1 (Stored "page-7")].

Lemma in_flight_within_cap_witness :
  ∃ m, run init sample_events = Some m
       ∧ orderly_run init sample_events = true
       ∧ activeUploads m = 3
       ∧ count_status Uploading (batch m) = activeUploads m.
Proof.
  eexists. split; [reflexivity|]. split; [reflexivity|]. split; [reflexivity|].
  apply (in_flight_within_cap sample_events); reflexivity.
Defined.

(** Outside such runs the counter loses track of the uploads:
    [cancelAllUploads] sets it to 0 while the suspended uploads go on (the
    signal of their [AbortController] is given to no operation), so after
    the next start six items are uploading with the counter at 3. *)
Lemma cancel_while_uploading :
  ∃ m, run init [AddFiles sample_files; StartUpload; CancelAllUploads;
                 AddFiles sample_files; StartUpload] = Some m
       ∧ activeUploads m = 3
       ∧ count_status Uploading (inFlight m) = 6.
Proof. eexists. split; [reflexivity|]. split; reflexivity. Qed.

Definition first_choice : list fileInput :=
  [{| f_name := "x.png"; f_isValid := true; f_id := "id-x" |}].

(** A file is chosen and its upload started; the choice is cancelled
    while that upload is suspended, and the upload ends.  Then the five
    sample files are chosen and their upload started. *)
Definition cancelled_events : list event :=
  [AddFiles first_choice; StartUpload; CancelAllUploads;
   Settle 0 (Stored "page-6");
   AddFiles sample_files; StartUpload].

(** C3.  The cap of 3 does not bound the items that are uploading.
    [cancelAllUploads] aborts the [AbortController] of each upload, but
    the signal is given to no operation of [uploadFile]: the upload that
    is suspended goes on, and when it ends [handleUploadComplete] takes
    the counter, which the cancellation has set to 0, down to -1.  The
    next [startUpload] then starts four items: after the events above
    [activeUploads] is 3, the cap is 3, and the four valid files of the
    batch just started are all in the state uploading at once. *)
Theorem cancelled_upload_breaks_cap :
  ∃ m, run init cancelled_events = Some m
       ∧ maxConcurrentUploads m = 3
       ∧ activeUploads m = 3
       ∧ queue m = []
       ∧ map (λ item, (item_id item, item_status item)) (inFlight m)
         = [("id-a", Uploading); ("id-b", Uploading);
            ("id-c", Uploading); ("id-d", Uploading)]
       ∧ count_status Uploading (batch m) = 4.
Proof. eexists. split; [reflexivity|]. repeat split; reflexivity. Qed.

(** The batch is open: it is empty, or some item of it is still pending
    or uploading. *)
Definition unfinished (m : manager) : Prop :=
  batch m = [] ∨ forallb terminal (batch m) = false.

Definition waiting (m : manager) : nat := length (queue m) + length (inFlight m).

Lemma counted_unfinished (m : manager) :
  counted m → (unfinished m ↔ (0 < waiting m)%nat ∨ settled m = []).
Proof.
  intros Hm. unfold unfinished, waiting. split.
  - intros [Hnil|Hopen].
    + right. unfold batch in Hnil.
      apply app_eq_nil in Hnil as [_ Hnil]. by apply app_eq_nil in Hnil as [_ ?].
    + destruct (queue m) eqn:Hq; [|left; simpl; lia].
      destruct (inFlight m) eqn:Hfl; [|left; simpl; lia].
      exfalso. unfold batch in Hopen. rewrite Hq, Hfl in Hopen. simpl in Hopen.
      apply not_true_iff_false in Hopen. apply Hopen, forallb_forall.
      intros x Hx. apply list_elem_of_In in Hx.
      by apply (proj1 (Forall_forall _ _) (cnt_settled m Hm)).
  - intros [Hlive|Hnone].
    + right. destruct (forallb terminal (batch m)) eqn:Hall; [|done].
      destruct (counted_done m Hm Hall) as [Hq Hfl]. rewrite Hq, Hfl in Hlive.
      simpl in Hlive. lia.
    + destruct (forallb terminal (batch m)) eqn:Hall; [|by right].
      left. destruct (counted_done m Hm Hall) as [Hq Hfl].
      unfold batch. by rewrite Hq, Hfl, Hnone.
Qed.

Lemma waiting_processQueue (m : manager) :
  waiting (processQueue m).1 = waiting m ∧ settled (processQueue m).1 = settled m.
Proof.
  destruct (process_admits (queue m) m eq_refl) as [[k Hk] _].
  unfold processQueue, waiting. destruct Hk. split; [|done].
  rewrite adm_queue0, adm_inFlight0, length_app, length_map, length_drop, length_take.
  lia.
Qed.

Lemma unfinished_check_all_complete (m : manager) :
  counted m → unfinished (check_all_complete m).1.
Proof.
  intros Hm. unfold check_all_complete. rewrite (counted_test m Hm).
  destruct (forallb terminal (batch m)) eqn:Hall; simpl.
  - left. destruct (counted_done m Hm Hall) as [_ Hfl].
    unfold batch. simpl. by rewrite Hfl.
  - by right.
Qed.

Lemma unfinished_step (m : manager) (ev : event) (r : manager * list notification) :
  counted m → capped m → unfinished m → orderly m ev = true →
  step m ev = Some r → unfinished r.1.
Proof.
  intros Hm Hcap Hopen Hev Hstep.
  pose proof (counted_step m ev r Hm Hcap Hev Hstep) as Hr.
  destruct ev as [files| |k o|itemId| |]; try done; simpl in Hstep.
  - injection Hstep as <-. apply counted_unfinished; [done|].
    apply (counted_unfinished m Hm) in Hopen. unfold waiting in *. simpl.
    rewrite length_app. destruct Hopen; [left; lia|by right].
  - injection Hstep as <-. unfold startUpload in *.
    destruct (queue m) eqn:Hq; [done|].
    destruct (waiting_processQueue m) as [Hw Hs].
    destruct (processQueue m) as [m' ns]. simpl in *.
    apply counted_unfinished; [done|].
    apply (counted_unfinished m Hm) in Hopen. rewrite Hw, Hs. done.
  - destruct (inFlight m !! k) as [item|] eqn:Hk; [|done]. simpl in Hstep.
    injection Hstep as <-. rewrite uploadFile_resume_eq, resume_until_check_eq. simpl.
    apply unfinished_check_all_complete, counted_processQueue.
    + by apply counted_before_continue.
    + simpl. destruct Hcap. lia.
  - injection Hstep as <-. simpl. left. unfold batch. simpl.
    apply bool_decide_eq_true in Hev. by rewrite Hev.
  - injection Hstep as <-. unfold retryFailedUploads in *.
    rewrite (retry_pending (queue m) (cnt_queue m Hm)) in *.
    set (m0 := {| queue := queue m; activeUploads := activeUploads m;
                  maxConcurrentUploads := maxConcurrentUploads m;
                  totalFiles := totalFiles m; completedFiles := completedFiles m;
                  failedFiles := failedFiles m; abortControllers := abortControllers m;
                  inFlight := inFlight m; settled := settled m |}) in *.
    destruct (waiting_processQueue m0) as [Hw Hs].
    apply counted_unfinished; [done|].
    apply (counted_unfinished m Hm) in Hopen. rewrite Hw, Hs. done.
Qed.

Lemma unfinished_run (evs : list event) (m m' : manager) :
  counted m → capped m → unfinished m → orderly_run m evs = true →
  run m evs = Some m' → unfinished m'.
Proof.
  revert m. induction evs as [|ev evs IH]; intros m Hm Hcap Hopen Hevs Hrun; simpl in *.
  - by injection Hrun as <-.
  - apply andb_true_iff in Hevs as [Hev Hevs].
    destruct (step m ev) as [r|] eqn:Hstep; [|done]. simpl in Hrun.
    eapply IH; [| | |done|done].
    + by eapply counted_step.
    + by eapply capped_step.
    + by eapply unfinished_step.
Qed.

Lemma quiet_marks (item : uploadItem) (o : outcome) : quiet (marks_passed item o).
Proof.
  intros t c f Hin. unfold marks_passed in Hin.
  apply list_elem_of_fmap in Hin as (p & Hp & _). done.
Qed.

(** What does hold of [allComplete].  In a run where [cancelAllUploads]
    is called only while no upload is suspended and [cancelUpload] is
    not called: when an upload
    ends, [allComplete] is notified exactly if every item of the batch is
    then completed or failed, it comes after the other notifications of
    that step, and it reports the number of items of the batch and how
    many of them are completed and how many failed; the manager is then
    reset.  The other calls notify no [allComplete], and leave a batch
    that is empty or has an item still pending or uploading. *)
Theorem allComplete_at_batch_end :
  ∀ (evs : list event) (m : manager) (ev : event) (r : manager * list notification),
    orderly_run init evs = true →
    run init evs = Some m →
    orderly m ev = true →
    step m ev = Some r →
    match ev with
    | Settle k o =>
        ∃ item, inFlight m !! k = Some item
          ∧ let m1 := (resume_until_check item o (take_inFlight k m)).1 in
            let ns1 := (resume_until_check item o (take_inFlight k m)).2 in
            quiet ns1
            ∧ r.2 = ns1 ++
                    (if forallb terminal (batch m1)
                     then [NAllComplete (Z.of_nat (length (batch m1)))
                             (count_status Completed (batch m1))
                             (count_status Failed (batch m1))]
                     else [])
            ∧ r.1 = (if forallb terminal (batch m1) then reset m1 else m1)
    | _ => quiet r.2 ∧ unfinished r.1
    end.
Proof.
  intros evs m ev r Hevs Hrun Hev Hstep.
  pose proof (counted_run evs init m counted_init capped_init Hevs Hrun) as Hm.
  pose proof (capped_run evs init m capped_init Hrun) as Hcap.
  assert (unfinished m) as Hopen.
  { apply (unfinished_run evs init m counted_init capped_init); [by left|done|done]. }
  pose proof (unfinished_step m ev r Hm Hcap Hopen Hev Hstep) as Hr.
  destruct ev as [files| |k o|itemId| |]; try done; simpl in Hstep.
  - injection Hstep as <-. split; [apply quiet_nil|done].
  - split; [|done]. injection Hstep as <-. unfold startUpload.
    destruct (queue m) eqn:Hq; [apply quiet_nil|].
    destruct (process_admits (queue m) m eq_refl) as [_ Hquiet].
    unfold processQueue. destruct (process (queue m) m) as [m' ns].
    by apply quiet_cons.
  - destruct (inFlight m !! k) as [item|] eqn:Hk; [|done]. simpl in Hstep.
    injection Hstep as <-. exists item. split; [done|].
    rewrite uploadFile_resume_eq. simpl.
    set (m1 := (resume_until_check item o (take_inFlight k m)).1).
    assert (counted m1) as Hm1.
    { unfold m1. rewrite resume_until_check_eq. simpl. apply counted_processQueue.
      - by apply counted_before_continue.
      - simpl. destruct Hcap. lia. }
    split.
    { rewrite resume_until_check_eq. simpl. apply quiet_app; [apply quiet_marks|].
      apply quiet_cons; [done|].
      set (m0 := before_continue _ _ _).
      destruct (process_admits (queue m0) m0 eq_refl) as [_ Hquiet]. done. }
    unfold check_all_complete. rewrite (counted_test m1 Hm1).
    destruct (counted_batch_counts m1 Hm1) as (-> & -> & ->).
    by destruct (forallb terminal (batch m1)).
  - split; [|done]. injection Hstep as <-. simpl.
    apply quiet_cons; [done|apply quiet_nil].
  - split; [|done]. injection Hstep as <-. unfold retryFailedUploads, processQueue.
    set (m0 := {| queue := map retry_item (queue m); activeUploads := activeUploads m;
                  maxConcurrentUploads := maxConcurrentUploads m;
                  totalFiles := totalFiles m; completedFiles := completedFiles m;
                  failedFiles := failedFiles m; abortControllers := abortControllers m;
                  inFlight := inFlight m; settled := settled m |}).
    by destruct (process_admits (queue m0) m0 eq_refl) as [_ Hquiet].
Qed.

(** After the sample events one upload is completed and three are in
    flight; they end in turn, the last one with an error. *)
Definition sample_rest : list event :=
  [Settle 0 (Stored "page-8"); Settle 0 (Stored "page-9")].

Definition sample_last : event :=
  Settle 0 (Threw 3 (Some "API error: 500 - Failed to add photo")).

Definition sample_state : manager :=
  default init (run init (sample_events ++ sample_rest)).

Lemma allComplete_at_batch_end_witness :
  ∃ r, step sample_state sample_last = Some r
    ∧ ∃ item, inFlight sample_state !! 0%nat = Some item
        ∧ let m1 := (resume_until_check item
                       (Threw 3 (Some "API error: 500 - Failed to add photo"))
                       (take_inFlight 0 sample_state)).1 in
          let ns1 := (resume_until_check item
                        (Threw 3 (Some "API error: 500 - Failed to add photo"))
                        (take_inFlight 0 sample_state)).2 in
          quiet ns1
          ∧ r.2 = ns1 ++
                  (if forallb terminal (batch m1)
                   then [NAllComplete (Z.of_nat (length (batch m1)))
                           (count_status Completed (batch m1))
                           (count_status Failed (batch m1))]
                   else [])
          ∧ r.1 = (if forallb terminal (batch m1) then reset m1 else m1).
Proof.
  destruct (step sample_state sample_last) as [r|] eqn:Hstep;
    [|vm_compute in Hstep; discriminate Hstep].
  exists r. split; [reflexivity|].
  apply (allComplete_at_batch_end (sample_events ++ sample_rest)
           sample_state sample_last r).
  - reflexivity.
  - vm_compute. reflexivity.
  - reflexivity.
  - exact Hstep.
Defined.

(** A file is chosen and its upload started; the choice is cancelled
    while that upload is suspended, and another file is chosen.  Then
    the first upload ends. *)
Definition early_events : list event :=
  [AddFiles first_choice; StartUpload; CancelAllUploads;
   AddFiles [{| f_name := "a.png"; f_isValid := true; f_id := "id-a" |}];
   Settle 0 (Stored "page-6")].

Definition early_state : manager * list notification :=
  default (init, []) (run_notify init early_events).

(** C5.  [allComplete] is notified while an item of the batch is still
    uploading, and not when that item ends.  [cancelAllUploads] resets
    the counters but does not stop the suspended upload (the signal of
    its [AbortController] is given to no operation), so the end of the
    cancelled upload is counted in the batch chosen next: after the
    events above the last notification is [allComplete] with total 1,
    completed 1 and failed 0, while the one item of the batch, a.png, has
    just been started and is uploading.  The manager is reset at that
    moment, so when a.png is stored no [allComplete] is notified. *)
Theorem allComplete_fires_early :
  run_notify init early_events = Some early_state
  ∧ last early_state.2 = Some (NAllComplete 1 1 0)
  ∧ map (λ item, (item_id item, item_status item)) (inFlight early_state.1)
    = [("id-a", Uploading)]
  ∧ ∃ r, step early_state.1 (Settle 0 (Stored "page-7")) = Some r
         ∧ map item_status (settled r.1) = [Completed]
         ∧ inFlight r.1 = []
         ∧ quiet r.2.
Proof.
  split; [vm_compute; reflexivity|]. split; [vm_compute; reflexivity|].
  split; [vm_compute; reflexivity|].
  eexists. split; [reflexivity|]. split; [vm_compute; reflexivity|].
  split; [vm_compute; reflexivity|].
  intros t c f Hin. vm_compute in Hin.
  repeat (apply elem_of_cons in Hin as [Hin|Hin]; [discriminate Hin|]).
  by apply elem_of_nil in Hin.
Qed.

(** *** Further properties of the queue *)

(** X1.  In a run where [cancelAllUploads] is called only while no upload
    is suspended and [cancelUpload] is not called, the statistics of
    [getStats] count the items: [total] is the number of items of the
    batch, [completed + failed] the number of those whose upload has
    ended, and [remaining] the number still queued or in flight. *)
Theorem stats_count_the_batch :
  ∀ (evs : list event) (m : manager),
    orderly_run init evs = true →
    run init evs = Some m →
    st_total (getStats m) = Z.of_nat (length (batch m))
    ∧ st_completed (getStats m) + st_failed (getStats m)
      = Z.of_nat (length (settled m))
    ∧ st_remaining (getStats m)
      = Z.of_nat (length (queue m) + length (inFlight m)).
Proof.
  intros evs m Hevs Hrun.
  pose proof (counted_run evs init m counted_init capped_init Hevs Hrun) as Hm.
  pose proof (count_terminal _ (cnt_settled m Hm)) as Hsum.
  destruct Hm. unfold getStats. simpl.
  rewrite cnt_total0, cnt_completed0, cnt_failed0. unfold batch.
  rewrite !length_app. repeat split; lia.
Qed.

Lemma stats_count_the_batch_witness :
  ∃ m, run init sample_events = Some m
       ∧ st_total (getStats m) = 4
       ∧ st_remaining (getStats m)
         = Z.of_nat (length (queue m) + length (inFlight m)).
Proof.
  eexists. split; [reflexivity|]. split; [reflexivity|].
  apply (stats_count_the_batch sample_events); reflexivity.
Defined.

(** The loop of [processQueue] stops with the queue empty or the counter
    at the cap or above. *)
Lemma process_stops (q : list uploadItem) (m : manager) :
  queue m = q →
  queue (process q m).1 = []
  ∨ maxConcurrentUploads m ≤ activeUploads (process q m).1.
Proof.
  revert m. induction q as [|item rest IH]; intros m Hq; simpl; [by left|].
  destruct (activeUploads m <? maxConcurrentUploads m) eqn:Hlt.
  - set (m2 := {| queue := rest; activeUploads := activeUploads m + 1;
                  maxConcurrentUploads := maxConcurrentUploads m;
                  totalFiles := totalFiles m; completedFiles := completedFiles m;
                  failedFiles := failedFiles m;
                  abortControllers := {[item_id item]} ∪ abortControllers m;
                  inFlight := inFlight m ++ [set_progress 10 (set_status Uploading item)];
                  settled := settled m |}).
    pose proof (IH m2 eq_refl) as Hstop.
    destruct (process rest m2) as [m3 ns']. done.
  - apply Z.ltb_ge in Hlt. by right.
Qed.

(** X2.  [processQueue] fills the free slots in queue order.  With the
    counter not above the cap, it starts the first [a] queued items,
    where [a] is the smaller of the number of queued items and the number
    of free slots; they join the uploads in flight in the order they were
    queued, and the queue keeps the others.  So afterwards the queue is
    empty or the counter is at the cap. *)
Theorem processQueue_fills_slots :
  ∀ m : manager,
    activeUploads m ≤ maxConcurrentUploads m →
    let a := Nat.min (length (queue m))
               (Z.to_nat (maxConcurrentUploads m - activeUploads m)) in
    let m' := (processQueue m).1 in
    queue m' = drop a (queue m)
    ∧ inFlight m' = inFlight m ++ map started (take a (queue m))
    ∧ activeUploads m' = activeUploads m + Z.of_nat a
    ∧ (queue m' = [] ∨ activeUploads m' = maxConcurrentUploads m).
Proof.
  intros m Hcap a m'.
  destruct (process_admits (queue m) m eq_refl) as [[k Hk] _].
  pose proof (process_stops (queue m) m eq_refl) as Hstop.
  subst m'. unfold processQueue. destruct Hk.
  assert (k = a) as ->.
  { subst a. destruct Hstop as [Hnil|Hfull].
    - rewrite adm_queue0 in Hnil.
      assert (length (drop k (queue m)) = 0%nat) as Hlen by (by rewrite Hnil).
      rewrite length_drop in Hlen. lia.
    - lia. }
  repeat split; try done.
  destruct Hstop as [Hnil|Hfull]; [by left|right; lia].
Qed.

(** The sample files, chosen and not yet started. *)
Definition sample_chosen : manager := (addFiles sample_files init).1.

Lemma processQueue_fills_slots_witness :
  let a := Nat.min (length (queue sample_chosen))
             (Z.to_nat (maxConcurrentUploads sample_chosen - activeUploads sample_chosen)) in
  let m' := (processQueue sample_chosen).1 in
  queue m' = drop a (queue sample_chosen)
  ∧ inFlight m' = inFlight sample_chosen ++ map started (take a (queue sample_chosen))
  ∧ activeUploads m' = activeUploads sample_chosen + Z.of_nat a
  ∧ (queue m' = [] ∨ activeUploads m' = maxConcurrentUploads sample_chosen).
Proof.
  apply (processQueue_fills_slots sample_chosen). vm_compute. discriminate.
Defined.

(** Whatever is called, the queue holds pending items only. *)
Lemma queue_pending_step (m : manager) (ev : event) (r : manager * list notification) :
  Forall (λ it, item_status it = Pending) (queue m) →
  step m ev = Some r →
  Forall (λ it, item_status it = Pending) (queue r.1).
Proof.
  intros Hq Hstep.
  assert (∀ m0, Forall (λ it, item_status it = Pending) (queue m0) →
                Forall (λ it, item_status it = Pending) (queue (processQueue m0).1))
    as Hproc.
  { intros m0 Hq0. destruct (process_admits (queue m0) m0 eq_refl) as [[k Hk] _].
    unfold processQueue. destruct Hk. rewrite adm_queue0. by apply Forall_drop. }
  destruct ev as [files| |k o|itemId| |]; simpl in Hstep.
  - injection Hstep as <-. simpl. apply Forall_app. split; [done|].
    apply Forall_fmap, Forall_forall. done.
  - injection Hstep as <-. unfold startUpload.
    destruct (queue m) eqn:Hq0; [simpl; by rewrite Hq0|].
    pose proof (Hproc m) as Hp. rewrite Hq0 in Hp. specialize (Hp Hq).
    by destruct (processQueue m).
  - destruct (inFlight m !! k) as [item|]; [|done]. simpl in Hstep.
    injection Hstep as <-. rewrite uploadFile_resume_eq, resume_until_check_eq. simpl.
    unfold check_all_complete. destruct (_ =? _); [apply Forall_nil_2|].
    by apply Hproc.
  - injection Hstep as <-. simpl. apply Forall_forall. intros x Hx.
    apply list_elem_of_In, filter_In in Hx as [Hx _]. apply list_elem_of_In in Hx.
    by apply (proj1 (Forall_forall _ _) Hq).
  - injection Hstep as <-. apply Forall_nil_2.
  - injection Hstep as <-. unfold retryFailedUploads. apply Hproc. simpl.
    apply Forall_fmap. eapply Forall_impl; [done|].
    intros it Hit. unfold retry_item. simpl. by rewrite Hit.
Qed.

Lemma queue_pending_run (evs : list event) (m m' : manager) :
  Forall (λ it, item_status it = Pending) (queue m) →
  run m evs = Some m' →
  Forall (λ it, item_status it = Pending) (queue m').
Proof.
  revert m. induction evs as [|ev evs IH]; intros m Hq Hrun; simpl in Hrun.
  - by injection Hrun as <-.
  - destruct (step m ev) as [r|] eqn:Hstep; [|done]. simpl in Hrun.
    eapply IH; [|done]. by eapply queue_pending_step.
Qed.

(** X3.  [retryFailedUploads] retries nothing.  In every state a manager
    can reach, whatever was called on it, no queued item has the status
    failed (an item leaves the queue before its upload can fail), so the
    call does what [processQueue] does and no failed upload is started
    again. *)
Theorem retry_retries_nothing :
  ∀ (evs : list event) (m : manager),
    run init evs = Some m →
    Forall (λ it, item_status it ≠ Failed) (queue m)
    ∧ retryFailedUploads m = processQueue m.
Proof.
  intros evs m Hrun.
  pose proof (queue_pending_run evs init m (Forall_nil_2 _) Hrun) as Hq.
  split.
  - eapply Forall_impl; [done|]. by intros it ->.
  - unfold retryFailedUploads. rewrite (retry_pending (queue m) Hq). by destruct m.
Qed.

(** The sample upload goes on: one more upload is stored and one fails. *)
Definition sample_failure : list event :=
  sample_events ++ [Settle 0 (Stored "page-8"); Settle 0 (Threw 1 None)].

Definition sample_failed : manager := default init (run init sample_failure).

Lemma retry_retries_nothing_witness :
  run init sample_failure = Some sample_failed
  ∧ Forall (λ it, item_status it ≠ Failed) (queue sample_failed)
  ∧ retryFailedUploads sample_failed = processQueue sample_failed.
Proof.
  assert (run init sample_failure = Some sample_failed) as Hrun
    by (vm_compute; reflexivity).
  split; [exact Hrun|].
  exact (retry_retries_nothing sample_failure sample_failed Hrun).
Defined.

(** X4.  An upload that is in flight when [cancelAllUploads] is called is
    not stopped, and its end is still counted.  When the first of them
    ends, nothing is started, no [allComplete] is notified, and the
    counters are left at [activeUploads = -1], [total = 0] and
    [completed + failed = 1], so that [getStats] reports [remaining = -1]. *)
Theorem cancelled_upload_still_counts :
  ∀ (m : manager) (k : nat) (o : outcome) (item : uploadItem),
    inFlight m !! k = Some item →
    inFlight (cancelAllUploads m).1 = inFlight m
    ∧ ∃ r, step (cancelAllUploads m).1 (Settle k o) = Some r
           ∧ quiet r.2
           ∧ activeUploads r.1 = -1
           ∧ queue r.1 = []
           ∧ inFlight r.1 = delete k (inFlight m)
           ∧ st_total (getStats r.1) = 0
           ∧ st_completed (getStats r.1) + st_failed (getStats r.1) = 1
           ∧ st_remaining (getStats r.1) = -1.
Proof.
  intros m k o item Hk. split; [done|].
  simpl. rewrite Hk. simpl. eexists. split; [reflexivity|].
  rewrite uploadFile_resume_eq, resume_until_check_eq. simpl.
  unfold check_all_complete, processQueue. simpl.
  assert (((if succeeded o then 0 + 1 else 0) + (if succeeded o then 0 else 0 + 1) =? 0)
          = false) as Htest by (by destruct o).
  rewrite Htest. simpl. rewrite app_nil_r.
  split; [|by destruct o].
  apply quiet_app; [apply quiet_marks|]. apply quiet_cons; [done|apply quiet_nil].
Qed.

Lemma cancelled_upload_still_counts_witness :
  let m := default init (run init [AddFiles sample_files; StartUpload]) in
  ∃ r, step (cancelAllUploads m).1 (Settle 0 (Stored "page-7")) = Some r
       ∧ activeUploads r.1 = -1
       ∧ st_remaining (getStats r.1) = -1.
Proof.
  destruct (cancelled_upload_still_counts
              (default init (run init [AddFiles sample_files; StartUpload]))
              0 (Stored "page-7")
              (started (new_item {| f_name := "a.png"; f_isValid := true; f_id := "id-a" |}))
              eq_refl) as (_ & r & Hstep & _ & Hact & _ & _ & _ & _ & Hrem).
  exists r. split; [exact Hstep|]. split; assumption.
Defined.

(** *** A started batch runs to its end *)

(** No slot is idle while an item waits. *)
Definition busy (m : manager) : Prop :=
  queue m = [] ∨ activeUploads m = maxConcurrentUploads m.

Definition stored (os : list outcome) : Z :=
  Z.of_nat (length (List.filter succeeded os)).

Definition thrown (os : list outcome) : Z :=
  Z.of_nat (length (List.filter (λ o, negb (succeeded o)) os)).

Lemma busy_processQueue (m : manager) : capped m → busy (processQueue m).1.
Proof.
  intros Hcap. pose proof (capped_processQueue m Hcap) as [Hmax Hact].
  destruct (process_admits (queue m) m eq_refl) as [[k Hk] _].
  destruct (process_stops (queue m) m eq_refl) as [Hnil|Hfull]; [by left|].
  right. unfold processQueue in *. destruct Hk. destruct Hcap. lia.
Qed.

Lemma busy_in_flight (m : manager) :
  counted m → busy m → (0 < waiting m)%nat → is_Some (inFlight m !! 0%nat).
Proof.
  intros Hm Hbusy Hw. apply lookup_lt_is_Some. unfold waiting in Hw.
  destruct Hm. destruct Hbusy as [Hq|Hfull]; [rewrite Hq in Hw; simpl in Hw; lia|lia].
Qed.

(** The manager when the test of [handleUploadComplete] is made. *)
Definition at_check (k : nat) (item : uploadItem) (o : outcome) (m : manager) : manager :=
  (processQueue (before_continue (final_item item o) (succeeded o) (take_inFlight k m))).1.

Record checked (k : nat) (item : uploadItem) (o : outcome) (m : manager) : Prop := {
  chk_counted : counted (at_check k item o m);
  chk_capped : capped (at_check k item o m);
  chk_busy : busy (at_check k item o m);
  chk_waiting : S (waiting (at_check k item o m)) = waiting m;
  chk_total : totalFiles (at_check k item o m) = totalFiles m;
  chk_completed : completedFiles (at_check k item o m)
                  = completedFiles m + (if succeeded o then 1 else 0);
  chk_failed : failedFiles (at_check k item o m)
               = failedFiles m + (if succeeded o then 0 else 1);
  chk_test : (completedFiles (at_check k item o m) + failedFiles (at_check k item o m)
              =? totalFiles (at_check k item o m))
             = bool_decide (waiting m = 1%nat)
}.

Lemma settle_checked (k : nat) (item : uploadItem) (o : outcome) (m : manager) :
  counted m → capped m → inFlight m !! k = Some item → checked k item o m.
Proof.
  intros Hm Hcap Hk. unfold at_check.
  set (m0 := before_continue (final_item item o) (succeeded o) (take_inFlight k m)).
  assert (counted m0) as Hm0 by (by apply counted_before_continue).
  assert (capped m0) as Hcap0 by (destruct Hcap; split; simpl; [done|lia]).
  assert (S (waiting m0) = waiting m) as Hw0.
  { unfold waiting. simpl. rewrite length_delete by (by eexists).
    assert (k < length (inFlight m))%nat by (by eapply lookup_lt_Some). lia. }
  destruct (waiting_processQueue m0) as [Hw Hs].
  assert (counted (processQueue m0).1) as Hm1.
  { apply counted_processQueue; [done|apply Hcap0]. }
  destruct (process_admits (queue m0) m0 eq_refl) as [[a Ha] _].
  fold (processQueue m0) in Ha.
  pose proof (adm_total _ _ _ _ Ha) as Htot.
  pose proof (adm_completed _ _ _ _ Ha) as Hdone.
  pose proof (adm_failed _ _ _ _ Ha) as Hfail.
  assert (settled (processQueue m0).1 ≠ []) as Hset.
  { rewrite Hs. simpl. by destruct (settled m). }
  pose proof (counted_unfinished _ Hm1) as Hun. unfold unfinished in Hun.
  split; unfold at_check; fold m0.
  - done.
  - by apply capped_processQueue.
  - by apply busy_processQueue.
  - rewrite <- Hw0. f_equal. exact Hw.
  - exact Htot.
  - rewrite Hdone. simpl. destruct (succeeded o); lia.
  - rewrite Hfail. simpl. destruct (succeeded o); lia.
  - rewrite (counted_test _ Hm1).
    case_bool_decide as Hone.
    + destruct (forallb terminal (batch (processQueue m0).1)) eqn:Hall; [done|].
      destruct (proj1 Hun) as [Hpos|Hnil]; [by right|exfalso; clearbody m0; lia|done].
    + destruct (forallb terminal (batch (processQueue m0).1)) eqn:Hall; [|done].
      destruct (counted_done _ Hm1 Hall) as [Hq Hfl].
      assert (waiting (processQueue m0).1 = 0%nat) as Hzero
        by (unfold waiting; by rewrite Hq, Hfl).
      exfalso. clearbody m0. lia.
Qed.

Lemma step_settle (k : nat) (item : uploadItem) (o : outcome) (m : manager) :
  inFlight m !! k = Some item →
  step m (Settle k o)
  = Some ((check_all_complete (at_check k item o m)).1,
          (resume_until_check item o (take_inFlight k m)).2
          ++ (check_all_complete (at_check k item o m)).2).
Proof.
  intros Hk. simpl. rewrite Hk. simpl.
  rewrite uploadFile_resume_eq. unfold at_check. by rewrite resume_until_check_eq.
Qed.

Lemma quiet_resume (item : uploadItem) (o : outcome) (m : manager) :
  quiet (resume_until_check item o m).2.
Proof.
  rewrite resume_until_check_eq. simpl. apply quiet_app; [apply quiet_marks|].
  apply quiet_cons; [done|].
  set (m0 := before_continue _ _ _).
  by destruct (process_admits (queue m0) m0 eq_refl) as [_ Hquiet].
Qed.

Lemma run_notify_cons (m : manager) (ev : event) (evs : list event)
    (r1 : manager * list notification) :
  step m ev = Some r1 →
  run_notify m (ev :: evs)
  = r' ← run_notify r1.1 evs; Some (r'.1, r1.2 ++ r'.2).
Proof. intros Hstep. cbn [run_notify]. by rewrite Hstep. Qed.

Lemma run_notify_stuck (m : manager) (ev : event) (evs : list event) :
  step m ev = None → run_notify m (ev :: evs) = None.
Proof. intros Hstep. cbn [run_notify]. by rewrite Hstep. Qed.

Lemma step_settle_none (k : nat) (o : outcome) (m : manager) :
  inFlight m !! k = None → step m (Settle k o) = None.
Proof. intros Hk. cbn [step]. by rewrite Hk. Qed.

(** From a manager with no idle slot, as many uploads end as items are
    queued or in flight. *)
Lemma drain (kos : list (nat * outcome)) (m : manager) (r : manager * list notification) :
  counted m → capped m → busy m →
  length kos = waiting m → kos ≠ [] →
  run_notify m (map (λ ko, Settle ko.1 ko.2) kos) = Some r →
  ∃ ns, r.2 = ns ++ [NAllComplete (totalFiles m)
                       (completedFiles m + stored (map snd kos))
                       (failedFiles m + thrown (map snd kos))]
        ∧ quiet ns
        ∧ queue r.1 = [] ∧ inFlight r.1 = [] ∧ activeUploads r.1 = 0
        ∧ totalFiles r.1 = 0.
Proof.
  revert m r. induction kos as [|[k o] kos IH]; intros m r Hm Hcap Hbusy Hlen Hne Hrun;
    [done|].
  cbn [map fst snd] in Hrun. cbn [length] in Hlen.
  destruct (inFlight m !! k) as [item|] eqn:Hk;
    [|by rewrite (run_notify_stuck _ _ _ (step_settle_none k o m Hk)) in Hrun].
  rewrite (run_notify_cons _ _ _ _ (step_settle k item o m Hk)) in Hrun.
  cbn [fst snd] in Hrun.
  destruct (settle_checked k item o m Hm Hcap Hk) as [].
  pose proof (quiet_resume item o (take_inFlight k m)) as Hq1.
  revert Hrun Hq1.
  generalize (resume_until_check item o (take_inFlight k m)).2 as ns1.
  generalize dependent (at_check k item o m). intros m1 Hm1 Hcap1 Hbusy1 Hw1 Htot Hdone Hfail
    Htest ns1 Hrun Hq1.
  unfold check_all_complete in Hrun. rewrite Htest in Hrun.
  case_bool_decide as Hone; cbn [fst snd] in Hrun.
  - destruct kos as [|ko kos]; [|cbn [length] in Hlen; lia].
    cbn [map run_notify mbind option_bind fst snd] in Hrun. injection Hrun as <-.
    cbn [fst snd map]. exists ns1. rewrite app_nil_r, Htot, Hdone, Hfail.
    assert (inFlight m1 = []) as Hfl.
    { assert (waiting m1 = 0%nat) as Hw by lia. unfold waiting in Hw.
      destruct (inFlight m1); [done|simpl in Hw; lia]. }
    unfold stored, thrown. simpl. repeat split; try done. by destruct (succeeded o).
  - destruct (run_notify m1 (map (λ ko, Settle ko.1 ko.2) kos)) as [r'|] eqn:Hrest;
      [|done].
    cbn [mbind option_bind] in Hrun. injection Hrun as <-. cbn [fst snd].
    assert (kos ≠ []) as Hne' by (intros ->; simpl in Hlen; lia).
    destruct (IH m1 r') as (ns & Hns & Hquiet & Hq & Hfl & Hact & Hzero);
      [done|done|done|lia|done|done|].
    exists (ns1 ++ ns). rewrite Hns, Htot, Hdone, Hfail, app_nil_r.
    repeat split; try done.
    + rewrite <- !app_assoc. do 3 f_equal. f_equal.
      * unfold stored. simpl. destruct (succeeded o); simpl; lia.
      * unfold thrown. simpl. destruct (succeeded o); simpl; lia.
    + by apply quiet_app.
Qed.

(** Ending the first upload in flight is always possible until the batch
    is done. *)
Lemma drain_front (os : list outcome) (m : manager) :
  counted m → capped m → busy m →
  length os = waiting m →
  is_Some (run_notify m (map (Settle 0) os)).
Proof.
  revert m. induction os as [|o os IH]; intros m Hm Hcap Hbusy Hlen; [by eexists|].
  cbn [length] in Hlen.
  destruct (busy_in_flight m Hm Hbusy) as [item Hk]; [lia|].
  cbn [map]. rewrite (run_notify_cons _ _ _ _ (step_settle 0 item o m Hk)).
  cbn [fst snd].
  destruct (settle_checked 0 item o m Hm Hcap Hk) as [].
  generalize (resume_until_check item o (take_inFlight 0 m)).2 as ns1.
  generalize dependent (at_check 0 item o m). intros m1 Hm1 Hcap1 Hbusy1 Hw1 Htot Hdone Hfail
    Htest ns1.
  unfold check_all_complete. rewrite Htest.
  case_bool_decide as Hone; cbn [fst snd].
  - destruct os as [|o' os]; [by eexists|cbn [length] in Hlen; lia].
  - destruct (IH m1) as [r' Hr']; [done|done|done|lia|].
    rewrite Hr'. by eexists.
Qed.

(** X5.  A batch that is started runs to its end.  After [startUpload]
    in a run where [cancelAllUploads] is called only while no upload is
    suspended and [cancelUpload] is not called, let [n] be the number of
    items queued or in flight, not zero.  Uploads can end one after the
    other [n] times, the first in flight each time, without the manager
    getting stuck; and whichever the uploads that end and whatever their
    outcomes, [n] endings notify [allComplete] exactly once, last, with
    the total of the batch and with the completed and failed counts
    raised by the numbers of stored and of failed uploads among the [n];
    the manager is then reset. *)
Theorem started_batch_completes :
  ∀ (evs : list event) (m0 : manager) (kos : list (nat * outcome)),
    orderly_run init evs = true →
    run init evs = Some m0 →
    let m := (startUpload m0).1 in
    length kos = (length (queue m) + length (inFlight m))%nat →
    kos ≠ [] →
    is_Some (run_notify m (map (Settle 0) (map snd kos)))
    ∧ ∀ r, run_notify m (map (λ ko, Settle ko.1 ko.2) kos) = Some r →
        ∃ ns, r.2 = ns ++ [NAllComplete (totalFiles m)
                             (completedFiles m + stored (map snd kos))
                             (failedFiles m + thrown (map snd kos))]
              ∧ quiet ns
              ∧ queue r.1 = [] ∧ inFlight r.1 = [] ∧ activeUploads r.1 = 0
              ∧ totalFiles r.1 = 0.
Proof.
  intros evs m0 kos Hevs Hrun m Hlen Hne.
  pose proof (counted_run evs init m0 counted_init capped_init Hevs Hrun) as Hm0.
  pose proof (capped_run evs init m0 capped_init Hrun) as Hcap0.
  assert (step m0 StartUpload = Some (startUpload m0)) as Hstep by done.
  assert (counted m) as Hm by (by apply (counted_step m0 StartUpload _ Hm0 Hcap0)).
  assert (capped m) as Hcap by (by apply (capped_step m0 StartUpload _ Hcap0)).
  assert (busy m) as Hbusy.
  { subst m. unfold startUpload. destruct (queue m0) eqn:Hq; [by left|].
    pose proof (busy_processQueue m0 Hcap0). by destruct (processQueue m0). }
  split.
  - apply drain_front; try done. by rewrite length_map.
  - intros r Hr. by apply (drain kos m r).
Qed.

Definition sample_endings : list (nat * outcome) :=
  [(1%nat, Stored "page-7"); (0%nat, Threw 3 (Some "API error: 500"));
   (1%nat, Stored "page-8"); (0%nat, Stored "page-9")].

Definition sample_drained : manager * list notification :=
  default (init, [])
    (run_notify (startUpload sample_chosen).1
       (map (λ ko, Settle ko.1 ko.2) sample_endings)).

Lemma started_batch_completes_witness :
  ∃ ns, sample_drained.2 = ns ++ [NAllComplete 4 3 1]
        ∧ quiet ns
        ∧ queue sample_drained.1 = [] ∧ inFlight sample_drained.1 = []
        ∧ activeUploads sample_drained.1 = 0
        ∧ totalFiles sample_drained.1 = 0.
Proof.
  destruct (started_batch_completes [AddFiles sample_files] sample_chosen
              sample_endings) as [_ Hend];
    [reflexivity|reflexivity|reflexivity|discriminate|].
  apply (Hend sample_drained). vm_compute. reflexivity.
Defined.

(** *** A queued item is cancelled *)

(** The counter [totalFiles] is ahead of the items there are. *)
Definition behind (m : manager) : Prop :=
  completedFiles m + failedFiles m
  + Z.of_nat (length (queue m) + length (inFlight m)) < totalFiles m.

Lemma behind_processQueue (m : manager) : behind m → behind (processQueue m).1.
Proof.
  unfold behind. intros Hm.
  destruct (process_admits (queue m) m eq_refl) as [[k Hk] _].
  fold (processQueue m) in Hk. destruct Hk.
  rewrite adm_queue0, adm_inFlight0, adm_total0, adm_completed0, adm_failed0.
  rewrite length_app, length_map, length_drop, length_take. lia.
Qed.

Lemma quiet_processQueue (m : manager) : quiet (processQueue m).2.
Proof. by destruct (process_admits (queue m) m eq_refl) as [_ Hquiet]. Qed.

Lemma behind_step (m : manager) (ev : event) (r : manager * list notification) :
  behind m → ev ≠ CancelAllUploads → step m ev = Some r →
  behind r.1 ∧ quiet r.2.
Proof.
  intros Hm Hev Hstep. destruct ev as [files| |k o|itemId| |]; [| | | |done|].
  - injection Hstep as <-. split; [|apply quiet_nil].
    unfold behind in *. simpl. rewrite !length_app, !length_map. lia.
  - injection Hstep as <-. unfold startUpload.
    destruct (queue m) eqn:Hq; [by split; [|apply quiet_nil]|].
    pose proof (behind_processQueue m Hm). pose proof (quiet_processQueue m).
    destruct (processQueue m) as [m' ns]. split; [done|]. by apply quiet_cons.
  - destruct (inFlight m !! k) as [item|] eqn:Hk;
      [|by rewrite (step_settle_none k o m Hk) in Hstep].
    rewrite (step_settle k item o m Hk) in Hstep. injection Hstep as <-.
    assert (behind (at_check k item o m)) as Hcheck.
    { apply behind_processQueue. unfold behind in *. simpl.
      rewrite length_delete by (by eexists).
      assert (k < length (inFlight m))%nat by (by eapply lookup_lt_Some).
      destruct (succeeded o); lia. }
    unfold check_all_complete.
    assert ((completedFiles (at_check k item o m) + failedFiles (at_check k item o m)
             =? totalFiles (at_check k item o m)) = false) as ->.
    { apply Z.eqb_neq. unfold behind in Hcheck. lia. }
    simpl. split; [done|]. rewrite app_nil_r. apply quiet_resume.
  - injection Hstep as <-. split; [|apply quiet_nil].
    unfold behind in *. simpl.
    pose proof (filter_length_le (λ item, negb (String.eqb (item_id item) itemId))
                  (queue m)). lia.
  - injection Hstep as <-. unfold retryFailedUploads.
    split; [|apply quiet_processQueue].
    apply behind_processQueue. unfold behind in *. simpl. by rewrite length_map.
Qed.

Lemma behind_run (evs : list event) (m : manager) (r : manager * list notification) :
  behind m → Forall (λ ev, ev ≠ CancelAllUploads) evs →
  run_notify m evs = Some r →
  behind r.1 ∧ quiet r.2.
Proof.
  revert m r. induction evs as [|ev evs IH]; intros m r Hm Hevs Hrun.
  - injection Hrun as <-. split; [done|apply quiet_nil].
  - apply Forall_cons in Hevs as [Hev Hevs].
    destruct (step m ev) as [r1|] eqn:Hstep;
      [|by rewrite (run_notify_stuck _ _ _ Hstep) in Hrun].
    rewrite (run_notify_cons _ _ _ _ Hstep) in Hrun.
    destruct (behind_step m ev r1 Hm Hev Hstep) as [Hm1 Hq1].
    destruct (run_notify r1.1 evs) as [r'|] eqn:Hrest; [|done].
    injection Hrun as <-. destruct (IH r1.1 r' Hm1 Hevs Hrest) as [Hm' Hq'].
    split; [done|]. by apply quiet_app.
Qed.

Lemma filter_shorter {A : Type} (f : A → bool) (l : list A) (x : A) :
  x ∈ l → f x = false → (length (List.filter f l) < length l)%nat.
Proof.
  intros Hin Hx. induction l as [|y l IH]; [by apply elem_of_nil in Hin|].
  pose proof (filter_length_le f l). simpl.
  apply elem_of_cons in Hin as [<-|Hin].
  - rewrite Hx. lia.
  - specialize (IH Hin). destruct (f y); simpl; lia.
Qed.

(** X22.  In a run where so far [cancelAllUploads] was called only
    while no upload was suspended and [cancelUpload] was not called,
    [cancelUpload] of an item that is in the queue takes it off the
    queue and leaves [totalFiles] as it is.  From then on, whatever is
    added, started, retried, cancelled one by one or uploaded, the number
    of completed and failed files stays below [totalFiles], so
    [allComplete] is never notified and [getStats] reports more files
    remaining than are queued or in flight, until [cancelAllUploads] is
    called. *)
Theorem cancelled_item_blocks_completion :
  ∀ (evs : list event) (m : manager) (itemId : string) (evs' : list event)
    (r : manager * list notification),
    orderly_run init evs = true → run init evs = Some m →
    itemId ∈ map item_id (queue m) →
    Forall (λ ev, ev ≠ CancelAllUploads) evs' →
    run_notify (cancelUpload itemId m) evs' = Some r →
    quiet r.2
    ∧ completedFiles r.1 + failedFiles r.1 < totalFiles r.1
    ∧ Z.of_nat (length (queue r.1) + length (inFlight r.1))
      < st_remaining (getStats r.1).
Proof.
  intros evs m itemId evs' r Hevs Hrun Hid Hevs' Hrun'.
  pose proof (counted_run evs init m counted_init capped_init Hevs Hrun) as Hm.
  assert (behind (cancelUpload itemId m)) as Hbehind.
  { apply list_elem_of_fmap in Hid as (item & -> & Hitem).
    pose proof (filter_shorter (λ it, negb (String.eqb (item_id it) (item_id item)))
                  (queue m) item Hitem) as Hshort.
    simpl in Hshort. rewrite String.eqb_refl in Hshort. specialize (Hshort eq_refl).
    pose proof (count_terminal _ (cnt_settled m Hm)) as Hsum.
    destruct Hm. unfold behind, batch in *. simpl.
    rewrite !length_app in cnt_total0. lia. }
  destruct (behind_run evs' _ r Hbehind Hevs' Hrun') as [Hr Hquiet].
  unfold behind in Hr. simpl. split; [done|]. split; lia.
Qed.

Definition sample_three : list event :=
  [Settle 0 (Stored "page-7"); Settle 1 (Threw 3 (Some "API error: 500"));
   Settle 0 (Stored "page-8")].

Definition sample_cancelled : manager * list notification :=
  default (init, [])
    (run_notify (cancelUpload "id-d" (startUpload sample_chosen).1) sample_three).

Lemma cancelled_item_blocks_completion_witness :
  quiet sample_cancelled.2
  ∧ queue sample_cancelled.1 = [] ∧ inFlight sample_cancelled.1 = []
  ∧ st_remaining (getStats sample_cancelled.1) = 1.
Proof.
  destruct (cancelled_item_blocks_completion
              [AddFiles sample_files; StartUpload] (startUpload sample_chosen).1 "id-d"
              sample_three sample_cancelled)
    as (Hquiet & _).
  - reflexivity.
  - reflexivity.
  - vm_compute. set_solver.
  - repeat constructor; discriminate.
  - vm_compute. reflexivity.
  - split; [exact Hquiet|]. vm_compute. repeat split; reflexivity.
Defined.

End UploadProofs.

(** ** Gallery view-model *)

Module GalleryProofs.
Import Gallery.

#[local] Open Scope list_scope.

(** [filterAndSortPhotos] changes nothing but the derived list. *)
Lemma filterAndSortPhotos_frame (localeCompare : string → string → Z)
    (clk : clock) (g : gallery) :
  let g' := filterAndSortPhotos localeCompare clk g in
  photos g' = photos g ∧ selectedPhotos g' = selectedPhotos g
  ∧ currentSort g' = currentSort g ∧ currentFilter g' = currentFilter g
  ∧ currentCategory g' = currentCategory g ∧ searchQuery g' = searchQuery g.
Proof. done. Qed.

(** The derived list depends on the clock only through the cut-off date
    of the date filter in force. *)
Lemma filterAndSortPhotos_clock (localeCompare : string → string → Z)
    (clk clk' : clock) (g : gallery) :
  currentFilter g = "all"
  ∨ filterDate clk (currentFilter g) = filterDate clk' (currentFilter g) →
  filteredPhotos (filterAndSortPhotos localeCompare clk g)
  = filteredPhotos (filterAndSortPhotos localeCompare clk' g).
Proof.
  intros [Hall|Hsame]; unfold filterAndSortPhotos; simpl.
  - by rewrite Hall.
  - by rewrite Hsame.
Qed.

(** The derived list is computed from the photo list and the four
    settings, and from nothing else of the gallery. *)
Lemma filterAndSortPhotos_inputs (localeCompare : string → string → Z)
    (clk : clock) (g g' : gallery) :
  photos g = photos g' → searchQuery g = searchQuery g' →
  currentCategory g = currentCategory g' → currentFilter g = currentFilter g' →
  currentSort g = currentSort g' →
  filteredPhotos (filterAndSortPhotos localeCompare clk g)
  = filteredPhotos (filterAndSortPhotos localeCompare clk g').
Proof.
  destruct g, g'. simpl. intros -> -> -> -> ->. reflexivity.
Qed.

(** C8.  The gallery shows its photos with no category chosen.  A
    category is chosen and then set back to "all".  The list shown is
    then the one shown at first, for every sort order and search text,
    provided the date filter is off or its cut-off date is the same at
    the first and the last rendering; and the photo list of the gallery
    is the same throughout. *)
Theorem category_filter_round_trip :
  ∀ (localeCompare : string → string → Z) (clk0 clk1 clk2 : clock)
    (g : gallery) (c : string),
    currentCategory g = "all" →
    currentFilter g = "all"
    ∨ filterDate clk0 (currentFilter g) = filterDate clk2 (currentFilter g) →
    let shown0 := filterAndSortPhotos localeCompare clk0 g in
    let shown1 := on_change localeCompare clk1 (Category c) shown0 in
    let shown2 := on_change localeCompare clk2 (Category "all") shown1 in
    filteredPhotos shown2 = filteredPhotos shown0
    ∧ photos shown0 = photos g ∧ photos shown1 = photos g ∧ photos shown2 = photos g.
Proof.
  intros localeCompare clk0 clk1 clk2 g c Hcat Hdate shown0 shown1 shown2.
  split; [|done]. subst shown0 shown1 shown2.
  transitivity (filteredPhotos (filterAndSortPhotos localeCompare clk2 g)).
  - apply filterAndSortPhotos_inputs; done.
  - symmetry. by apply filterAndSortPhotos_clock.
Qed.

Definition sample_localeCompare (a b : string) : Z :=
  match String.compare a b with
  | Eq => 0
  | Lt => -1
  | Gt => 1
  end%Z.

Definition sample_clock (t : Z) : clock :=
  {| now := t; startOfToday := t - t `mod` 86400000;
     weekAgo := t - 604800000; monthAgo := t - 2678400000;
     yearAgo := t - 31536000000 |}%Z.

Definition sample_photos : list photo :=
  [{| id := "p1"; originalName := "beach.png"; category := Some "travel";
      tags := Some []; size := 2048; uploadDate := Some 1723600000000 |};
   {| id := "p2"; originalName := "cake.jpg"; category := Some "food";
      tags := Some ["favorite"]; size := 512; uploadDate := Some 1723500000000 |};
   {| id := "p3"; originalName := "alps.png"; category := Some "travel";
      tags := None; size := 4096; uploadDate := None |}]%Z.

Definition sample_gallery : gallery :=
  {| photos := sample_photos; filteredPhotos := [];
     selectedPhotos := {["p2"]};
     currentView := "grid"; currentSort := "name-asc"; currentFilter := "all";
     currentCategory := "all"; searchQuery := "" |}.

Lemma category_filter_round_trip_witness :
  let shown0 := filterAndSortPhotos sample_localeCompare (sample_clock 1723600001000)
                  sample_gallery in
  let shown1 := on_change sample_localeCompare (sample_clock 1723600002000)
                  (Category "travel") shown0 in
  let shown2 := on_change sample_localeCompare (sample_clock 1723600003000)
                  (Category "all") shown1 in
  map id (filteredPhotos shown0) = ["p3"; "p1"; "p2"]
  ∧ map id (filteredPhotos shown1) = ["p3"; "p1"]
  ∧ filteredPhotos shown2 = filteredPhotos shown0
  ∧ photos shown0 = photos sample_gallery
  ∧ photos shown1 = photos sample_gallery
  ∧ photos shown2 = photos sample_gallery.
Proof.
  split; [reflexivity|]. split; [reflexivity|].
  apply (category_filter_round_trip sample_localeCompare
           (sample_clock 1723600001000) (sample_clock 1723600002000)
           (sample_clock 1723600003000) sample_gallery "travel").
  - reflexivity.
  - left. reflexivity.
Defined.

(** C9.  A change of the search text, of the category or of the date
    filter (or of the sort order) leaves the selection set as it is: an
    identifier in the set stays in it whether or not its photo is among
    those shown afterwards. *)
Theorem selection_survives_filtering :
  ∀ (localeCompare : string → string → Z) (clk : clock) (c : change) (g : gallery),
    selectedPhotos (on_change localeCompare clk c g) = selectedPhotos g
    ∧ ∀ photoId : string,
        photoId ∈ selectedPhotos g ↔
        photoId ∈ selectedPhotos (on_change localeCompare clk c g).
Proof. intros localeCompare clk c g. by destruct c. Qed.

(** The selected photo of the sample gallery is hidden by the category
    "travel" and is still selected. *)
Lemma hidden_and_selected :
  let g := on_change sample_localeCompare (sample_clock 1723600002000)
             (Category "travel") sample_gallery in
  ("p2" ∉ shown g) ∧ ("p2" ∈ selectedPhotos g).
Proof.
  split.
  - intros H. apply list_elem_of_In in H. vm_compute in H.
    destruct H as [H|[H|[]]]; discriminate H.
  - simpl. apply elem_of_singleton. reflexivity.
Qed.

(** *** The list shown *)

(** What the three filters of [filterAndSortPhotos] let through. *)
Definition visible (clk : clock) (g : gallery) (p : photo) : bool :=
  (String.eqb (searchQuery g) ""
   || matches_search (Js.toLowerCase (searchQuery g)) p)
  && (String.eqb (currentCategory g) "" || String.eqb (currentCategory g) "all"
      || bool_decide (category p = Some (currentCategory g)))
  && (String.eqb (currentFilter g) "all"
      || at_least (uploadDate p) (filterDate clk (currentFilter g))).

Lemma filter_all {A : Type} (l : list A) : List.filter (λ _, true) l = l.
Proof. induction l as [|x l IH]; simpl; [done|]. by rewrite IH. Qed.

Lemma filter_when {A : Type} (c : bool) (f : A → bool) (l : list A) :
  (if c then List.filter f l else l) = List.filter (λ x, negb c || f x) l.
Proof. destruct c; simpl; [done|]. by rewrite filter_all. Qed.

Lemma filter_twice {A : Type} (f f' : A → bool) (l : list A) :
  List.filter f' (List.filter f l) = List.filter (λ x, f x && f' x) l.
Proof.
  induction l as [|x l IH]; simpl; [done|].
  destruct (f x); simpl; [|done]. destruct (f' x); by rewrite IH.
Qed.

(** The list handed to [sort]. *)
Lemma filterAndSortPhotos_eq (localeCompare : string → string → Z)
    (clk : clock) (g : gallery) :
  filteredPhotos (filterAndSortPhotos localeCompare clk g)
  = Js.sort (compare localeCompare (currentSort g))
      (List.filter (visible clk g) (photos g)).
Proof.
  unfold filterAndSortPhotos. cbn [filteredPhotos]. f_equal.
  rewrite !filter_when, !filter_twice. apply filter_ext. intros p. unfold visible.
  by rewrite !negb_involutive, negb_andb, !negb_involutive, andb_assoc.
Qed.

(** X6.  The list shown after [filterAndSortPhotos] holds exactly the
    photos of the gallery that pass the search text (if there is one),
    the category (if one other than "all" is chosen) and the date filter
    (if it is not "all"), each as often as it is in the gallery: it is a
    rearrangement of those photos.  With a sort order that is none of
    the six the code knows, they are in the order of the gallery. *)
Theorem view_is_the_matching_photos :
  ∀ (localeCompare : string → string → Z) (clk : clock) (g : gallery),
    let g' := filterAndSortPhotos localeCompare clk g in
    filteredPhotos g' ≡ₚ List.filter (visible clk g) (photos g)
    ∧ (∀ p, p ∈ filteredPhotos g' ↔ p ∈ photos g ∧ visible clk g p = true)
    ∧ (length (filteredPhotos g') ≤ length (photos g))%nat
    ∧ (currentSort g ∉ ["date-desc"; "date-asc"; "name-asc"; "name-desc";
                         "size-desc"; "size-asc"] →
       filteredPhotos g' = List.filter (visible clk g) (photos g)).
Proof.
  intros localeCompare clk g g'. subst g'. rewrite filterAndSortPhotos_eq.
  assert (Js.sort (compare localeCompare (currentSort g))
            (List.filter (visible clk g) (photos g))
          ≡ₚ List.filter (visible clk g) (photos g)) as Hperm
    by apply JsProofs.sort_perm.
  split; [done|]. split; [|split].
  - intros p. rewrite Hperm, !list_elem_of_In, filter_In. done.
  - rewrite Hperm. apply filter_length_le.
  - intros Hsort. apply JsProofs.sort_indifferent.
    apply Forall_forall. intros x _. apply Forall_forall. intros y _.
    unfold compare.
    repeat match goal with
           | |- context [String.eqb (currentSort g) ?s] =>
               destruct (String.eqb_spec (currentSort g) s) as [Heq|_];
               [exfalso; apply Hsort; rewrite Heq; set_solver|]
           end.
    done.
Qed.

Definition sample_unsorted : gallery :=
  {| photos := sample_photos; filteredPhotos := [];
     selectedPhotos := ∅;
     currentView := "grid"; currentSort := "newest"; currentFilter := "all";
     currentCategory := "travel"; searchQuery := "P" |}.

Lemma view_is_the_matching_photos_witness :
  map id (filteredPhotos (filterAndSortPhotos sample_localeCompare
                            (sample_clock 1723600001000) sample_unsorted))
  = ["p1"; "p3"].
Proof.
  pose proof (view_is_the_matching_photos sample_localeCompare
                (sample_clock 1723600001000) sample_unsorted) as (_ & _ & _ & Heq).
  rewrite Heq; [reflexivity|].
  intros Hin. apply list_elem_of_In in Hin. vm_compute in Hin.
  repeat destruct Hin as [Hin|Hin]; try discriminate Hin. done.
Defined.

(** The time values of two photos, in order. *)
Definition not_after (a b : photo) : Prop :=
  ∃ x y, uploadDate a = Some x ∧ uploadDate b = Some y ∧ (x ≤ y)%Z.

(** X7.  With the sort "size-asc" the list shown is in ascending order
    of size and with "size-desc" in descending order.  When the upload
    date of every photo of the gallery is a time value, the list shown is
    from earliest to latest with "date-asc" and from latest to earliest
    with "date-desc". *)
Theorem view_is_sorted :
  ∀ (localeCompare : string → string → Z) (clk : clock) (g : gallery),
    let l := filteredPhotos (filterAndSortPhotos localeCompare clk g) in
    (currentSort g = "size-asc" → StronglySorted (λ a b, (size a ≤ size b)%Z) l)
    ∧ (currentSort g = "size-desc" → StronglySorted (λ a b, (size b ≤ size a)%Z) l)
    ∧ (Forall (λ p, is_Some (uploadDate p)) (photos g) →
       (currentSort g = "date-asc" → StronglySorted not_after l)
       ∧ (currentSort g = "date-desc" → StronglySorted (λ a b, not_after b a) l)).
Proof.
  intros localeCompare clk g l. subst l. rewrite filterAndSortPhotos_eq.
  split; [|split].
  - intros ->. apply JsProofs.sort_sorted; unfold compare; simpl; intros; lia.
  - intros ->. apply JsProofs.sort_sorted; unfold compare; simpl; intros; lia.
  - intros Hdates.
    assert (Forall (λ p, is_Some (uploadDate p))
              (List.filter (visible clk g) (photos g))) as Hshown.
    { apply Forall_forall. intros p Hp. apply list_elem_of_In, filter_In in Hp as [Hp _].
      apply list_elem_of_In in Hp. by apply (proj1 (Forall_forall _ _) Hdates). }
    split; intros ->.
    + apply (JsProofs.sort_sorted_on _ (λ p, is_Some (uploadDate p))); [| | |done].
      * intros a b [x Hx] [y Hy] Hle. unfold compare in Hle. simpl in Hle.
        rewrite Hx, Hy in Hle. simpl in Hle. exists x, y. repeat split; [done|done|lia].
      * intros a b [x Hx] [y Hy] Hlt. unfold compare in Hlt. simpl in Hlt.
        rewrite Hx, Hy in Hlt. simpl in Hlt. exists y, x. repeat split; [done|done|lia].
      * intros a b c (x & y & Hx & Hy & Hxy) (y' & z & Hy' & Hz & Hyz).
        exists x, z. repeat split; [done|done|]. rewrite Hy in Hy'. injection Hy' as <-. lia.
    + apply (JsProofs.sort_sorted_on _ (λ p, is_Some (uploadDate p))); [| | |done].
      * intros a b [x Hx] [y Hy] Hle. unfold compare in Hle. simpl in Hle.
        rewrite Hx, Hy in Hle. simpl in Hle. exists y, x. repeat split; [done|done|lia].
      * intros a b [x Hx] [y Hy] Hlt. unfold compare in Hlt. simpl in Hlt.
        rewrite Hx, Hy in Hlt. simpl in Hlt. exists x, y. repeat split; [done|done|lia].
      * intros a b c (y & x & Hy & Hx & Hyx) (z & y' & Hz & Hy' & Hzy).
        exists z, x. repeat split; [done|done|]. rewrite Hy in Hy'. injection Hy' as <-. lia.
Qed.

Definition sample_dated : gallery :=
  {| photos := take 2 sample_photos; filteredPhotos := [];
     selectedPhotos := ∅;
     currentView := "grid"; currentSort := "date-asc"; currentFilter := "all";
     currentCategory := "all"; searchQuery := "" |}.

Lemma view_is_sorted_witness :
  StronglySorted not_after
    (filteredPhotos (filterAndSortPhotos sample_localeCompare
                       (sample_clock 1723600001000) sample_dated)).
Proof.
  apply (view_is_sorted sample_localeCompare (sample_clock 1723600001000) sample_dated).
  - repeat constructor; by eexists.
  - reflexivity.
Defined.

(** X8.  The photos of a gallery loaded from the server carry their
    upload date as text, which is no number in [>=] and [-].  When all
    photos are such, every date filter other than "all" leaves nothing to
    show, and the two sorts by date leave the photos that pass the
    filters in the order of the gallery. *)
Theorem text_dates_defeat_date_controls :
  ∀ (localeCompare : string → string → Z) (clk : clock) (g : gallery),
    Forall (λ p, uploadDate p = None) (photos g) →
    let l := filteredPhotos (filterAndSortPhotos localeCompare clk g) in
    (currentFilter g ≠ "all" → l = [])
    ∧ (currentSort g = "date-desc" ∨ currentSort g = "date-asc" →
       l = List.filter (visible clk g) (photos g)).
Proof.
  intros localeCompare clk g Htext l. subst l. rewrite filterAndSortPhotos_eq. split.
  - intros Hfilter.
    assert (List.filter (visible clk g) (photos g) = []) as ->; [|done].
    induction Htext as [|p ps Hp _ IH]; simpl; [done|].
    unfold visible at 1. rewrite Hp. simpl.
    destruct (String.eqb_spec (currentFilter g) "all") as [Heq|_]; [done|].
    by rewrite !andb_false_r.
  - intros Hsort. apply JsProofs.sort_indifferent.
    apply Forall_forall. intros x Hx. apply Forall_forall. intros y _.
    apply list_elem_of_In, filter_In in Hx as [Hx _]. apply list_elem_of_In in Hx.
    pose proof (proj1 (Forall_forall _ _) Htext x Hx) as Hnone. simpl in Hnone.
    unfold compare. destruct Hsort as [->| ->]; simpl; rewrite Hnone; simpl.
    + by destruct (uploadDate y).
    + done.
Qed.

Definition sample_loaded : gallery :=
  {| photos := drop 2 sample_photos; filteredPhotos := [];
     selectedPhotos := ∅;
     currentView := "grid"; currentSort := "date-desc"; currentFilter := "year";
     currentCategory := "all"; searchQuery := "" |}.

Lemma text_dates_defeat_date_controls_witness :
  filteredPhotos (filterAndSortPhotos sample_localeCompare
                    (sample_clock 1723600001000) sample_loaded) = [].
Proof.
  destruct (text_dates_defeat_date_controls sample_localeCompare
              (sample_clock 1723600001000) sample_loaded) as [Hnone _].
  - repeat constructor.
  - apply Hnone. intros H. vm_compute in H. discriminate H.
Defined.

(** *** Selecting and deleting *)

#[local] Set Warnings "-clear-no-such-hyp".

Lemma select_shown (sel : gset string) (l : list photo) :
  foldl (λ sel p, {[id p]} ∪ sel) sel l = sel ∪ list_to_set (map id l).
Proof.
  revert sel. induction l as [|p l IH]; intros sel; simpl.
  - by rewrite (right_id_L ∅ (∪)).
  - rewrite IH. apply set_eq. intros i. rewrite !elem_of_union. tauto.
Qed.

(** X9.  [selectAllPhotos] when the photos shown have distinct
    identifiers, there is at least one and all of them are selected: if
    no hidden photo is selected the selection is emptied; if a hidden
    photo is selected as well, nothing changes, so the call deselects
    nothing.  The photos and the list shown stay as they are. *)
Theorem select_all_when_all_shown_selected :
  ∀ g : gallery,
    NoDup (shown g) → shown g ≠ [] →
    (∀ i, i ∈ shown g → i ∈ selectedPhotos g) →
    let g' := selectAllPhotos g in
    photos g' = photos g ∧ filteredPhotos g' = filteredPhotos g
    ∧ ((∀ i, i ∈ selectedPhotos g → i ∈ shown g) → selectedPhotos g' = ∅)
    ∧ ((∃ i, i ∈ selectedPhotos g ∧ i ∉ shown g) →
       selectedPhotos g' = selectedPhotos g).
Proof.
  intros g Hnodup Hsome Hall g'. subst g'. unfold shown in *.
  assert (selectedPhotos g
          = list_to_set (map id (filteredPhotos g))
            ∪ selectedPhotos g ∖ list_to_set (map id (filteredPhotos g))) as Hsplit.
  { apply set_eq. intros i. rewrite elem_of_union, elem_of_difference, elem_of_list_to_set.
    split; [|by intros [?|[? _]]; auto].
    intros Hi. destruct (decide (i ∈ map id (filteredPhotos g))); auto. }
  assert (base.size (selectedPhotos g)
          = (length (filteredPhotos g)
             + base.size (selectedPhotos g ∖ list_to_set (map id (filteredPhotos g))))%nat)
    as Hsize.
  { rewrite Hsplit at 1. rewrite size_union by set_solver.
    by rewrite size_list_to_set, length_map. }
  assert ((0 <? length (filteredPhotos g))%nat = true) as Hpos.
  { apply Nat.ltb_lt. destruct (filteredPhotos g); [done|simpl; lia]. }
  unfold selectAllPhotos. rewrite Hpos, andb_true_r.
  split; [by case_bool_decide|]. split; [by case_bool_decide|]. split.
  - intros Hnone.
    assert (selectedPhotos g ∖ list_to_set (map id (filteredPhotos g)) = ∅) as Hempty
      by set_solver.
    rewrite Hempty, size_empty in Hsize.
    rewrite bool_decide_eq_true_2 by lia. done.
  - intros (i & Hi & Hhidden).
    assert (base.size (selectedPhotos g ∖ list_to_set (map id (filteredPhotos g))) ≠ 0%nat)
      as Hmore.
    { intros Hzero. apply size_empty_inv in Hzero.
      assert (i ∈ selectedPhotos g ∖ list_to_set (map id (filteredPhotos g))) as Hin
        by set_solver.
      by apply Hzero in Hin. }
    rewrite bool_decide_eq_false_2 by lia.
    simpl. rewrite select_shown. set_solver.
Qed.

Definition sample_shown : gallery :=
  filterAndSortPhotos sample_localeCompare (sample_clock 1723600001000)
    {| photos := sample_photos; filteredPhotos := [];
       selectedPhotos := {["p1"; "p2"; "p3"]};
       currentView := "grid"; currentSort := "name-asc"; currentFilter := "all";
       currentCategory := "travel"; searchQuery := "" |}.

Lemma select_all_when_all_shown_selected_witness :
  shown sample_shown = ["p3"; "p1"]
  ∧ selectedPhotos (selectAllPhotos sample_shown) = selectedPhotos sample_shown.
Proof.
  split; [reflexivity|].
  apply (select_all_when_all_shown_selected sample_shown).
  - vm_compute. repeat constructor; set_solver.
  - discriminate.
  - intros i Hi. apply list_elem_of_In in Hi. vm_compute in Hi.
    destruct Hi as [<-|[<-|[]]]; set_solver.
  - exists "p2". split; [set_solver|].
    intros Hi. apply list_elem_of_In in Hi. vm_compute in Hi.
    destruct Hi as [Hi|[Hi|[]]]; discriminate Hi.
Defined.

(** The loop of [deleteSelectedPhotos] over any list of identifiers. *)
Lemma delete_loop (deleted : string → bool) (l : list string) (g : gallery) :
  let g1 := foldl (λ g photoId, if deleted photoId then remove_local photoId g else g)
              g l in
  photos g1
  = List.filter (λ p, negb (existsb (λ i, deleted i && bool_decide (id p = i)) l))
      (photos g)
  ∧ currentSort g1 = currentSort g ∧ currentFilter g1 = currentFilter g
  ∧ currentCategory g1 = currentCategory g ∧ searchQuery g1 = searchQuery g.
Proof.
  revert g. induction l as [|i l IH]; intros g g1; subst g1; cbn [foldl].
  - simpl. by rewrite filter_all.
  - destruct (deleted i) eqn:Hd.
    + destruct (IH (remove_local i g)) as (Hphotos & Hrest). split; [|exact Hrest].
      rewrite Hphotos. simpl. rewrite filter_twice. apply filter_ext. intros p.
      rewrite Hd. simpl. by rewrite negb_orb.
    + destruct (IH g) as (Hphotos & Hrest). split; [|exact Hrest].
      rewrite Hphotos. apply filter_ext. intros p. simpl. by rewrite Hd.
Qed.

Lemma shown_are_photos (localeCompare : string → string → Z) (clk : clock)
    (g : gallery) (p : photo) :
  p ∈ filteredPhotos (filterAndSortPhotos localeCompare clk g) → p ∈ photos g.
Proof.
  rewrite filterAndSortPhotos_eq, JsProofs.sort_perm, !list_elem_of_In, filter_In.
  by intros [? _].
Qed.

(** X10.  [deleteSelectedPhotos], confirmed, with photos selected: the
    selected photos whose request went through leave the gallery; those
    whose request failed stay in it; the selection is emptied all the
    same, and the list shown holds only photos still in the gallery.
    Declined, or with nothing selected, the gallery stays as it is. *)
Theorem delete_selected_keeps_the_failed :
  ∀ (localeCompare : string → string → Z) (clk : clock)
    (deleted : string → bool) (g : gallery),
    selectedPhotos g ≠ ∅ →
    let g' := deleteSelectedPhotos localeCompare clk true deleted g in
    selectedPhotos g' = ∅
    ∧ photos g'
      = List.filter (λ p, negb (bool_decide (id p ∈ selectedPhotos g) && deleted (id p)))
          (photos g)
    ∧ (∀ p, p ∈ filteredPhotos g' → p ∈ photos g')
    ∧ deleteSelectedPhotos localeCompare clk false deleted g = g
    ∧ deleteSelectedPhotos localeCompare clk true deleted
        (clearSelection g) = clearSelection g.
Proof.
  intros localeCompare clk deleted g Hsel g'. subst g'.
  assert (base.size (selectedPhotos g) ≠ 0%nat) as Hsize.
  { intros Hzero. by apply size_empty_inv, leibniz_equiv in Hzero. }
  unfold deleteSelectedPhotos. rewrite (bool_decide_eq_false_2 _ Hsize).
  destruct (delete_loop deleted (elements (selectedPhotos g)) g) as (Hphotos & _).
  split; [done|]. split; [|split; [|split]].
  - cbn [clearSelection set_selectedPhotos photos filterAndSortPhotos].
    rewrite Hphotos. apply filter_ext. intros p. f_equal.
    apply eq_true_iff_eq. rewrite existsb_exists, andb_true_iff, bool_decide_eq_true.
    split.
    + intros (i & Hi & Hd). apply andb_true_iff in Hd as [Hd Heq].
      apply bool_decide_eq_true in Heq as ->.
      apply list_elem_of_In in Hi. by apply elem_of_elements in Hi.
    + intros [Hi Hd]. exists (id p). split.
      * apply list_elem_of_In. by apply elem_of_elements.
      * rewrite Hd. simpl. by apply bool_decide_eq_true.
  - intros p Hp. cbn [clearSelection set_selectedPhotos photos filteredPhotos] in *.
    by apply shown_are_photos in Hp.
  - done.
  - assert (base.size (selectedPhotos (clearSelection g)) = 0%nat) as Hnone
      by apply (size_empty (C := gset string)).
    by rewrite (bool_decide_eq_true_2 _ Hnone).
Qed.

Definition sample_deleted (photoId : string) : bool := String.eqb photoId "p1".

Lemma delete_selected_keeps_the_failed_witness :
  let g := set_selectedPhotos {["p1"; "p2"]} sample_gallery in
  let g' := deleteSelectedPhotos sample_localeCompare (sample_clock 1723600001000)
              true sample_deleted g in
  selectedPhotos g' = ∅ ∧ map id (photos g') = ["p2"; "p3"].
Proof.
  intros g g'.
  destruct (delete_selected_keeps_the_failed sample_localeCompare
              (sample_clock 1723600001000) sample_deleted g) as (Hsel & Hphotos & _).
  - intros Hempty. assert ("p2" ∈ selectedPhotos g) as Hin by set_solver.
    rewrite Hempty in Hin. set_solver.
  - split; [exact Hsel|]. subst g'. rewrite Hphotos. vm_compute. reflexivity.
Defined.

Lemma find_filter_other (i j : string) (l : list photo) :
  i ≠ j →
  List.find (λ p, bool_decide (id p = i))
    (List.filter (λ p, negb (bool_decide (id p = j))) l)
  = List.find (λ p, bool_decide (id p = i)) l.
Proof.
  intros Hij. induction l as [|p l IH]; simpl; [done|].
  case_bool_decide as Hj; simpl.
  - rewrite bool_decide_eq_false_2 by congruence. done.
  - by rewrite IH.
Qed.

Lemma find_filter_same (i : string) (l : list photo) :
  List.find (λ p, bool_decide (id p = i))
    (List.filter (λ p, negb (bool_decide (id p = i))) l) = None.
Proof.
  induction l as [|p l IH]; simpl; [done|].
  case_bool_decide as Hi; simpl; [done|]. by rewrite bool_decide_eq_false_2.
Qed.

Lemma filter_absent (i : string) (l : list photo) :
  List.find (λ p, bool_decide (id p = i)) l = None →
  List.filter (λ p, negb (bool_decide (id p = i))) l = l.
Proof.
  induction l as [|p l IH]; simpl; [done|].
  case_bool_decide as Hi; simpl; [done|]. intros Hl. by rewrite IH.
Qed.

(** X11.  [deletePhoto] of a photo of the gallery, confirmed and
    carried out by the server: no photo with the identifier is left, the
    identifier is neither selected nor shown, and the other identifiers
    are found and selected as before.  If the photo is not in the
    gallery, the user declines or the request fails, the gallery stays as
    it is. *)
Theorem deletePhoto_removes :
  ∀ (localeCompare : string → string → Z) (clk : clock) (photoId : string)
    (g : gallery),
    is_Some (getPhotoById photoId g) →
    let g' := deletePhoto localeCompare clk true true photoId g in
    getPhotoById photoId g' = None
    ∧ (photoId ∉ selectedPhotos g') ∧ (photoId ∉ shown g')
    ∧ (∀ i, i ≠ photoId →
         getPhotoById i g' = getPhotoById i g
         ∧ (i ∈ selectedPhotos g' ↔ i ∈ selectedPhotos g))
    ∧ (∀ deleted, deletePhoto localeCompare clk false deleted photoId g = g)
    ∧ (∀ confirmed, deletePhoto localeCompare clk confirmed false photoId g = g).
Proof.
  intros localeCompare clk photoId g [p Hp] g'. subst g'. unfold deletePhoto.
  rewrite Hp.
  assert (getPhotoById photoId
            (filterAndSortPhotos localeCompare clk (remove_local photoId g)) = None)
    as Hgone by apply find_filter_same.
  split; [done|]. split; [|split; [|split; [|split]]].
  - simpl. set_solver.
  - unfold shown. intros Hin. apply list_elem_of_fmap in Hin as (q & Hq & Hin).
    apply shown_are_photos in Hin. unfold getPhotoById in Hgone.
    apply list_elem_of_In in Hin.
    apply (find_none _ _ Hgone) in Hin. by apply bool_decide_eq_false in Hin.
  - intros i Hi. split.
    + by apply find_filter_other.
    + simpl. set_solver.
  - done.
  - by intros [].
Qed.

Lemma deletePhoto_removes_witness :
  let g' := deletePhoto sample_localeCompare (sample_clock 1723600001000) true true
              "p2" sample_gallery in
  getPhotoById "p2" g' = None ∧ ("p2" ∉ selectedPhotos g').
Proof.
  intros g'.
  destruct (deletePhoto_removes sample_localeCompare (sample_clock 1723600001000)
              "p2" sample_gallery) as (Hgone & Hsel & _).
  - by eexists.
  - done.
Defined.

(** X12.  A photo added with [addPhoto] is the one [getPhotoById] finds
    under its identifier, also when the gallery has an older photo with
    that identifier; the other identifiers are found as before and the
    selection is kept.  When the identifier is new to the gallery and not
    selected, deleting the photo again gives back the photos and the
    selection there were, and the list shown is the one rebuilt from
    them. *)
Theorem add_then_delete_round_trip :
  ∀ (localeCompare : string → string → Z) (clk clk' : clock) (p : photo)
    (g : gallery),
    let g1 := addPhoto localeCompare clk p g in
    let g2 := deletePhoto localeCompare clk' true true (id p) g1 in
    getPhotoById (id p) g1 = Some p
    ∧ (∀ i, i ≠ id p → getPhotoById i g1 = getPhotoById i g)
    ∧ selectedPhotos g1 = selectedPhotos g
    ∧ (getPhotoById (id p) g = None → id p ∉ selectedPhotos g →
       photos g2 = photos g ∧ selectedPhotos g2 = selectedPhotos g
       ∧ filteredPhotos g2 = filteredPhotos (filterAndSortPhotos localeCompare clk' g)).
Proof.
  intros localeCompare clk clk' p g g1 g2.
  assert (getPhotoById (id p) g1 = Some p) as Hfound.
  { unfold g1, getPhotoById. simpl. by rewrite bool_decide_eq_true_2. }
  split; [done|]. split; [|split; [done|]].
  - intros i Hi. unfold g1, getPhotoById. simpl. by rewrite bool_decide_eq_false_2.
  - intros Hnew Hsel. subst g2. unfold deletePhoto. rewrite Hfound.
    assert (photos (remove_local (id p) g1) = photos g) as Hphotos.
    { unfold g1. simpl. rewrite bool_decide_eq_true_2 by done. simpl.
      by apply filter_absent. }
    assert (selectedPhotos (remove_local (id p) g1) = selectedPhotos g) as Hsame.
    { unfold g1. simpl. set_solver. }
    split; [done|]. split; [done|].
    by apply filterAndSortPhotos_inputs.
Qed.

Definition sample_new : photo :=
  {| id := "p4"; originalName := "dune.png"; category := None;
     tags := None; size := 1024; uploadDate := Some 1723600000500 |}%Z.

Lemma add_then_delete_round_trip_witness :
  let g1 := addPhoto sample_localeCompare (sample_clock 1723600001000) sample_new
              sample_gallery in
  let g2 := deletePhoto sample_localeCompare (sample_clock 1723600002000) true true
              "p4" g1 in
  photos g2 = photos sample_gallery ∧ selectedPhotos g2 = selectedPhotos sample_gallery.
Proof.
  intros g1 g2.
  destruct (add_then_delete_round_trip sample_localeCompare
              (sample_clock 1723600001000) (sample_clock 1723600002000)
              sample_new sample_gallery) as (_ & _ & _ & Hback).
  destruct Hback as (Hphotos & Hsel & _).
  - reflexivity.
  - simpl. set_solver.
  - by split.
Defined.

End GalleryProofs.

(** ** Memories timeline *)

Module MemoriesProofs.
Import Memories.

#[local] Open Scope list_scope.

(** The comparator of [selectRepresentativePhotos]. *)
Definition by_date (a b : photo) : Z := (uploadDate a - uploadDate b)%Z.

Definition not_later (a b : photo) : Prop := (uploadDate a <= uploadDate b)%Z.

Lemma by_date_sorted (photos : list photo) :
  StronglySorted not_later (Js.sort by_date photos).
Proof.
  apply JsProofs.sort_sorted; unfold by_date, not_later; intros; lia.
Qed.

(** Seven photos of one day, listed newest first as the server returns
    them. *)
Definition shot (name : string) (time : Z) : photo :=
  {| id := name; category := "travel"; uploadDate := time |}.

Definition seven_photos : list photo :=
  [shot "g" 1723626000000; shot "f" 1723622400000; shot "e" 1723618800000;
   shot "d" 1723615200000; shot "c" 1723611600000; shot "b" 1723608000000;
   shot "a" 1723604400000]%Z.

(** C4, as stated, fails: of seven photos of one day, the representatives
    are the four earliest, the first four of the group sorted by upload
    time; none of the three latest is among them. *)
Lemma representatives_of_seven :
  (4 < length seven_photos)%nat
  ∧ map id (Js.sort by_date seven_photos) = ["a"; "b"; "c"; "d"; "e"; "f"; "g"]
  ∧ selectRepresentativePhotos seven_photos = take 4 (Js.sort by_date seven_photos)
  ∧ map id (selectRepresentativePhotos seven_photos) = ["a"; "b"; "c"; "d"].
Proof. vm_compute. repeat split; (lia || reflexivity). Qed.

(** C4, amended.  For a group of [n > 4] photos, let [s] be [n / 4]
    rounded down.  The representatives are the photos at positions 0,
    [s], [2 s] and [3 s] of the group sorted by upload time, so
    neighbouring representatives are [s] positions apart.  With [n >= 8]
    the step [s] is at least 2 and the representatives are not the first
    four of the sorted group; with [n] from 5 to 7 the step is 1 and they
    are exactly its first four. *)
Theorem representatives_positions :
  ∀ photos : list photo,
    (4 < length photos)%nat →
    let sorted := Js.sort by_date photos in
    let s := (length photos / 4)%nat in
    sorted ≡ₚ photos
    ∧ StronglySorted not_later sorted
    ∧ (∃ p0 p1 p2 p3,
         selectRepresentativePhotos photos = [p0; p1; p2; p3]
         ∧ sorted !! 0%nat = Some p0 ∧ sorted !! s = Some p1
         ∧ sorted !! (2 * s)%nat = Some p2 ∧ sorted !! (3 * s)%nat = Some p3)
    ∧ (1 ≤ s)%nat
    ∧ (8 ≤ length photos → 2 ≤ s)%nat
    ∧ (length photos < 8 → selectRepresentativePhotos photos = take 4 sorted)%nat.
Proof.
  intros photos Hn sorted s.
  pose proof (Nat.div_mod_eq (length photos) 4) as Hdiv.
  pose proof (Nat.mod_upper_bound (length photos) 4) as Hmod.
  assert (length sorted = length photos) as Hlen by apply JsProofs.sort_length.
  assert (selectRepresentativePhotos photos
          = omap (λ i, sorted !! (i * s)%nat) [0; 1; 2; 3]%nat) as Hsel.
  { unfold selectRepresentativePhotos.
    destruct (Nat.leb_spec (length photos) 4) as [Hle|_]; [lia|].
    fold by_date. fold sorted. rewrite Hlen. fold s.
    simpl. rewrite !Nat.min_l by (subst s; lia). done. }
  split; [apply JsProofs.sort_perm|]. split; [apply by_date_sorted|].
  destruct (lookup_lt_is_Some_2 sorted 0%nat) as [p0 H0]; [lia|].
  destruct (lookup_lt_is_Some_2 sorted s) as [p1 H1]; [subst s; lia|].
  destruct (lookup_lt_is_Some_2 sorted (2 * s)%nat) as [p2 H2]; [subst s; lia|].
  destruct (lookup_lt_is_Some_2 sorted (3 * s)%nat) as [p3 H3]; [subst s; lia|].
  assert (selectRepresentativePhotos photos = [p0; p1; p2; p3]) as Hfour.
  { rewrite Hsel. simpl. rewrite Nat.add_0_r in *.
    replace (s + (s + 0))%nat with (s + s)%nat by lia.
    replace (s + (s + (s + 0)))%nat with (s + (s + s))%nat by lia.
    simpl in H2, H3. rewrite ?Nat.add_0_r in H2, H3.
    by rewrite H0, H1, H2, H3. }
  split; [by exists p0, p1, p2, p3|].
  split; [subst s; lia|]. split; [subst s; lia|].
  intros Hsmall. rewrite Hfour.
  assert (s = 1%nat) as Hs by (subst s; lia). rewrite Hs in *. simpl in H2, H3.
  destruct sorted as [|a [|b [|c [|d rest]]]]; simpl in Hlen; try lia.
  simpl in *. rewrite take_0. congruence.
Qed.

Definition nine_photos : list photo :=
  shot "i" 1723633200000%Z :: shot "h" 1723629600000%Z :: seven_photos.

Lemma representatives_positions_witness :
  let sorted := Js.sort by_date nine_photos in
  (∃ p0 p1 p2 p3,
     selectRepresentativePhotos nine_photos = [p0; p1; p2; p3]
     ∧ sorted !! 0%nat = Some p0 ∧ sorted !! 2%nat = Some p1
     ∧ sorted !! 4%nat = Some p2 ∧ sorted !! 6%nat = Some p3)
  ∧ map id (selectRepresentativePhotos nine_photos) = ["a"; "c"; "e"; "g"].
Proof.
  split; [|reflexivity].
  apply (representatives_positions nine_photos). simpl. lia.
Defined.

(** *** The most common category *)

Definition occurrences (c : string) (l : list string) : Z :=
  Z.of_nat (length (List.filter (String.eqb c) l)).

(** [c] is the dominant category of the categories [l] of a group: it
    occurs in [l], no category occurs more often, and a category that
    occurs as often is first met after [c] is. *)
Definition dominant (l : list string) (c : string) : Prop :=
  c ∈ l
  ∧ ∀ c', c' ∈ l →
      (occurrences c' l <= occurrences c l)%Z
      ∧ (occurrences c' l = occurrences c l → c' ≠ c →
         ∃ l1 l2, l = l1 ++ c :: l2 ∧ c' ∉ l1).

(** A category that is a name like any other for [categoryCounts]:
    not empty, not an array index, not inherited. *)
Definition plain (c : string) : bool :=
  negb (String.eqb c "") && bool_decide (array_index c = None)
  && bool_decide (c ∉ inherited_names).

Definition keys (o : counts) : list string := map fst o.

Lemma occurrences_snoc (k x : string) (l : list string) :
  occurrences k (l ++ [x]) = (occurrences k l + if String.eqb k x then 1 else 0)%Z.
Proof.
  unfold occurrences. rewrite List.filter_app, length_app. simpl.
  destruct (String.eqb k x); simpl; lia.
Qed.

Lemma occurrences_absent (k : string) (l : list string) :
  k ∉ l → occurrences k l = 0%Z.
Proof.
  unfold occurrences. induction l as [|x l IH]; intros Hk; [done|].
  apply not_elem_of_cons in Hk as [Hne Hk]. simpl.
  destruct (String.eqb_spec k x) as [->|_]; [done|]. by apply IH.
Qed.

Lemma own_assign (k x : string) (v : Z) (o : counts) :
  own k (assign x v o) = if String.eqb x k then Some v else own k o.
Proof.
  induction o as [|[k' v'] o IH]; simpl.
  { destruct (String.eqb x k); done. }
  destruct (String.eqb_spec k' x) as [->|Hne]; simpl.
  - by destruct (String.eqb x k).
  - rewrite IH. destruct (String.eqb_spec x k) as [->|_]; [|done].
    destruct (String.eqb_spec k' k) as [->|_]; done.
Qed.

Lemma keys_assign (x : string) (v : Z) (o : counts) :
  keys (assign x v o) = if bool_decide (x ∈ keys o) then keys o else keys o ++ [x].
Proof.
  induction o as [|[k' v'] o IH]; simpl; [done|].
  destruct (String.eqb_spec k' x) as [->|Hne]; simpl.
  - rewrite bool_decide_eq_true_2; [done|apply list_elem_of_here].
  - rewrite IH. case_bool_decide as Hin.
    + rewrite bool_decide_eq_true_2; [done|by apply list_elem_of_further].
    + rewrite bool_decide_eq_false_2; [done|].
      intros Hin'. apply elem_of_cons in Hin' as [?|?]; [by subst|done].
Qed.

Lemma own_elem (k : string) (v : Z) (o : counts) :
  NoDup (keys o) → (k, v) ∈ o → own k o = Some v.
Proof.
  induction o as [|[k' v'] o IH]; intros Hnd Hin; [by apply elem_of_nil in Hin|].
  simpl in *. apply NoDup_cons in Hnd as [Hk' Hnd].
  apply elem_of_cons in Hin as [[= -> ->]|Hin]; [by rewrite String.eqb_refl|].
  destruct (String.eqb_spec k' k) as [->|_]; [|by apply IH].
  exfalso. apply Hk'. by apply (list_elem_of_fmap_2 fst _ (k, v)).
Qed.

(** What [categoryCounts] holds once the categories [l] are gone through. *)
Record tallied (l : list string) (o : counts) : Prop := {
  tal_own : ∀ k, own k o = if bool_decide (k ∈ l) then Some (occurrences k l) else None;
  tal_keys : ∀ k, k ∈ keys o ↔ k ∈ l;
  tal_nodup : NoDup (keys o);
  tal_order : ∀ a k b k',
    keys o = a ++ k :: b → k' ∈ b → ∃ l1 l2, l = l1 ++ k :: l2 ∧ k' ∉ l1
}.

Lemma tallied_nil : tallied [] [].
Proof.
  split; simpl; try done.
  - apply NoDup_nil_2.
  - intros a k b k' Heq. by destruct a.
Qed.

Lemma tallied_bump (l : list string) (o : counts) (x : string) :
  tallied l o → tallied (l ++ [x]) (bump o x).
Proof.
  intros [Hown Hkeys Hnd Hord]. unfold bump.
  assert (default 0%Z (own x o) = occurrences x l) as Hx.
  { rewrite Hown. case_bool_decide as Hin; [done|]. simpl.
    symmetry. by apply occurrences_absent. }
  split.
  - intros k. rewrite own_assign, Hx, occurrences_snoc, Hown.
    destruct (String.eqb_spec x k) as [->|Hne].
    + rewrite String.eqb_refl, bool_decide_eq_true_2; [done|].
      apply elem_of_app. right. apply list_elem_of_here.
    + destruct (String.eqb_spec k x) as [->|_]; [done|]. rewrite Z.add_0_r.
      case_bool_decide as Hin.
      * rewrite bool_decide_eq_true_2; [done|]. apply elem_of_app. by left.
      * rewrite bool_decide_eq_false_2; [done|]. intros Hin'.
        apply elem_of_app in Hin' as [?|Hin']; [done|].
        apply list_elem_of_singleton in Hin'. done.
  - intros k. rewrite keys_assign, elem_of_app, list_elem_of_singleton.
    case_bool_decide as Hin.
    + rewrite Hkeys. split; [by left|]. intros [?| ->]; [done|]. by apply Hkeys.
    + by rewrite elem_of_app, list_elem_of_singleton, Hkeys.
  - rewrite keys_assign. case_bool_decide as Hin; [done|].
    apply NoDup_app. split; [done|]. split; [|apply NoDup_singleton].
    intros k Hk Hk'. apply list_elem_of_singleton in Hk'. by subst.
  - intros a k b k' Heq Hk'. rewrite keys_assign in Heq.
    case_bool_decide as Hin.
    + destruct (Hord a k b k' Heq Hk') as (l1 & l2 & -> & Hl1).
      exists l1, (l2 ++ [x]). split; [|done]. by rewrite <- app_assoc.
    + destruct (decide (b = [])) as [->|Hb]; [by apply elem_of_nil in Hk'|].
      destruct (exists_last Hb) as (b' & y & ->).
      rewrite app_comm_cons, app_assoc in Heq.
      apply app_inj_tail in Heq as [Heq <-].
      apply elem_of_app in Hk' as [Hk'|Hk'].
      * destruct (Hord a k b' k' Heq Hk') as (l1 & l2 & -> & Hl1).
        exists l1, (l2 ++ [x]). split; [|done]. by rewrite <- app_assoc.
      * apply list_elem_of_singleton in Hk' as ->.
        assert (k ∈ l) as Hk.
        { apply Hkeys. rewrite Heq. apply elem_of_app. right. apply list_elem_of_here. }
        apply list_elem_of_split in Hk as (l1 & l2 & ->).
        exists l1, (l2 ++ [x]). split; [by rewrite <- app_assoc|].
        intros Hx'. apply Hin, Hkeys, elem_of_app. by left.
Qed.

Lemma tallied_foldl (l : list string) : tallied l (foldl bump [] l).
Proof.
  induction l as [|x l IH] using rev_ind; [apply tallied_nil|].
  rewrite foldl_app. simpl. by apply tallied_bump.
Qed.

(** Without array indices among the names, [Object.entries] lists the
    properties in creation order. *)
Lemma entries_plain (o : counts) :
  Forall (λ k, array_index k = None) (keys o) → entries o = o.
Proof.
  intros Hplain. unfold entries.
  assert (omap (λ e : string * Z, n ← array_index e.1; Some (e.1, n, e.2)) o = []) as ->.
  { induction o as [|[k v] o IH]; [done|]. simpl in *.
    apply Forall_cons in Hplain as [Hk Ho]. rewrite Hk. simpl. by apply IH. }
  simpl. induction o as [|[k v] o IH]; [done|]. simpl in *.
  apply Forall_cons in Hplain as [Hk Ho]. rewrite Hk. simpl.
  f_equal. by apply IH.
Qed.

(** The comparator of [getMostCommonCategory]. *)
Definition by_count (a b : string * Z) : Z := (b.2 - a.2)%Z.

(** Sorting by descending count puts first the leftmost entry with the
    greatest count. *)
Lemma sort_by_count_head (o : counts) :
  o ≠ [] →
  ∃ k v rest o1 o2,
    Js.sort by_count o = (k, v) :: rest
    ∧ o = o1 ++ (k, v) :: o2
    ∧ Forall (λ e, (e.2 < v)%Z) o1
    ∧ Forall (λ e, (e.2 <= v)%Z) o2.
Proof.
  induction o as [|x o IH]; intros Hne; [done|]. simpl.
  destruct (decide (o = [])) as [->|Ho].
  { destruct x as [k v]. exists k, v, [], [], []. by repeat split. }
  destruct (IH Ho) as (k & v & rest & o1 & o2 & Hsort & Hsplit & Hlt & Hle).
  rewrite Hsort. simpl. unfold by_count at 1. simpl.
  destruct (Z.leb_spec (v - x.2) 0) as [Hxv|Hxv].
  - destruct x as [kx vx]. simpl in *.
    exists kx, vx, ((k, v) :: rest), [], o. repeat split; [done|].
    rewrite Hsplit. apply Forall_app. split.
    + eapply Forall_impl; [done|]. simpl. intros; lia.
    + apply Forall_cons. split; [simpl; lia|].
      eapply Forall_impl; [done|]. simpl. intros; lia.
  - exists k, v, (Js.sort_insert by_count x rest), (x :: o1), o2.
    repeat split; [by rewrite Hsplit| |done].
    apply Forall_cons. split; [lia|done].
Qed.

Definition in_category (c : string) (time : Z) : photo :=
  {| id := c; category := c; uploadDate := time |}.

(** C7, as stated, fails: with one photo of the category "travel"
    followed by one of the category "2024", the two categories are tied
    and "travel" is met first, yet the result is "2024", because an
    object lists its properties named by array indices before the
    others. *)
Lemma numeric_category_first :
  getMostCommonCategory [in_category "travel" 1723604400000;
                         in_category "2024" 1723608000000] = Some "2024"
  ∧ ¬ dominant ["travel"; "2024"] "2024".
Proof.
  split; [reflexivity|].
  intros [_ Hdom]. destruct (Hdom "travel") as [_ Htie]; [apply list_elem_of_here|].
  destruct Htie as (l1 & l2 & Heq & Hl1); [reflexivity|discriminate|].
  destruct l1 as [|a l1]; [discriminate Heq|].
  injection Heq as <- _. apply Hl1, list_elem_of_here.
Qed.

(** C7, amended.  For a group that is not empty and whose categories are
    not empty, not array indices (decimal numerals below 2^32 - 1) and
    not names inherited from [Object.prototype], the result is the
    category that occurs most often in the group, and among categories
    that occur equally often the one met first in the group's order. *)
Theorem most_common_category :
  ∀ photos : list photo,
    photos ≠ [] →
    forallb (λ p, plain (category p)) photos = true →
    ∃ c, getMostCommonCategory photos = Some c
         ∧ dominant (map category photos) c.
Proof.
  intros photos Hne Hplain.
  assert (∀ k, k ∈ map category photos →
               k ≠ "" ∧ array_index k = None ∧ k ∉ inherited_names) as Hcats.
  { intros k Hk. apply list_elem_of_fmap in Hk as (p & -> & Hp).
    apply list_elem_of_In in Hp.
    pose proof (proj1 (forallb_forall _ _) Hplain p Hp) as Hpl.
    unfold plain in Hpl. apply andb_true_iff in Hpl as [Hpl Hinh].
    apply andb_true_iff in Hpl as [Hempty Hidx].
    apply bool_decide_eq_true in Hidx, Hinh.
    split; [|done]. intros Heq. by rewrite Heq in Hempty. }
  unfold getMostCommonCategory.
  assert (existsb (λ p, bool_decide (category p ∈ inherited_names)) photos = false) as ->.
  { apply not_true_iff_false. intros Hex. apply existsb_exists in Hex as (p & Hp & Hin).
    apply bool_decide_eq_true in Hin.
    apply (Hcats (category p)); [|done].
    apply list_elem_of_fmap_2. by apply list_elem_of_In. }
  set (l := map category photos) in *.
  pose proof (tallied_foldl l) as Ht. set (o := foldl bump [] l) in *.
  rewrite entries_plain; last first.
  { apply Forall_forall. intros k Hk. apply Hcats. by apply (tal_keys l o Ht). }
  assert (o ≠ []) as Ho.
  { destruct photos as [|p photos]; [done|].
    assert (category p ∈ keys o) as Hin.
    { apply (tal_keys l o Ht). apply list_elem_of_here. }
    intros Hnil. rewrite Hnil in Hin. by apply elem_of_nil in Hin. }
  destruct (sort_by_count_head o Ho) as (k & v & rest & o1 & o2 & Hsort & Hsplit & Hlt & Hle).
  fold by_count. rewrite Hsort.
  assert (keys o = keys o1 ++ k :: keys o2) as Hkeys.
  { unfold keys. rewrite Hsplit, map_app. done. }
  assert (k ∈ l) as Hk.
  { apply (tal_keys l o Ht). rewrite Hkeys. apply elem_of_app. right. apply list_elem_of_here. }
  assert (∀ c w, (c, w) ∈ o → w = occurrences c l) as Hval.
  { intros c w Hin. pose proof (own_elem c w o (tal_nodup l o Ht) Hin) as Hown.
    rewrite (tal_own l o Ht) in Hown. case_bool_decide; by simplify_eq. }
  assert (v = occurrences k l) as Hv.
  { apply Hval. rewrite Hsplit. apply elem_of_app. right. apply list_elem_of_here. }
  exists k. split.
  { destruct (String.eqb_spec k "") as [Heq|_]; [|done]. by destruct (Hcats k Hk). }
  split; [done|]. intros c' Hc'.
  assert (∃ w, (c', w) ∈ o) as [w Hw].
  { apply (tal_keys l o Ht) in Hc'. apply list_elem_of_fmap in Hc' as ([c w] & -> & Hin).
    by exists w. }
  pose proof (Hval c' w Hw) as Hwv. rewrite <- Hwv, <- Hv.
  rewrite Hsplit in Hw. apply elem_of_app in Hw as [Hw|Hw].
  { pose proof (proj1 (Forall_forall _ _) Hlt _ Hw) as Hlow. simpl in Hlow.
    split; lia. }
  apply elem_of_cons in Hw as [[= -> ->]|Hw]; [split; [lia|done]|].
  pose proof (proj1 (Forall_forall _ _) Hle _ Hw) as Hlow. simpl in Hlow.
  split; [done|]. intros _ _.
  apply (tal_order l o Ht (keys o1) k (keys o2) c' Hkeys).
  by apply (list_elem_of_fmap_2 fst _ (c', w)).
Qed.

Lemma most_common_category_witness :
  ∃ c, getMostCommonCategory
         [in_category "food" 1723604400000; in_category "travel" 1723608000000;
          in_category "travel" 1723611600000; in_category "food" 1723615200000] = Some c
       ∧ dominant ["food"; "travel"; "travel"; "food"] c.
Proof.
  apply (most_common_category
           [in_category "food" 1723604400000; in_category "travel" 1723608000000;
            in_category "travel" 1723611600000; in_category "food" 1723615200000]).
  - discriminate.
  - reflexivity.
Defined.

(** *** The representatives of any group *)

Lemma lookup_shift {A : Type} (x : A) (l : list A) (ks : list nat) :
  Forall (λ i, 0 < i)%nat ks →
  omap (λ i, (x :: l) !! i) ks = omap (λ i, l !! i) (map Nat.pred ks).
Proof.
  induction 1 as [|i ks Hi _ IH]; [done|].
  destruct i as [|i]; [lia|]. csimpl. by rewrite IH.
Qed.

Lemma increasing_shift (ks : list nat) :
  StronglySorted lt ks → Forall (λ i, 0 < i)%nat ks →
  StronglySorted lt (map Nat.pred ks).
Proof.
  induction 1 as [|i ks Hs IH Hi]; intros Hpos; simpl; [constructor|].
  apply Forall_cons in Hpos as [Hi0 Hpos].
  constructor; [by apply IH|].
  apply Forall_fmap, Forall_forall. intros j Hj. simpl.
  pose proof (proj1 (Forall_forall _ _) Hi j Hj).
  pose proof (proj1 (Forall_forall _ _) Hpos j Hj). simpl in *. lia.
Qed.

(** The elements at increasing positions of a list, in that order, are
    a sublist of it. *)
Lemma lookups_sublist {A : Type} (l : list A) (ks : list nat) :
  StronglySorted lt ks → omap (λ i, l !! i) ks `sublist_of` l.
Proof.
  revert ks. induction l as [|x l IH]; intros ks Hs.
  - assert (omap (λ i, @nil A !! i) ks = []) as ->; [|done].
    clear. induction ks as [|i ks IH]; [done|]. by csimpl.
  - destruct ks as [|i ks]; [apply sublist_nil_l|].
    pose proof Hs as Hs'. apply StronglySorted_inv in Hs' as [Hrest Hi].
    assert (Forall (λ j, 0 < j)%nat ks) as Hpos.
    { eapply Forall_impl; [exact Hi|]. intros j Hj. simpl in Hj. lia. }
    destruct i as [|i].
    + csimpl. rewrite lookup_shift by done.
      apply sublist_skip, IH. by apply increasing_shift.
    + rewrite (lookup_shift x l (S i :: ks)) by (constructor; [lia|done]).
      apply sublist_cons, IH. apply increasing_shift; [done|].
      constructor; [lia|done].
Qed.

Lemma sorted_sublist {A : Type} (R : A → A → Prop) (l1 l2 : list A) :
  l1 `sublist_of` l2 → StronglySorted R l2 → StronglySorted R l1.
Proof.
  induction 1 as [|x l1 l2 Hsub IH|x l1 l2 Hsub IH]; intros Hs; [done| |].
  - apply StronglySorted_inv in Hs as [Hs Hx].
    constructor; [by apply IH|].
    apply Forall_forall. intros y Hy.
    apply (proj1 (Forall_forall _ _) Hx). by apply (sublist_subseteq _ _ Hsub).
  - apply StronglySorted_inv in Hs as [Hs _]. by apply IH.
Qed.

Lemma omap_positions {A : Type} (l : list A) (k : nat) (f : nat → nat) (ks : list nat) :
  Forall (λ i, f i < k)%nat ks →
  omap (λ i, l !! f i) ks = omap (λ i, take k l !! i) (map f ks).
Proof.
  induction 1 as [|i ks Hi _ IH]; [done|]. csimpl.
  rewrite lookup_take_lt by done. by rewrite IH.
Qed.

Lemma omap_lookup_length {A : Type} (l : list A) (ks : list nat) :
  Forall (λ i, i < length l)%nat ks → length (omap (λ i, l !! i) ks) = length ks.
Proof.
  induction 1 as [|i ks Hi _ IH]; [done|]. csimpl.
  destruct (lookup_lt_is_Some_2 l i Hi) as [x ->]. simpl. by rewrite IH.
Qed.

(** X21.  [selectRepresentativePhotos] on any group: it returns as many
    photos as the group has, and at most four; each of them is a photo of
    the group.  For a group of more than four, the four are taken at four
    different places of the group sorted by upload time, in that order,
    so they come from earliest to latest; and none of them stands at the
    last place, so the latest upload of such a group is never taken. *)
Theorem representatives_in_order :
  ∀ photos : list photo,
    let reps := selectRepresentativePhotos photos in
    length reps = Nat.min (length photos) 4
    ∧ (∀ p, p ∈ reps → p ∈ photos)
    ∧ ((4 < length photos)%nat →
       reps `sublist_of` take (length photos - 1) (Js.sort by_date photos)
       ∧ StronglySorted not_later reps).
Proof.
  intros photos reps. subst reps. unfold selectRepresentativePhotos.
  destruct (Nat.leb_spec (length photos) 4) as [Hle|Hn].
  { split; [lia|]. split; [done|lia]. }
  fold by_date. set (sorted := Js.sort by_date photos).
  assert (length sorted = length photos) as Hlen by apply JsProofs.sort_length.
  rewrite Hlen. set (s := (length photos / 4)%nat).
  pose proof (Nat.div_mod_eq (length photos) 4) as Hdiv.
  pose proof (Nat.mod_upper_bound (length photos) 4) as Hmod.
  assert (1 ≤ s ∧ 3 * s < length photos - 1)%nat as [Hs Hlast] by (subst s; lia).
  clearbody s.
  rewrite (omap_positions sorted (length photos - 1))
    by (repeat constructor; simpl; lia).
  assert (map (λ i, Nat.min (i * s) (length photos - 1)) [0; 1; 2; 3]%nat
          = [0; s; 2 * s; 3 * s]%nat) as ->.
  { cbn [map]. rewrite !Nat.min_l by lia. f_equal. f_equal. lia. }
  set (rest := take (length photos - 1) sorted).
  assert (length rest = (length photos - 1)%nat) as Hrest
    by (subst rest; rewrite length_take; lia).
  assert (omap (λ i, rest !! i) [0; s; 2 * s; 3 * s]%nat `sublist_of` rest) as Hsub.
  { apply lookups_sublist. repeat constructor; lia. }
  split; [|split].
  - rewrite omap_lookup_length by (repeat constructor; lia). simpl. lia.
  - intros p Hp. apply (sublist_subseteq _ _ Hsub) in Hp.
    apply (sublist_subseteq _ _ (sublist_take _ _)) in Hp.
    unfold sorted in Hp. by rewrite (JsProofs.sort_perm by_date photos) in Hp.
  - intros _. split; [done|].
    apply (sorted_sublist _ _ _ Hsub), (sorted_sublist _ _ sorted).
    + apply sublist_take.
    + apply by_date_sorted.
Qed.

Lemma representatives_in_order_witness :
  selectRepresentativePhotos nine_photos
  `sublist_of` take 8 (Js.sort by_date nine_photos)
  ∧ StronglySorted not_later (selectRepresentativePhotos nine_photos).
Proof.
  apply (representatives_in_order nine_photos). simpl. lia.
Defined.

(** *** Memories by day *)

Section Timeline.
Context (dateKey : Z → string) (dateOf : string → Z).








Lemma concat_perm {A : Type} (l1 l2 : list (list A)) :
  l1 ≡ₚ l2 → concat l1 ≡ₚ concat l2.
Proof.
  induction 1 as [|x l1 l2 _ IH|x y l|l1 l2 l3 _ IH1 _ IH2]; simpl.
  - done.
  - by rewrite IH.
  - rewrite !app_assoc. f_equiv. apply Permutation_app_comm.
  - by rewrite IH1.
Qed.


End Timeline.





End MemoriesProofs.
